(** * Collatz window/funnel certificate toolchain: a shallow embedding

    The Python sources under [tools/certificate] are embedded as Rocq
    functions: [windows.py] (pattern enumeration, congruence solving,
    residue projection), [funnels.py] (funnel search) and [validator.py]
    (window re-check and summary).  Python's unbounded [int] is [Z],
    [Fraction] is the canonical rational type [Qc], [set[int]] is
    [gset Z], and a raised exception is the [Raise] branch of [res]. *)

From Stdlib Require Import ZArith Zcong Znumtheory QArith Qcanon Qround Sorted Lia.
From stdpp Require Import base list gmap.

#[local] Open Scope Z_scope.

(** ** Exceptions and the result monad *)

(** The explicit per-row checks of [validate_windows], in source order. *)
Inductive row_check : Type :=
| ResidueEven
| ExactModulusMismatch
| LengthMismatch
| CongruenceFailed (step : Z)
| CumulativeKMismatch
| ANotBelowOne
| AffineMismatch
| N0Mismatch.

(** The explicit per-row checks of [validate_funnels]. *)
Inductive funnel_check : Type :=
| ZeroLengthNotWindow
| HitsWindowEarly (depth : Z)
| MissesWindow.

Inductive exn : Type :=
| NegativeShiftCount               (* ValueError raised by [<<] *)
| NotInvertible                    (* ValueError raised by 3-argument [pow] *)
| ZeroModulus                      (* ValueError: pow() 3rd argument cannot be 0 *)
| ZeroDivision                     (* ZeroDivisionError *)
| EmptyMax                         (* ValueError: max() arg is an empty sequence *)
| FunnelDepthExceeded (residue : Z) (* RuntimeError of [funnel_lengths] *)
| RowInvalid (idx : Z) (why : row_check) (* ValueError("Row idx: ...") *)
| FunnelRowInvalid (idx : Z) (why : funnel_check).

Inductive res (A : Type) : Type :=
| Ok (a : A)
| Raise (e : exn).
Arguments Ok {A} a.
Arguments Raise {A} e.

(** Sequencing: the first exception raised aborts the computation.  The
    [x ← m; k] notation is stdpp's. *)
#[global] Instance res_bind : MBind res := fun A B k m =>
  match m with
  | Ok a => k a
  | Raise e => Raise e
  end.

(** ** Python integer primitives *)

(** [a << n]: a negative shift count raises [ValueError]. *)
Definition py_shl (a n : Z) : res Z :=
  if n <? 0 then Raise NegativeShiftCount else Ok (Z.shiftl a n).

(** [pow(base, e, modulus)] for the positive moduli of this program.  With
    [e < 0] Python inverts [base] modulo [modulus] (raising when it is not
    invertible) and raises the inverse to [-e]; the result is reduced into
    [[0, modulus)]. *)
Definition py_pow_mod (base e modulus : Z) : res Z :=
  if modulus =? 0 then Raise ZeroModulus
  else if e <? 0 then
    if Z.gcd base modulus =? 1
    then Ok ((Z.invmod base modulus ^ (- e)) mod modulus)
    else Raise NotInvertible
  else Ok ((base ^ e) mod modulus).

(** [int.bit_length()]. *)
Definition bit_length (x : Z) : Z :=
  if x =? 0 then 0 else Z.log2 (Z.abs x) + 1.

(** [range(lo, hi)] as a list. *)
Definition py_range (lo hi : Z) : list Z := seqZ lo (hi - lo).

(** [range(lo, hi, step)] for a positive [step]. *)
Definition py_range_step (lo hi step : Z) : list Z :=
  (fun i => lo + step * i) <$> seqZ 0 ((hi - lo + step - 1) / step).

(** [sum] of a list of integers. *)
Definition sumZ (l : list Z) : Z := foldr Z.add 0 l.

(** ** Exact rationals: [fractions.Fraction]

    A [Fraction] is kept in lowest terms with a positive denominator and
    compared structurally; [Qc] is exactly that. *)

Definition Qc_of_Z (n : Z) : Qc := Q2Qc (inject_Z n).

(** [Fraction(n, d)] on two integers. *)
Definition Fraction (n d : Z) : res Qc :=
  if d =? 0 then Raise ZeroDivision else Ok (Qc_of_Z n / Qc_of_Z d)%Qc.

(** [Fraction(x, y)] on two fractions, that is [x / y]. *)
Definition Fraction_div (x y : Qc) : res Qc :=
  if Qc_eq_dec y 0%Qc then Raise ZeroDivision else Ok (x / y)%Qc.

Definition Qc_ltb (x y : Qc) : bool :=
  match (x ?= y)%Qc with Lt => true | _ => false end.

Definition Qc_leb (x y : Qc) : bool := negb (Qc_ltb y x).

Definition Qc_eqb (x y : Qc) : bool :=
  if Qc_eq_dec x y then true else false.

(** [math.ceil] of a [Fraction]: [-(-numerator // denominator)]. *)
Definition ceil_fraction (q : Qc) : Z :=
  - ((- Qnum (this q)) / Z.pos (Qden (this q))).

(** [max] of a list of fractions; the first maximal element is kept. *)
Definition py_max (l : list Qc) : res Qc :=
  match l with
  | [] => Raise EmptyMax
  | x :: xs => Ok (fold_left (fun m y => if Qc_ltb m y then y else m) xs x)
  end.

(** ** config.py *)

Module Config.

Record CertificateConfig : Type := {
  modulus_power : Z;
  max_window_length : Z;
  max_valuation : Z;
  delta_k : Z;
  funnel_depth : Z
}.

(** The [modulus] property: [1 << self.modulus_power]. *)
Definition modulus (c : CertificateConfig) : res Z :=
  py_shl 1 (modulus_power c).

End Config.

(** ** windows.py *)

Module Windows.

Record WindowRecord : Type := {
  residue : Z;
  exact_residue : Z;
  j : Z;
  K : Z;
  pattern : list Z;
  A : Qc;
  B : Qc;
  N0 : Qc
}.

(** The nested generator [backtrack] of [enumerate_patterns].  [slots]
    counts down by one at every recursive call and the recursion stops at
    [slots == 1], so it is the structural argument.  [slots = 0] is not
    reached from a [length] of at least 1, the only lengths the generator
    asks for (for [length <= 0] the Python recursion never meets
    [slots == 1]: it yields nothing, or exhausts the recursion limit). *)
Fixpoint backtrack (max_part : Z) (slots : nat) (prefix : list Z)
    (remaining : Z) : list (list Z) :=
  match slots with
  | O => []
  | S O =>
      if (1 <=? remaining) && (remaining <=? max_part)
      then [prefix ++ [remaining]] else []
  | S slots' =>
      let min_part :=
        Z.max 1 (remaining - max_part * (Z.of_nat slots - 1)) in
      let max_part_allowed :=
        Z.min max_part (remaining - (Z.of_nat slots - 1)) in
      part ← py_range min_part (max_part_allowed + 1);
      backtrack max_part slots' (prefix ++ [part]) (remaining - part)
  end.

Definition enumerate_patterns (length total max_part : Z) : list (list Z) :=
  if length =? 1 then
    if (1 <=? total) && (total <=? max_part) then [[total]] else []
  else backtrack max_part (Z.to_nat length) [] total.

(** One iteration of the [for] loop of [solve_residue]; the state is
    [(K_t, c_t, r_mod)] and [idx] is the 0-based position. *)
Definition solve_step (st : Z * Z * Z) (idx s_val : Z) : res (Z * Z * Z) :=
  let '(K_t, c_t, _) := st in
  let K_next := K_t + s_val in
  modulus ← py_shl 1 (K_next + 1);
  two_K_t ← py_shl 1 K_t;
  two_K_next ← py_shl 1 K_next;
  let rhs := (- (3 * c_t + two_K_t) + two_K_next) mod modulus in
  inv ← py_pow_mod 3 (- (idx + 1)) modulus;
  let r_mod := (inv * rhs) mod modulus in
  Ok (K_next, 3 * c_t + two_K_t, r_mod).

Fixpoint solve_loop (idx : Z) (pattern : list Z) (st : Z * Z * Z)
  : res (Z * Z * Z) :=
  match pattern with
  | [] => Ok st
  | s_val :: rest =>
      st' ← solve_step st idx s_val;
      solve_loop (idx + 1) rest st'
  end.

Definition solve_residue (pattern : list Z) : res (Z * Z) :=
  st ← solve_loop 0 pattern (0, 0, 0);
  let '(K_t, _, r_mod) := st in
  Ok (r_mod, K_t).

(** The second loop of [record_from_pattern], accumulating [(c_j, K_t)]. *)
Fixpoint offset_loop (pattern : list Z) (st : Z * Z) : res (Z * Z) :=
  match pattern with
  | [] => Ok st
  | s_val :: rest =>
      let '(c_j, K_t) := st in
      two_K_t ← py_shl 1 K_t;
      offset_loop rest (3 * c_j + two_K_t, K_t + s_val)
  end.

(** [None] inside [Ok] is Python's [return None]. *)
Definition record_from_pattern (pattern : list Z)
  : res (option WindowRecord) :=
  rK ← solve_residue pattern;
  let '(r_mod, K) := rK in
  let j := Z.of_nat (length pattern) in
  let three_pow := 3 ^ j in
  two_pow ← py_shl 1 K;
  if three_pow >=? two_pow then Ok None
  else
    cK ← offset_loop pattern (0, 0);
    let c_j := cK.1 in
    A ← Fraction three_pow two_pow;
    B ← Fraction c_j two_pow;
    N0 ← Fraction_div B (1 - A)%Qc;
    let residue := r_mod in
    Ok (Some {| residue := residue; exact_residue := r_mod; j := j; K := K;
                pattern := pattern; A := A; B := B; N0 := N0 |}).

(** The record rebuilt with another [residue], all other fields copied. *)
Definition with_residue (record : WindowRecord) (r : Z) : WindowRecord :=
  {| residue := r;
     exact_residue := exact_residue record;
     j := j record;
     K := K record;
     pattern := pattern record;
     A := A record;
     B := B record;
     N0 := N0 record |}.

Definition project_residues (record : WindowRecord) (modulus_power : Z)
  : res (list WindowRecord) :=
  modulus ← py_shl 1 modulus_power;
  window_modulus ← py_shl 1 (K record + 1);
  if window_modulus >=? modulus then
    Ok [with_residue record (residue record mod modulus)]
  else
    let stride := window_modulus in
    copies ← py_shl 1 (modulus_power - (K record + 1));
    Ok (offset ← py_range 0 copies;
        let candidate := residue record + offset * stride in
        if candidate mod 2 =? 1
        then [with_residue record (candidate mod modulus)]
        else []).

(** [records.sort(key=lambda rec: rec.residue)]: the ascending sort by
    residue; [list.sort] is stable by the language definition, so records
    with equal keys keep their order. *)
Fixpoint insert_by_residue (x : WindowRecord) (l : list WindowRecord)
  : list WindowRecord :=
  match l with
  | [] => [x]
  | y :: l' =>
      if residue x <=? residue y then x :: l
      else y :: insert_by_residue x l'
  end.

Definition sort_by_residue (l : list WindowRecord) : list WindowRecord :=
  foldr insert_by_residue [] l.

(** The patterns visited by the three nested loops of [generate_windows],
    in order.  [k_min_of j] stands for [math.ceil(j * math.log2(3))], a
    floating-point expression that is left abstract. *)
Definition visited_patterns (k_min_of : Z -> Z) (config : Config.CertificateConfig)
  : list (list Z) :=
  j ← py_range 1 (Config.max_window_length config + 1);
  let k_min := k_min_of j in
  K ← py_range k_min (k_min + Config.delta_k config + 1);
  enumerate_patterns j K (Config.max_valuation config).

(** The body of the innermost loop, threaded over the visited patterns. *)
Fixpoint extend_records (modulus_power : Z) (patterns : list (list Z))
    (records : list WindowRecord) : res (list WindowRecord) :=
  match patterns with
  | [] => Ok records
  | pattern :: rest =>
      base_record ← record_from_pattern pattern;
      match base_record with
      | None => extend_records modulus_power rest records
      | Some base =>
          projected ← project_residues base modulus_power;
          extend_records modulus_power rest (records ++ projected)
      end
  end.

(** [generate_windows], as far as the returned record list goes: the CSV and
    statistics files are not modelled, but the two places where writing them
    can raise are ([config.modulus] in the header, and the division by
    [config.modulus // 2] in the coverage ratio). *)
Definition generate_windows (k_min_of : Z -> Z)
    (config : Config.CertificateConfig) : res (list WindowRecord) :=
  records ← extend_records (Config.modulus_power config)
              (visited_patterns k_min_of config) [];
  let records := sort_by_residue records in
  modulus ← Config.modulus config;
  if modulus / 2 =? 0 then Raise ZeroDivision else Ok records.

End Windows.

(** ** funnels.py *)

Module Funnels.

(** [accelerated_step].  [value & -value] isolates the lowest set bit, so
    [shift] is the 2-adic valuation of [value].  [3 * residue + 1] is never
    0 on an integer, hence [shift >= 0] and [>>] cannot raise; every caller
    passes [config.modulus], a power of two, so [%] cannot raise either.
    The definition stands for the code on [modulus <> 0] only: on 0 the
    final [%] raises [ZeroDivisionError], and every statement about the
    step is made for a modulus [2^modulus_power] or under [modulus <> 0]. *)
Definition accelerated_step (residue modulus : Z) : Z :=
  let value := 3 * residue + 1 in
  let shift := bit_length (Z.land value (- value)) - 1 in
  let value := Z.shiftr value shift in
  value mod modulus.

(** The inner [for depth in range(config.funnel_depth + 1)] loop with its
    [break]; [iterations] is the number of iterations left. *)
Fixpoint search (modulus : Z) (window_residues : gset Z) (iterations : nat)
    (depth current : Z) : option Z :=
  match iterations with
  | O => None
  | S iterations' =>
      if decide (current ∈ window_residues) then Some depth
      else search modulus window_residues iterations' (depth + 1)
             (accelerated_step current modulus)
  end.

(** [histogram[length] += 1] on a [Counter]. *)
Definition bump (histogram : gmap Z Z) (length : Z) : gmap Z Z :=
  <[length := default 0 (histogram !! length) + 1]> histogram.

(** The outer loop over [range(1, modulus, 2)]. *)
Fixpoint funnel_loop (funnel_depth modulus : Z) (window_residues : gset Z)
    (residues : list Z) (funnels : list (Z * Z)) (histogram : gmap Z Z)
  : res (list (Z * Z) * gmap Z Z) :=
  match residues with
  | [] => Ok (funnels, histogram)
  | residue :: rest =>
      match search modulus window_residues (Z.to_nat (funnel_depth + 1))
              0 residue with
      | None => Raise (FunnelDepthExceeded residue)
      | Some length =>
          funnel_loop funnel_depth modulus window_residues rest
            (funnels ++ [(residue, length)]) (bump histogram length)
      end
  end.

Definition funnel_lengths (config : Config.CertificateConfig)
    (window_residues : gset Z) : res (list (Z * Z) * gmap Z Z) :=
  modulus ← Config.modulus config;
  funnel_loop (Config.funnel_depth config) modulus window_residues
    (py_range_step 1 modulus 2) [] ∅.

End Funnels.

(** ** validator.py *)

Module Validator.

(** A row of [windows.csv] after field parsing ([int], [json.loads],
    [parse_fraction]); [target_residue] is the [target_residue_mod_<m>]
    column and [s_vec] the pattern. *)
Record WindowRow : Type := {
  target_residue : Z;
  exact_residue_modulus : Z;
  exact_residue : Z;
  j : Z;
  K : Z;
  s_vec : list Z;
  A : Qc;
  B : Qc;
  N0 : Qc
}.

(** The congruence re-walk of one row: the [for t, s_val in
    enumerate(pattern)] loop, returning the final [(K_t, c_t)]. *)
Fixpoint congruence_loop (idx reduced_residue t : Z) (pattern : list Z)
    (K_t c_t : Z) : res (Z * Z) :=
  match pattern with
  | [] => Ok (K_t, c_t)
  | s_val :: rest =>
      let K_next := K_t + s_val in
      modulus ← py_shl 1 (K_next + 1);
      three_t ← py_pow_mod 3 (t + 1) modulus;
      two_K_t ← py_shl 1 K_t;
      let lhs :=
        (three_t * (reduced_residue mod modulus) + 3 * c_t + two_K_t)
          mod modulus in
      expected ← py_shl 1 K_next;
      if negb (lhs =? expected)
      then Raise (RowInvalid idx (CongruenceFailed t))
      else congruence_loop idx reduced_residue (t + 1) rest K_next
             (3 * c_t + two_K_t)
  end.

(** The body of the row loop of [validate_windows]; on success it returns
    [expected_N0], the threshold appended for the row. *)
Definition validate_row (idx : Z) (row : WindowRow) : res Qc :=
  let residue := target_residue row in
  if residue mod 2 =? 0 then Raise (RowInvalid idx ResidueEven)
  else
    let j := j row in
    let K := K row in
    let pattern := s_vec row in
    let exact_modulus := exact_residue_modulus row in
    let exact_residue := exact_residue row in
    natural_modulus ← py_shl 1 (K + 1);
    if negb (exact_modulus =? natural_modulus)
    then Raise (RowInvalid idx ExactModulusMismatch)
    else if negb (Z.of_nat (length pattern) =? j)
    then Raise (RowInvalid idx LengthMismatch)
    else
      Kc ← congruence_loop idx exact_residue 0 pattern 0 0;
      let '(K_t, c_t) := Kc in
      if negb (K_t =? K) then Raise (RowInvalid idx CumulativeKMismatch)
      else
        let three_pow := 3 ^ j in
        two_pow ← py_shl 1 K;
        let recorded_A := A row in
        let recorded_B := B row in
        let recorded_N0 := N0 row in
        expected_A ← Fraction three_pow two_pow;
        expected_B ← Fraction c_t two_pow;
        if Qc_leb 1 expected_A then Raise (RowInvalid idx ANotBelowOne)
        else if negb (Qc_eqb recorded_A expected_A)
                || negb (Qc_eqb recorded_B expected_B)
        then Raise (RowInvalid idx AffineMismatch)
        else
          expected_N0 ← Fraction_div expected_B (1 - expected_A)%Qc;
          if negb (Qc_eqb recorded_N0 expected_N0)
          then Raise (RowInvalid idx N0Mismatch)
          else Ok expected_N0.

(** The row loop: [idx] is the 1-based row number and the accumulator is
    [(thresholds, window_residues, max_j, max_K)]. *)
Fixpoint validate_rows (idx : Z) (rows : list WindowRow)
    (acc : list Qc * gset Z * Z * Z) : res (list Qc * gset Z * Z * Z) :=
  match rows with
  | [] => Ok acc
  | row :: rest =>
      expected_N0 ← validate_row idx row;
      let '(thresholds, window_residues, max_j, max_K) := acc in
      validate_rows (idx + 1) rest
        (thresholds ++ [expected_N0],
         {[ target_residue row ]} ∪ window_residues,
         Z.max max_j (j row),
         Z.max max_K (K row))
  end.

(** [validate_windows] on the parsed rows of the table.  [modulus_power]
    only enters the name [target_residue_mod_<1 << modulus_power>] of the
    residue column, computed before any row is read. *)
Definition validate_windows (rows : list WindowRow) (modulus_power : Z)
  : res (list Qc * gset Z * Z * Z) :=
  modulus ← py_shl 1 modulus_power;
  validate_rows 1 rows ([], ∅, 0, 0).

(** The validator's own copy of the accelerated step; as for the copy of
    funnels.py, it stands for the code on [modulus <> 0] only. *)
Definition accelerated_step (value modulus : Z) : Z :=
  let tmp := 3 * value + 1 in
  let shift := bit_length (Z.land tmp (- tmp)) - 1 in
  let tmp := Z.shiftr tmp shift in
  tmp mod modulus.

(** The replay loop [for depth in range(length)] of one funnel row;
    [iterations] is the number of iterations left. *)
Fixpoint replay (modulus : Z) (window_residues : gset Z) (idx : Z)
    (iterations : nat) (depth current : Z) : res Z :=
  match iterations with
  | O => Ok current
  | S iterations' =>
      if decide (current ∈ window_residues)
      then Raise (FunnelRowInvalid idx (HitsWindowEarly depth))
      else replay modulus window_residues idx iterations' (depth + 1)
             (accelerated_step current modulus)
  end.

(** The row loop of [validate_funnels] on the parsed rows
    [(residue, min_funnel_length)]; the accumulator is
    [(max_depth, records)]. *)
Fixpoint validate_funnel_rows (modulus : Z) (window_residues : gset Z)
    (idx : Z) (rows : list (Z * Z)) (acc : Z * list (Z * Z))
  : res (Z * list (Z * Z)) :=
  match rows with
  | [] => Ok acc
  | (residue, length) :: rest =>
      if (length =? 0) && negb (bool_decide (residue ∈ window_residues))
      then Raise (FunnelRowInvalid idx ZeroLengthNotWindow)
      else
        current ← replay modulus window_residues idx (Z.to_nat length) 0
                     residue;
        if negb (bool_decide (current ∈ window_residues))
        then Raise (FunnelRowInvalid idx MissesWindow)
        else
          let '(max_depth, records) := acc in
          validate_funnel_rows modulus window_residues (idx + 1) rest
            (Z.max max_depth length, records ++ [(residue, length)])
  end.

Definition validate_funnels (rows : list (Z * Z)) (window_residues : gset Z)
    (modulus : Z) : res (Z * list (Z * Z)) :=
  validate_funnel_rows modulus window_residues 1 rows (0, []).

(** The computed part of the summary (paths, hashes and row counts come
    from the files). *)
Record Summary : Type := {
  j_max : Z;
  L : Z;
  J_star : Z;
  max_window_threshold : Qc;
  N0_star : Z;
  modulus : Z
}.

Definition summarize (thresholds : list Qc) (j_max L modulus : Z)
  : res Summary :=
  max_threshold ← py_max thresholds;
  two_L ← py_shl 1 L;
  let N0_star := ceil_fraction (Qc_of_Z two_L * max_threshold)%Qc in
  Ok {| j_max := j_max; L := L; J_star := j_max + L;
        max_window_threshold := max_threshold; N0_star := N0_star;
        modulus := modulus |}.

End Validator.

(** ** The recurrence of the specification

    [K_prefix p t] is [K_t = s_1 + ... + s_t] and [c_prefix p t] is [c_t]
    with [c_0 = 0] and [c_t = 3 c_{t-1} + 2^(K_{t-1})]. *)

Definition K_prefix (p : list Z) (t : nat) : Z := sumZ (take t p).

Fixpoint c_prefix (p : list Z) (t : nat) : Z :=
  match t with
  | O => 0
  | S t' => 3 * c_prefix p t' + 2 ^ K_prefix p t'
  end.

(** The congruence of prefix length [t] (for [t >= 1]) on a residue [r]. *)
Definition prefix_congruence (p : list Z) (r : Z) (t : nat) : Prop :=
  (3 ^ Z.of_nat t * r + 3 * c_prefix p (t - 1) + 2 ^ K_prefix p (t - 1))
    mod 2 ^ (K_prefix p t + 1)
  = 2 ^ K_prefix p t mod 2 ^ (K_prefix p t + 1).

(** The divisibility form of the congruence of prefix length [t]; at
    [t = 0] it says that [r] is odd. *)
Definition cong_at (q : list Z) (r : Z) (t : nat) : Prop :=
  (2 ^ (K_prefix q t + 1) | 3 ^ Z.of_nat t * r + c_prefix q t - 2 ^ K_prefix q t).

(** An admissible part: positive and at most [max_part]. *)
Definition part_ok (max_part s : Z) : Prop := 1 ≤ s ≤ max_part.

(** A composition of [total] into [length] positive parts, each at most
    [max_part]. *)
Definition is_composition (length total max_part : Z) (p : list Z) : Prop :=
  Z.of_nat (List.length p) = length
  ∧ sumZ p = total
  ∧ Forall (part_ok max_part) p.

(** What the window re-check asks of a row: an odd residue, the stored
    exact modulus equal to [2^(K+1)], a pattern of length [j], every
    per-step congruence on the stored exact residue (a congruence whose
    running sum [K_t] is negative has no modulus and counts as failed), a
    cumulative valuation equal to the stored [K], [3^j / 2^K < 1], and the
    stored [A], [B], [N0] equal to their exact recomputation. *)
Definition row_passes (row : Validator.WindowRow) : Prop :=
  let p := Validator.s_vec row in
  let K := Validator.K row in
  Validator.target_residue row mod 2 ≠ 0
  ∧ Validator.exact_residue_modulus row = 2 ^ (K + 1)
  ∧ Z.of_nat (length p) = Validator.j row
  ∧ (∀ t, (1 ≤ t ≤ length p)%nat →
       0 ≤ K_prefix p t
       ∧ prefix_congruence p (Validator.exact_residue row) t)
  ∧ sumZ p = K
  ∧ 3 ^ Z.of_nat (length p) < 2 ^ K
  ∧ Validator.A row = (Qc_of_Z (3 ^ Z.of_nat (length p)) / Qc_of_Z (2 ^ K))%Qc
  ∧ Validator.B row
    = (Qc_of_Z (c_prefix p (length p)) / Qc_of_Z (2 ^ K))%Qc
  ∧ Validator.N0 row = (Validator.B row / (1 - Validator.A row))%Qc.

(** The rows on which no shift count of the re-check can be negative. *)
Definition shift_safe (row : Validator.WindowRow) : Prop :=
  -1 ≤ Validator.K row
  ∧ ∀ t, (t ≤ length (Validator.s_vec row))%nat →
      0 ≤ K_prefix (Validator.s_vec row) t.

(** The record built from a pattern with its solved residue [r]. *)
Definition base_record (pattern : list Z) (r : Z) : Windows.WindowRecord :=
  let j := Z.of_nat (length pattern) in
  let K := sumZ pattern in
  let A := (Qc_of_Z (3 ^ j) / Qc_of_Z (2 ^ K))%Qc in
  let B := (Qc_of_Z (c_prefix pattern (length pattern)) / Qc_of_Z (2 ^ K))%Qc in
  {| Windows.residue := r; Windows.exact_residue := r;
     Windows.j := j; Windows.K := K; Windows.pattern := pattern;
     Windows.A := A; Windows.B := B; Windows.N0 := (B / (1 - A))%Qc |}.

(** [steps modulus d x]: the accelerated step applied [d] times to [x]. *)
Definition steps (modulus : Z) (d : nat) (x : Z) : Z :=
  Nat.iter d (λ y, Funnels.accelerated_step y modulus) x.

(** [d] is the first number of applications that lands in the window set. *)
Definition first_hit (modulus : Z) (W : gset Z) (x : Z) (d : nat) : Prop :=
  steps modulus d x ∈ W ∧ ∀ d', (d' < d)%nat → steps modulus d' x ∉ W.

(** The row with another value in its residue column. *)
Definition with_target (row : Validator.WindowRow) (residue : Z)
  : Validator.WindowRow :=
  {| Validator.target_residue := residue;
     Validator.exact_residue_modulus := Validator.exact_residue_modulus row;
     Validator.exact_residue := Validator.exact_residue row;
     Validator.j := Validator.j row; Validator.K := Validator.K row;
     Validator.s_vec := Validator.s_vec row; Validator.A := Validator.A row;
     Validator.B := Validator.B row; Validator.N0 := Validator.N0 row |}.

(** The row that the validator reads from the line written for a record:
    the stored exact modulus is [2^(K+1)] and every other column is a field
    of the record. *)
Definition row_of_record (record : Windows.WindowRecord)
  : Validator.WindowRow :=
  {| Validator.target_residue := Windows.residue record;
     Validator.exact_residue_modulus := 2 ^ (Windows.K record + 1);
     Validator.exact_residue := Windows.exact_residue record;
     Validator.j := Windows.j record; Validator.K := Windows.K record;
     Validator.s_vec := Windows.pattern record;
     Validator.A := Windows.A record; Validator.B := Windows.B record;
     Validator.N0 := Windows.N0 record |}.

(** What the funnel re-check asks of a row [(residue, length)]: [length]
    applications of the accelerated step, none for a negative [length],
    reach the window set for the first time. *)
Definition funnel_row_passes (modulus : Z) (W : gset Z) (row : Z * Z) : Prop :=
  first_hit modulus W row.1 (Z.to_nat row.2).

(** What each explicit error of [validate_funnels] says about the row
    [(residue, length)] it names. *)
Definition funnel_failure (modulus : Z) (W : gset Z) (residue length : Z)
    (why : funnel_check) : Prop :=
  match why with
  | ZeroLengthNotWindow => length = 0 ∧ residue ∉ W
  | HitsWindowEarly depth =>
      0 ≤ depth < length ∧ first_hit modulus W residue (Z.to_nat depth)
  | MissesWindow =>
      length ≠ 0
      ∧ ∀ d, (d ≤ Z.to_nat length)%nat → steps modulus d residue ∉ W
  end.



(** ** Concrete inputs used in the examples *)

(** [ceil(j * log2(3))] for [j >= 1], computed on integers. *)
Definition k_min_exact (j : Z) : Z := Z.log2_up (3 ^ j).

(** A small certificate: modulus 8, window set [{1}], depth bound 3. *)
Definition config8 : Config.CertificateConfig :=
  {| Config.modulus_power := 3; Config.max_window_length := 1;
     Config.max_valuation := 2; Config.delta_k := 1;
     Config.funnel_depth := 3 |}.

(** A consistent row but for its residue column: 5 is odd but is not
    congruent to the exact residue 1 modulo [2^(K+1) = 8]. *)
Definition stray_residue_row : Validator.WindowRow :=
  {| Validator.target_residue := 5; Validator.exact_residue_modulus := 8;
     Validator.exact_residue := 1; Validator.j := 1; Validator.K := 2;
     Validator.s_vec := [2]; Validator.A := Q2Qc (3 # 4);
     Validator.B := Q2Qc (1 # 4); Validator.N0 := Q2Qc 1 |}.

(** A row with a negative [K]: well-typed, not passing, and yet the error
    it triggers is the interpreter's own and names no row. *)
Definition negative_K_row : Validator.WindowRow :=
  {| Validator.target_residue := 1; Validator.exact_residue_modulus := 8;
     Validator.exact_residue := 1; Validator.j := 1; Validator.K := -2;
     Validator.s_vec := [2]; Validator.A := Q2Qc (3 # 4);
     Validator.B := Q2Qc (1 # 4); Validator.N0 := Q2Qc 1 |}.

(** Three consistent rows, for the patterns [[3]], [[1; 3]] and [[4]]:
    thresholds [1/5], [5/7] and [1/13], none an integer, the largest in the
    middle. *)
Definition window_row_3 : Validator.WindowRow :=
  {| Validator.target_residue := 13; Validator.exact_residue_modulus := 16;
     Validator.exact_residue := 13; Validator.j := 1; Validator.K := 3;
     Validator.s_vec := [3]; Validator.A := Q2Qc (3 # 8);
     Validator.B := Q2Qc (1 # 8); Validator.N0 := Q2Qc (1 # 5) |}.

Definition window_row_1_3 : Validator.WindowRow :=
  {| Validator.target_residue := 19; Validator.exact_residue_modulus := 32;
     Validator.exact_residue := 19; Validator.j := 2; Validator.K := 4;
     Validator.s_vec := [1; 3]; Validator.A := Q2Qc (9 # 16);
     Validator.B := Q2Qc (5 # 16); Validator.N0 := Q2Qc (5 # 7) |}.

Definition window_row_4 : Validator.WindowRow :=
  {| Validator.target_residue := 5; Validator.exact_residue_modulus := 32;
     Validator.exact_residue := 5; Validator.j := 1; Validator.K := 4;
     Validator.s_vec := [4]; Validator.A := Q2Qc (3 # 16);
     Validator.B := Q2Qc (1 # 16); Validator.N0 := Q2Qc (1 # 13) |}.

Definition three_window_rows : list Validator.WindowRow :=
  [window_row_3; window_row_1_3; window_row_4].

(** Funnel rows for the window set [{13, 19, 5}] modulo 32:
    [11 -> 17 -> 13]. *)
Definition three_funnel_rows : list (Z * Z) := [(13, 0); (17, 1); (11, 2)].

(** A configuration with modulus 16 whose eight records are generated out
    of residue order and with repeated residues, and the table returned for
    it. *)
Definition config16 : Config.CertificateConfig :=
  {| Config.modulus_power := 4; Config.max_window_length := 2;
     Config.max_valuation := 3; Config.delta_k := 1;
     Config.funnel_depth := 16 |}.

Definition table16 : list Windows.WindowRecord :=
  [Windows.with_residue (base_record [2] 1) 1;
   Windows.with_residue (base_record [2; 2] 1) 1;
   Windows.with_residue (base_record [2; 3] 17) 1;
   Windows.with_residue (base_record [1; 3] 19) 3;
   Windows.with_residue (base_record [2] 1) 9;
   Windows.with_residue (base_record [3] 13) 13;
   Windows.with_residue (base_record [3; 1] 29) 13;
   Windows.with_residue (base_record [3; 2] 45) 13].

(** ** The window table as text: [to_row], [format_fraction], [parse_fraction] *)

Module Csv.

(** The text of a fraction field: ["num"] or ["num/den"].  Integer
    literals are kept as integers ([str] and [int] on them are inverse). *)
Inductive fraction_text : Type :=
| Whole (num : Z)
| Ratio (num den : Z).

(** A row of [windows.csv] as written by [WindowRecord.to_row]. *)
Record WindowText : Type := {
  target_residue : Z;
  exact_residue_modulus : Z;
  exact_residue : Z;
  j : Z;
  K : Z;
  s_vec : list Z;
  A : fraction_text;
  B : fraction_text;
  N0 : fraction_text
}.

(** windows.py, [format_fraction]. *)
Definition format_fraction (value : Qc) : fraction_text :=
  if Z.pos (Qden (this value)) =? 1 then Whole (Qnum (this value))
  else Ratio (Qnum (this value)) (Z.pos (Qden (this value))).

(** windows.py, [WindowRecord.to_row]; [modulus] only names the residue
    column. *)
Definition to_row (self : Windows.WindowRecord) (modulus : Z)
  : res WindowText :=
  natural_modulus ← py_shl 1 (Windows.K self + 1);
  Ok {| target_residue := Windows.residue self;
        exact_residue_modulus := natural_modulus;
        exact_residue := Windows.exact_residue self;
        j := Windows.j self;
        K := Windows.K self;
        s_vec := Windows.pattern self;
        A := format_fraction (Windows.A self);
        B := format_fraction (Windows.B self);
        N0 := format_fraction (Windows.N0 self) |}.

(** validator.py, [parse_fraction]. *)
Definition parse_fraction (value : fraction_text) : res Qc :=
  match value with
  | Ratio num denom => Fraction num denom
  | Whole num => Fraction num 1
  end.

(** The field parses that [validate_windows] performs on a row. *)
Definition read_row (row : WindowText) : res Validator.WindowRow :=
  recorded_A ← parse_fraction (A row);
  recorded_B ← parse_fraction (B row);
  recorded_N0 ← parse_fraction (N0 row);
  Ok {| Validator.target_residue := target_residue row;
        Validator.exact_residue_modulus := exact_residue_modulus row;
        Validator.exact_residue := exact_residue row;
        Validator.j := j row;
        Validator.K := K row;
        Validator.s_vec := s_vec row;
        Validator.A := recorded_A;
        Validator.B := recorded_B;
        Validator.N0 := recorded_N0 |}.

(** A record written by the generator and read back by the validator. *)
Definition write_read (modulus : Z) (record : Windows.WindowRecord)
  : res Validator.WindowRow :=
  row ← to_row record modulus;
  read_row row.

(** The rows of a whole table, in order; the first failure aborts. *)
Fixpoint write_read_all (modulus : Z) (records : list Windows.WindowRecord)
  : res (list Validator.WindowRow) :=
  match records with
  | [] => Ok []
  | record :: rest =>
      row ← write_read modulus record;
      rows ← write_read_all modulus rest;
      Ok (row :: rows)
  end.

(** funnels.py, [read_window_residues], on the residue column. *)
Definition read_window_residues (column : list Z) : gset Z :=
  foldl (λ residues residue, {[residue]} ∪ residues) ∅ column.

End Csv.

(** ** validator.py, [main]: the three stages in sequence *)

Definition validator_main (rows : list Validator.WindowRow)
    (funnel_rows : list (Z * Z)) (modulus_power : Z)
  : res Validator.Summary :=
  checked ← Validator.validate_windows rows modulus_power;
  let '(thresholds, window_residues, j_max, _) := checked in
  modulus ← py_shl 1 modulus_power;
  replayed ← Validator.validate_funnels funnel_rows window_residues modulus;
  Validator.summarize thresholds j_max replayed.1 modulus.

(** ** finite_check.py *)

Module FiniteCheck.

(** A call either returns or raises the step-cap [RuntimeError] for [n]. *)
Inductive outcome (A : Type) : Type :=
| Returned (a : A)
| StepCapExceeded (n : Z).
Arguments Returned {A} a.
Arguments StepCapExceeded {A} n.

(** The update of [value] in the body of the [while] loop. *)
Definition collatz_next (value : Z) : Z :=
  if value mod 2 =? 0 then value / 2 else 3 * value + 1.

(** The [while value != 1] loop of [collatz_reaches_one].  [fuel] bounds
    the number of loop tests; [None] means the bound was too small. *)
Fixpoint collatz_loop (fuel : nat) (n max_steps steps value : Z)
  : option (outcome Z) :=
  match fuel with
  | O => None
  | S fuel' =>
      if value =? 1 then Some (Returned steps)
      else if steps >? max_steps then Some (StepCapExceeded n)
      else collatz_loop fuel' n max_steps (steps + 1) (collatz_next value)
  end.

(** The loop body runs at most [max_steps + 1] times, so
    [max_steps + 1] tests and two more always suffice. *)
Definition collatz_reaches_one (n max_steps : Z) : option (outcome Z) :=
  collatz_loop (Z.to_nat (max_steps + 1) + 2) n max_steps 0 n.

(** The default value of [max_steps]. *)
Definition default_max_steps : Z := 1000000.

(** The [for n in range(1, limit + 1)] loop of [simulate_range]. *)
Fixpoint simulate_loop (max_steps_arg : Z) (ns : list Z) (max_steps argmax : Z)
  : option (outcome (Z * Z)) :=
  match ns with
  | [] => Some (Returned (max_steps, argmax))
  | n :: rest =>
      match collatz_reaches_one n max_steps_arg with
      | None => None
      | Some (StepCapExceeded m) => Some (StepCapExceeded m)
      | Some (Returned steps) =>
          if steps >? max_steps
          then simulate_loop max_steps_arg rest steps n
          else simulate_loop max_steps_arg rest max_steps argmax
      end
  end.

Definition simulate_range (limit : Z) : option (outcome (Z * Z)) :=
  simulate_loop default_max_steps (py_range 1 (limit + 1)) 0 1.

End FiniteCheck.

(** [d] Collatz steps from [x]. *)
Definition collatz_iter (d : nat) (x : Z) : Z :=
  Nat.iter d FiniteCheck.collatz_next x.

(** [d] is the first number of Collatz steps from [n] that reaches 1. *)
Definition reaches_one_at (n : Z) (d : nat) : Prop :=
  collatz_iter d n = 1 ∧ ∀ d', (d' < d)%nat → collatz_iter d' n ≠ 1.

(** [collatz_reaches_one n max_steps] returns [s]. *)
Definition counted (max_steps n s : Z) : Prop :=
  FiniteCheck.collatz_reaches_one n max_steps = Some (FiniteCheck.Returned s).

(** The state [(max_steps, argmax)] of [simulate_range] after the numbers
    [seen]: every count is at most [m]; and either nothing has exceeded the
    initial [(0, 1)], or [a] is the first number seen whose count is [m]. *)
Definition running_max (cap : Z) (seen : list Z) (m a : Z) : Prop :=
  0 ≤ m
  ∧ Forall (λ n, ∃ s, counted cap n s ∧ s ≤ m) seen
  ∧ ((m = 0 ∧ a = 1)
     ∨ ∃ before after,
         seen = before ++ a :: after
         ∧ counted cap a m
         ∧ Forall (λ n, ∃ s, counted cap n s ∧ s < m) before).

(** * Properties *)

Example solve_residue_1 : Windows.solve_residue [1] = Ok (3, 1).
Proof. reflexivity. Qed.

Example solve_residue_2 : Windows.solve_residue [2] = Ok (1, 2).
Proof. reflexivity. Qed.

Example solve_residue_neg :
  Windows.solve_residue [2; -4] = Raise NegativeShiftCount.
Proof. reflexivity. Qed.

Example record_2 :
  (fun r => match r with
            | Ok (Some w) =>
                Some (Windows.residue w, Windows.K w, this (Windows.A w),
                      this (Windows.B w), this (Windows.N0 w))
            | _ => None
            end) (Windows.record_from_pattern [2])
  = Some (1, 2, (3 # 4)%Q, (1 # 4)%Q, (1 # 1)%Q).
Proof. vm_compute. reflexivity. Qed.

(** ** Shifts and powers of two *)

Lemma py_shl_ok (n : Z) : 0 ≤ n → py_shl 1 n = Ok (2 ^ n).
Proof.
  intros Hn. unfold py_shl.
  destruct (Z.ltb_spec n 0); [lia|]. by rewrite Z.shiftl_1_l.
Qed.

Lemma py_shl_neg (a n : Z) : n < 0 → py_shl a n = Raise NegativeShiftCount.
Proof. intros Hn. unfold py_shl. destruct (Z.ltb_spec n 0); [done|lia]. Qed.

Lemma py_shl_inv (n v : Z) : py_shl 1 n = Ok v → 0 ≤ n ∧ v = 2 ^ n.
Proof.
  unfold py_shl. destruct (Z.ltb_spec n 0); [done|].
  rewrite Z.shiftl_1_l. intros [= <-]. done.
Qed.

Lemma pow2_pos (n : Z) : 0 ≤ n → 0 < 2 ^ n.
Proof. intros. apply Z.pow_pos_nonneg; lia. Qed.

Lemma pow2_divide (m n : Z) : 0 ≤ m ≤ n → (2 ^ m | 2 ^ n).
Proof.
  intros H. exists (2 ^ (n - m)).
  rewrite <- Z.pow_add_r by lia. f_equal. lia.
Qed.

Lemma coprime_3_pow2 (n : Z) : 0 ≤ n → Z.gcd 3 (2 ^ n) = 1.
Proof. intros Hn. by apply Z.coprime_pow_r. Qed.

Lemma coprime_pow3_pow2 (k n : Z) : 0 ≤ k → 0 ≤ n → Z.gcd (3 ^ k) (2 ^ n) = 1.
Proof.
  intros Hk Hn. rewrite Z.gcd_comm.
  apply Z.coprime_pow_r; [done|]. unfold Z.coprime.
  rewrite Z.gcd_comm. by apply coprime_3_pow2.
Qed.

(** Cancelling a power of three modulo a power of two. *)
Lemma pow2_divide_cancel_pow3 (k n x : Z) :
  0 ≤ k → 0 ≤ n → (2 ^ n | 3 ^ k * x) → (2 ^ n | x).
Proof.
  intros Hk Hn Hd. apply (Z.gauss _ (3 ^ k)); [done|].
  rewrite Z.gcd_comm. by apply coprime_pow3_pow2.
Qed.

Lemma mod_eq_divide (a b m : Z) : 0 < m → a mod m = b mod m ↔ (m | a - b).
Proof.
  intros Hm. rewrite Z.cong_iff_0. apply Z.mod_divide. lia.
Qed.

(** The negative-exponent [pow] really inverts [3^k] modulo [2^n]. *)
Lemma py_pow_mod_inverse (k n : Z) :
  1 ≤ k → 1 ≤ n →
  ∃ inv, py_pow_mod 3 (- k) (2 ^ n) = Ok inv ∧ (2 ^ n | inv * 3 ^ k - 1).
Proof.
  intros Hk Hn. unfold py_pow_mod.
  pose proof (pow2_pos n ltac:(lia)) as Hpos.
  assert (2 ≤ 2 ^ n) as H2.
  { change 2 with (2 ^ 1) at 1. apply Z.pow_le_mono_r; lia. }
  destruct (Z.eqb_spec (2 ^ n) 0); [lia|].
  destruct (Z.ltb_spec (- k) 0); [|lia].
  rewrite coprime_3_pow2 by lia. simpl.
  eexists; split; [reflexivity|].
  rewrite Z.opp_involutive.
  apply mod_eq_divide; [done|].
  rewrite Z.mul_mod_idemp_l by lia.
  rewrite <- Z.pow_mul_l.
  rewrite <- Z.mod_pow_l.
  rewrite Z.invmod_coprime; [|done|by apply coprime_3_pow2; lia].
  by rewrite Z.pow_1_l by lia.
Qed.

Lemma mod_sub_divide (a m : Z) : m ≠ 0 → (m | a mod m - a).
Proof.
  intros Hm. exists (- (a / m)). rewrite (Z.mod_eq a m) by done. ring.
Qed.

Lemma bind_Ok {X Y : Type} (x : X) (k : X → res Y) : (Ok x ≫= k) = k x.
Proof. reflexivity. Qed.

Lemma bind_Raise {X Y : Type} (e : exn) (k : X → res Y) :
  (Raise e ≫= k) = Raise e.
Proof. reflexivity. Qed.

Lemma bind_Ok_inv {X Y : Type} (m : res X) (k : X → res Y) (y : Y) :
  (m ≫= k) = Ok y → ∃ x, m = Ok x ∧ k x = Ok y.
Proof. destruct m as [x|e]; [|done]. intros H. by exists x. Qed.

(** ** The prefix sums and offsets of a pattern *)

Lemma sumZ_app (l1 l2 : list Z) : sumZ (l1 ++ l2) = sumZ l1 + sumZ l2.
Proof. induction l1 as [|x l1 IH]; simpl; [done|]. rewrite IH. lia. Qed.

Lemma K_prefix_0 (q : list Z) : K_prefix q 0 = 0.
Proof. reflexivity. Qed.

Lemma K_prefix_S (q : list Z) (t : nat) (s : Z) :
  q !! t = Some s → K_prefix q (S t) = K_prefix q t + s.
Proof.
  intros Hs. unfold K_prefix. rewrite (take_S_r _ _ _ Hs), sumZ_app.
  simpl. lia.
Qed.

Lemma K_prefix_full (q : list Z) : K_prefix q (length q) = sumZ q.
Proof. unfold K_prefix. by rewrite firstn_all. Qed.

Lemma sumZ_nonneg (l : list Z) : Forall (λ s, 0 ≤ s) l → 0 ≤ sumZ l.
Proof. induction 1; simpl; lia. Qed.

Lemma K_prefix_nonneg (q : list Z) (t : nat) :
  Forall (λ s, 0 < s) q → 0 ≤ K_prefix q t.
Proof.
  intros Hq. apply sumZ_nonneg.
  eapply Forall_impl; [by apply Forall_take|]. simpl. lia.
Qed.

(** ** [solve_residue]: the loop step by step *)

Lemma solve_step_ok (K_t c_t r0 idx s : Z) :
  0 ≤ K_t → 0 ≤ K_t + s → 0 ≤ idx →
  ∃ r, Windows.solve_step (K_t, c_t, r0) idx s
       = Ok (K_t + s, 3 * c_t + 2 ^ K_t, r)
     ∧ 0 ≤ r < 2 ^ (K_t + s + 1)
     ∧ (2 ^ (K_t + s + 1) | 3 ^ (idx + 1) * r + (3 * c_t + 2 ^ K_t) - 2 ^ (K_t + s)).
Proof.
  intros HK HKn Hidx. unfold Windows.solve_step.
  rewrite !py_shl_ok by lia. rewrite !bind_Ok.
  destruct (py_pow_mod_inverse (idx + 1) (K_t + s + 1)) as (inv & -> & Hinv);
    [lia..|].
  rewrite bind_Ok.
  pose proof (pow2_pos (K_t + s + 1) ltac:(lia)) as Hpos.
  set (m := 2 ^ (K_t + s + 1)) in *.
  set (c' := 3 * c_t + 2 ^ K_t).
  set (X := - c' + 2 ^ (K_t + s)).
  eexists; split; [reflexivity|]. split; [by apply Z.mod_pos_bound|].
  set (rhs := X mod m). set (r := (inv * rhs) mod m).
  replace (3 ^ (idx + 1) * r + c' - 2 ^ (K_t + s))
    with (3 ^ (idx + 1) * (r - inv * rhs)
          + ((inv * 3 ^ (idx + 1) - 1) * rhs + (rhs - X)))
    by (unfold X; ring).
  apply Z.divide_add_r; [|apply Z.divide_add_r].
  - apply Z.divide_mul_r, mod_sub_divide. lia.
  - by apply Z.divide_mul_l.
  - apply mod_sub_divide. lia.
Qed.

(** Inverts the leading successful shift [v ← py_shl 1 n; ...] of [H]. *)
Ltac shl_inv H :=
  let v := fresh "v" in
  let Hv := fresh "Hv" in
  apply bind_Ok_inv in H as (v & Hv & H);
  apply py_shl_inv in Hv as [? ->].

Lemma solve_step_inv (K_t c_t r0 idx s K' c' r' : Z) :
  Windows.solve_step (K_t, c_t, r0) idx s = Ok (K', c', r') →
  0 ≤ K_t ∧ 0 ≤ K' ∧ K' = K_t + s ∧ c' = 3 * c_t + 2 ^ K_t
  ∧ 0 ≤ r' < 2 ^ (K' + 1).
Proof.
  unfold Windows.solve_step. intros H.
  shl_inv H. shl_inv H. shl_inv H.
  apply bind_Ok_inv in H as (inv & _ & H). injection H as <- <- <-.
  repeat split; try lia.
  all: apply Z.mod_pos_bound, pow2_pos; lia.
Qed.

(** Running the loop on the rest of a pattern [q] from the state reached
    after its first [length pre] entries. *)
Lemma solve_loop_spec (q : list Z) :
  Forall (λ s, 0 < s) q →
  ∀ rest pre r0, q = pre ++ rest →
    ∃ r, Windows.solve_loop (Z.of_nat (length pre)) rest
           (K_prefix q (length pre), c_prefix q (length pre), r0)
         = Ok (K_prefix q (length q), c_prefix q (length q), r)
       ∧ (rest = [] → r = r0)
       ∧ (rest ≠ [] → 0 ≤ r < 2 ^ (K_prefix q (length q) + 1)
                      ∧ cong_at q r (length q)).
Proof.
  intros Hq rest. induction rest as [|s rest IH]; intros pre r0 Hpre.
  - rewrite app_nil_r in Hpre. subst pre. exists r0. simpl. done.
  - assert (q !! length pre = Some s) as Hs.
    { subst q. by rewrite list_lookup_middle. }
    assert (0 < s) as Hspos.
    { eapply Forall_forall in Hq; [exact Hq|]. subst q. set_solver. }
    pose proof (K_prefix_nonneg q (length pre) Hq) as HK.
    destruct (solve_step_ok (K_prefix q (length pre))
                (c_prefix q (length pre)) r0 (Z.of_nat (length pre)) s)
      as (r1 & Hstep & Hr1 & Hc1); [lia..|].
    rewrite <- (K_prefix_S q _ _ Hs) in Hstep, Hr1, Hc1.
    change (3 * c_prefix q (length pre) + 2 ^ K_prefix q (length pre))
      with (c_prefix q (S (length pre))) in Hstep, Hc1.
    destruct (IH (pre ++ [s]) r1) as (r & Hloop & Hnil & Hcons).
    { by rewrite <- app_assoc. }
    rewrite length_app in Hloop. simpl in Hloop.
    replace (length pre + 1)%nat with (S (length pre)) in Hloop by lia.
    exists r. split; [|split; [done|]].
    + cbn [Windows.solve_loop]. rewrite Hstep, bind_Ok.
      replace (Z.of_nat (length pre) + 1) with (Z.of_nat (S (length pre)))
        by lia.
      exact Hloop.
    + intros _. destruct rest as [|s' rest'].
      * rewrite (Hnil eq_refl).
        assert (length q = S (length pre)) as ->.
        { subst q. rewrite length_app. simpl. lia. }
        split; [done|]. unfold cong_at.
        replace (Z.of_nat (S (length pre))) with (Z.of_nat (length pre) + 1)
          by lia.
        exact Hc1.
      * by apply Hcons.
Qed.

(** A solution of the congruence of length [t + 1] solves the one of
    length [t], as soon as the valuation of step [t + 1] is positive. *)
Lemma cong_at_down (q : list Z) (r : Z) (t : nat) :
  0 ≤ K_prefix q t → K_prefix q t < K_prefix q (S t) →
  cong_at q r (S t) → cong_at q r t.
Proof.
  unfold cong_at. cbn [c_prefix].
  set (a := K_prefix q t). set (b := K_prefix q (S t)). intros Ha Hab Hc.
  apply (pow2_divide_cancel_pow3 1); [lia..|].
  replace (3 ^ 1 * (3 ^ Z.of_nat t * r + c_prefix q t - 2 ^ a))
    with ((3 ^ Z.of_nat (S t) * r + (3 * c_prefix q t + 2 ^ a) - 2 ^ b)
          + (2 ^ b - 2 * 2 ^ (a + 1))).
  - apply Z.divide_add_r.
    + eapply Z.divide_trans; [|exact Hc]. apply pow2_divide. lia.
    + apply Z.divide_sub_r; [apply pow2_divide; lia|].
      by apply Z.divide_mul_r.
  - rewrite Nat2Z.inj_succ, Z.pow_succ_r, Z.pow_add_r by lia. ring.
Qed.

Lemma cong_at_all (q : list Z) (r : Z) :
  Forall (λ s, 0 < s) q →
  cong_at q r (length q) → ∀ t, (t ≤ length q)%nat → cong_at q r t.
Proof.
  intros Hq Hlast t Ht.
  replace t with (length q - (length q - t))%nat by lia.
  generalize (length q - t)%nat as d. intros d.
  induction d as [|d IH]; [by rewrite Nat.sub_0_r|].
  destruct (decide (length q - d = 0)%nat) as [Hz|Hnz].
  { replace (length q - S d)%nat with (length q - d)%nat by lia. done. }
  destruct (lookup_lt_is_Some_2 q (length q - S d)) as [s Hs]; [lia|].
  apply cong_at_down.
  - by apply K_prefix_nonneg.
  - rewrite (K_prefix_S _ _ _ Hs).
    assert (0 < s); [|lia].
    eapply Forall_forall in Hq; [exact Hq|].
    by eapply list_elem_of_lookup_2.
  - by replace (S (length q - S d)) with (length q - d)%nat by lia.
Qed.

Lemma cong_at_odd (q : list Z) (r : Z) : cong_at q r 0 → r mod 2 = 1.
Proof.
  unfold cong_at. simpl. rewrite K_prefix_0. simpl.
  intros [z Hz]. replace r with (1 + z * 2) by lia.
  by rewrite Z.mod_add.
Qed.

Lemma prefix_congruence_cong_at (q : list Z) (r : Z) (t : nat) :
  0 ≤ K_prefix q (S t) →
  prefix_congruence q r (S t) ↔ cong_at q r (S t).
Proof.
  intros HK. unfold prefix_congruence, cong_at.
  replace (S t - 1)%nat with t by lia. cbn [c_prefix].
  rewrite mod_eq_divide by (apply pow2_pos; lia).
  by rewrite <- Z.add_assoc.
Qed.

(** Two residues in range solving the same last congruence are equal. *)
Lemma cong_at_unique (q : list Z) (r r' : Z) (t : nat) :
  0 ≤ K_prefix q t →
  0 ≤ r < 2 ^ (K_prefix q t + 1) → 0 ≤ r' < 2 ^ (K_prefix q t + 1) →
  cong_at q r t → cong_at q r' t → r' = r.
Proof.
  unfold cong_at. intros HK Hr Hr' H1 H2.
  assert (2 ^ (K_prefix q t + 1) | r' - r) as [z Hz].
  { apply (pow2_divide_cancel_pow3 (Z.of_nat t)); [lia..|].
    replace (3 ^ Z.of_nat t * (r' - r))
      with ((3 ^ Z.of_nat t * r' + c_prefix q t - 2 ^ K_prefix q t)
            - (3 ^ Z.of_nat t * r + c_prefix q t - 2 ^ K_prefix q t)) by ring.
    by apply Z.divide_sub_r. }
  assert (z = 0) as -> by nia. lia.
Qed.

(** On a non-empty pattern of positive valuations the solver succeeds, and
    its residue solves every prefix congruence. *)
Lemma solve_residue_positive (pattern : list Z) :
  pattern ≠ [] → Forall (λ s, 0 < s) pattern →
  ∃ r, Windows.solve_residue pattern = Ok (r, sumZ pattern)
     ∧ 0 ≤ r < 2 ^ (sumZ pattern + 1)
     ∧ ∀ t, (t ≤ length pattern)%nat → cong_at pattern r t.
Proof.
  intros Hne Hpos.
  destruct (solve_loop_spec pattern Hpos pattern [] 0 eq_refl)
    as (r & Hloop & _ & Hlast).
  destruct (Hlast Hne) as [Hr Hc].
  change (Windows.solve_loop 0 pattern (0, 0, 0)
          = Ok (K_prefix pattern (length pattern),
                c_prefix pattern (length pattern), r)) in Hloop.
  rewrite K_prefix_full in Hloop, Hr.
  exists r. unfold Windows.solve_residue. rewrite Hloop, bind_Ok.
  split; [done|]. split; [done|]. by apply cong_at_all.
Qed.

(** C1: on every non-empty pattern of positive integers [solve_residue]
    returns [(r, K)] with [K] the sum of the pattern and
    [0 <= r < 2^(K+1)]; [r] satisfies the congruence
    [3^t r + 3 c_{t-1} + 2^(K_{t-1}) = 2^(K_t) (mod 2^(K_t + 1))] of every
    prefix length [t] in [1..j], and it is the only residue modulo
    [2^(K+1)] that satisfies all of them. *)
Theorem solve_residue_correct (pattern : list Z) :
  pattern ≠ [] → Forall (λ s, 0 < s) pattern →
  ∃ r K, Windows.solve_residue pattern = Ok (r, K)
    ∧ K = sumZ pattern
    ∧ 0 ≤ r < 2 ^ (K + 1)
    ∧ (∀ t, (1 ≤ t ≤ length pattern)%nat → prefix_congruence pattern r t)
    ∧ (∀ r', 0 ≤ r' < 2 ^ (K + 1) →
         (∀ t, (1 ≤ t ≤ length pattern)%nat →
               prefix_congruence pattern r' t) →
         r' = r).
Proof.
  intros Hne Hpos.
  destruct (solve_residue_positive pattern Hne Hpos) as (r & Hs & Hr & Hc).
  exists r, (sumZ pattern). split; [done|]. split; [done|]. split; [done|].
  assert (∀ t, 0 ≤ K_prefix pattern t) as HK
    by (intros; by apply K_prefix_nonneg).
  split.
  - intros [|t] Ht; [lia|].
    apply prefix_congruence_cong_at; [done|]. apply Hc. lia.
  - intros r' Hr' Hall.
    destruct pattern as [|s0 rest] eqn:Hp; [done|]. rewrite <- Hp in *.
    assert (length pattern = S (length rest)) as Hlen by (by subst).
    rewrite <- K_prefix_full in Hr, Hr'.
    apply (cong_at_unique pattern r r' (length pattern)); try done.
    + by apply Hc.
    + rewrite Hlen. apply prefix_congruence_cong_at; [done|].
      apply Hall. lia.
Qed.

Lemma solve_residue_correct_witness :
  ∃ r K, Windows.solve_residue [2; 1; 3] = Ok (r, K)
    ∧ K = sumZ [2; 1; 3]
    ∧ 0 ≤ r < 2 ^ (K + 1)
    ∧ (∀ t, (1 ≤ t ≤ length [2; 1; 3])%nat →
            prefix_congruence [2; 1; 3] r t)
    ∧ (∀ r', 0 ≤ r' < 2 ^ (K + 1) →
         (∀ t, (1 ≤ t ≤ length [2; 1; 3])%nat →
               prefix_congruence [2; 1; 3] r' t) →
         r' = r).
Proof.
  apply (solve_residue_correct [2; 1; 3]).
  - discriminate.
  - repeat constructor.
Defined.

(** ** [enumerate_patterns] *)

Section enumerate.
Variable max_part : Z.

Lemma bounded_parts_sum (q : list Z) :
  Forall (part_ok max_part) q →
  Z.of_nat (length q) ≤ sumZ q ≤ max_part * Z.of_nat (length q).
Proof.
  unfold part_ok. induction 1 as [|s q Hs _ IH]; simpl; [lia|].
  rewrite Nat2Z.inj_succ. nia.
Qed.

(** What [backtrack] yields with [S n] slots left: [prefix] extended by
    each composition of [remaining] into [S n] bounded parts. *)
Lemma elem_of_backtrack (n : nat) :
  ∀ prefix remaining p,
    p ∈ Windows.backtrack max_part (S n) prefix remaining
    ↔ ∃ q, p = prefix ++ q ∧ length q = S n ∧ sumZ q = remaining
           ∧ Forall (part_ok max_part) q.
Proof.
  induction n as [|n IH]; intros prefix remaining p.
  - cbn [Windows.backtrack]. unfold part_ok. split.
    + destruct (Z.leb_spec 1 remaining), (Z.leb_spec remaining max_part);
        simpl; try (by intros ?%elem_of_nil).
      intros ->%list_elem_of_singleton. exists [remaining].
      repeat split; simpl; [lia|]. repeat constructor; lia.
    + intros (q & -> & Hlen & Hsum & Hall).
      destruct q as [|s [|??]]; simplify_eq/=.
      apply Forall_cons in Hall as [? _].
      rewrite Z.add_0_r.
      destruct (Z.leb_spec 1 s), (Z.leb_spec s max_part); try lia.
      simpl. by apply list_elem_of_singleton.
  - change (Windows.backtrack max_part (S (S n)) prefix remaining)
      with (part ← py_range
              (Z.max 1 (remaining - max_part * (Z.of_nat (S (S n)) - 1)))
              (Z.min max_part (remaining - (Z.of_nat (S (S n)) - 1)) + 1);
            Windows.backtrack max_part (S n) (prefix ++ [part])
              (remaining - part)).
    rewrite list_elem_of_bind. unfold py_range. split.
    + intros (part & Hp & Hpart). apply elem_of_seqZ in Hpart.
      apply IH in Hp as (q & -> & Hlen & Hsum & Hall).
      exists (part :: q). rewrite <- app_assoc. simpl.
      repeat split; [by rewrite Hlen|lia|].
      constructor; [unfold part_ok; lia|done].
    + intros (q & -> & Hlen & Hsum & Hall).
      destruct q as [|part q]; [done|].
      apply Forall_cons in Hall as [Hpart Hall].
      pose proof (bounded_parts_sum q Hall) as Hb.
      injection Hlen as Hlen. rewrite Hlen in Hb. simpl in Hsum.
      unfold part_ok in Hpart.
      exists part. split.
      * apply IH. exists q. rewrite <- app_assoc.
        repeat split; [done|lia|done].
      * apply elem_of_seqZ. lia.
Qed.

Lemma NoDup_backtrack (n : nat) :
  ∀ prefix remaining,
    NoDup (Windows.backtrack max_part n prefix remaining).
Proof.
  induction n as [|n IH]; intros prefix remaining; [constructor|].
  destruct n as [|n].
  - cbn [Windows.backtrack].
    destruct (_ && _); [apply NoDup_singleton|constructor].
  - change (Windows.backtrack max_part (S (S n)) prefix remaining)
      with (part ← py_range
              (Z.max 1 (remaining - max_part * (Z.of_nat (S (S n)) - 1)))
              (Z.min max_part (remaining - (Z.of_nat (S (S n)) - 1)) + 1);
            Windows.backtrack max_part (S n) (prefix ++ [part])
              (remaining - part)).
    apply NoDup_bind; [|intros; apply IH|apply NoDup_seqZ].
    intros x1 x2 y _ _ H1 H2.
    apply elem_of_backtrack in H1 as (q1 & -> & _).
    apply elem_of_backtrack in H2 as (q2 & Heq & _).
    rewrite <- !app_assoc in Heq. apply app_inv_head in Heq.
    by injection Heq.
Qed.

Lemma elem_of_enumerate_patterns (length total : Z) (p : list Z) :
  1 ≤ length →
  p ∈ Windows.enumerate_patterns length total max_part
  ↔ is_composition length total max_part p.
Proof.
  intros Hlen. unfold is_composition.
  assert (p ∈ Windows.backtrack max_part (Z.to_nat length) [] total
          ↔ Z.of_nat (List.length p) = length ∧ sumZ p = total
            ∧ Forall (part_ok max_part) p) as Hbt.
  { destruct (Z.to_nat length) as [|n] eqn:Hn; [lia|].
    rewrite elem_of_backtrack. split.
    - intros (q & -> & Hq & ? & ?). simpl. split; [lia|done].
    - intros (Hl & ? & ?). exists p. repeat split; try done. lia. }
  unfold Windows.enumerate_patterns.
  destruct (Z.eqb_spec length 1) as [->|Hne]; [|exact Hbt].
  etrans; [|exact Hbt]. reflexivity.
Qed.

Lemma NoDup_enumerate_patterns (length total : Z) :
  NoDup (Windows.enumerate_patterns length total max_part).
Proof.
  unfold Windows.enumerate_patterns.
  destruct (Z.eqb_spec length 1); [|apply NoDup_backtrack].
  destruct (_ && _); [apply NoDup_singleton|constructor].
Qed.

End enumerate.

(** C8: for a pattern length of at least 1, [enumerate_patterns] yields
    exactly the compositions of the total into that many positive parts,
    each at most the bound: every one of them, once, and nothing else. *)
Theorem enumerate_patterns_exact (length total max_part : Z) :
  1 ≤ length →
  (∀ p, p ∈ Windows.enumerate_patterns length total max_part
        ↔ is_composition length total max_part p)
  ∧ NoDup (Windows.enumerate_patterns length total max_part).
Proof.
  intros Hlen. split.
  - intros p. by apply elem_of_enumerate_patterns.
  - apply NoDup_enumerate_patterns.
Qed.

Lemma enumerate_patterns_exact_witness :
  (∀ p, p ∈ Windows.enumerate_patterns 3 5 2 ↔ is_composition 3 5 2 p)
  ∧ NoDup (Windows.enumerate_patterns 3 5 2).
Proof. apply (enumerate_patterns_exact 3 5 2). lia. Defined.

Example enumerate_patterns_3_5_2 :
  Windows.enumerate_patterns 3 5 2 = [[1; 2; 2]; [2; 1; 2]; [2; 2; 1]].
Proof. reflexivity. Qed.

(** ** Exact rationals *)

Lemma this_div (a b : Z) :
  (this (Qc_of_Z a / Qc_of_Z b)%Qc == inject_Z a / inject_Z b)%Q.
Proof.
  unfold Qcdiv, Qcmult, Qcinv, Qc_of_Z. simpl.
  rewrite !Qred_correct. reflexivity.
Qed.

Lemma inject_Z_pos (b : Z) : 0 < b → (0 < inject_Z b)%Q.
Proof. intros Hb. rewrite (Zlt_Qlt 0 b) in Hb. exact Hb. Qed.

Lemma Qc_div_lt_1 (a b : Z) :
  0 < b → (Qc_of_Z a / Qc_of_Z b < 1)%Qc ↔ a < b.
Proof.
  intros Hb. unfold Qclt. rewrite this_div. simpl (this 1%Qc).
  pose proof (inject_Z_pos b Hb) as Hb'.
  rewrite Zlt_Qlt. split.
  - intros H.
    apply (Qmult_lt_compat_r _ _ _ Hb') in H.
    rewrite Qmult_1_l in H. unfold Qdiv in H.
    rewrite <- Qmult_assoc, (Qmult_comm (/ _)), Qmult_inv_r, Qmult_1_r in H;
      [done|].
    intros E. rewrite E in Hb'. by apply Qlt_irrefl in Hb'.
  - intros H. apply Qlt_shift_div_r; [done|]. by rewrite Qmult_1_l.
Qed.

Lemma Qc_div_pos (a b : Z) :
  0 < a → 0 < b → (0 < Qc_of_Z a / Qc_of_Z b)%Qc.
Proof.
  intros Ha Hb. unfold Qclt. rewrite this_div. simpl (this 0%Qc).
  apply Qlt_shift_div_l; [by apply inject_Z_pos|].
  rewrite Qmult_0_l. by apply inject_Z_pos.
Qed.

Lemma Qc_ltb_lt (x y : Qc) : Qc_ltb x y = true ↔ (x < y)%Qc.
Proof.
  rewrite Qclt_alt. unfold Qc_ltb. destruct (x ?= y)%Qc; split; done.
Qed.

Lemma Qc_leb_le (x y : Qc) : Qc_leb x y = true ↔ (x <= y)%Qc.
Proof.
  unfold Qc_leb. rewrite negb_true_iff, <- not_true_iff_false, Qc_ltb_lt.
  split; [apply Qcnot_lt_le|apply Qcle_not_lt].
Qed.

Lemma Qc_eqb_eq (x y : Qc) : Qc_eqb x y = true ↔ x = y.
Proof. unfold Qc_eqb. destruct (Qc_eq_dec x y); split; done. Qed.

Lemma Qc_one_minus_nonzero (x : Qc) : (x < 1)%Qc → (1 - x)%Qc ≠ 0%Qc.
Proof.
  intros H E. assert (x = 1%Qc) as ->.
  { rewrite <- (Qcplus_0_l x), <- E. ring. }
  by eapply Qclt_not_eq in H.
Qed.

Lemma Fraction_pos (n d : Z) :
  0 < d → Fraction n d = Ok (Qc_of_Z n / Qc_of_Z d)%Qc.
Proof. intros Hd. unfold Fraction. destruct (Z.eqb_spec d 0); [lia|done]. Qed.

Lemma Fraction_div_ok (x y : Qc) :
  y ≠ 0%Qc → Fraction_div x y = Ok (x / y)%Qc.
Proof. intros Hy. unfold Fraction_div. by destruct (Qc_eq_dec y 0%Qc). Qed.

(** ** [record_from_pattern] *)

Lemma solve_loop_inv (rest : list Z) :
  ∀ idx K0 c0 r0 K' c' r',
    Windows.solve_loop idx rest (K0, c0, r0) = Ok (K', c', r') →
    K' = K0 + sumZ rest
    ∧ (rest ≠ [] → 0 ≤ K' ∧ 0 ≤ r' < 2 ^ (K' + 1)).
Proof.
  induction rest as [|s rest IH]; intros idx K0 c0 r0 K' c' r' H.
  - injection H as <- <- <-. simpl. split; [lia|done].
  - cbn [Windows.solve_loop] in H.
    apply bind_Ok_inv in H as ([[K1 c1] r1] & Hstep & H).
    apply solve_step_inv in Hstep as (? & ? & -> & -> & ?).
    destruct (IH _ _ _ _ _ _ _ H) as [-> Hrest]. simpl.
    split; [lia|]. intros _. destruct rest as [|s' rest'].
    + injection H as _ <- <-. simpl. rewrite Z.add_0_r. split; [lia|done].
    + by apply Hrest.
Qed.

Lemma solve_residue_inv (pattern : list Z) (r K : Z) :
  Windows.solve_residue pattern = Ok (r, K) →
  K = sumZ pattern
  ∧ (pattern ≠ [] → 0 ≤ K ∧ 0 ≤ r < 2 ^ (K + 1)).
Proof.
  unfold Windows.solve_residue. intros H.
  apply bind_Ok_inv in H as ([[K' c'] r'] & Hloop & H).
  injection H as <- <-.
  apply solve_loop_inv in Hloop as [-> ?]. done.
Qed.

Lemma offset_loop_spec (q : list Z) :
  ∀ rest pre c K, q = pre ++ rest →
    Windows.offset_loop rest
      (c_prefix q (length pre), K_prefix q (length pre)) = Ok (c, K) →
    c = c_prefix q (length q) ∧ K = K_prefix q (length q).
Proof.
  intros rest. induction rest as [|s rest IH]; intros pre c K Hpre H.
  - rewrite app_nil_r in Hpre. subst pre. by injection H as <- <-.
  - assert (q !! length pre = Some s) as Hs.
    { subst q. by rewrite list_lookup_middle. }
    cbn [Windows.offset_loop] in H. shl_inv H.
    rewrite <- (K_prefix_S q _ _ Hs) in H.
    change (3 * c_prefix q (length pre) + 2 ^ K_prefix q (length pre))
      with (c_prefix q (S (length pre))) in H.
    apply (IH (pre ++ [s])).
    + by rewrite <- app_assoc.
    + rewrite length_app. simpl.
      by replace (length pre + 1)%nat with (S (length pre)) by lia.
Qed.

Lemma record_from_pattern_inv (pattern : list Z) (rec : Windows.WindowRecord) :
  Windows.record_from_pattern pattern = Ok (Some rec) →
  ∃ r, Windows.solve_residue pattern = Ok (r, sumZ pattern)
     ∧ pattern ≠ []
     ∧ 0 ≤ sumZ pattern
     ∧ 3 ^ Z.of_nat (length pattern) < 2 ^ sumZ pattern
     ∧ 0 ≤ r < 2 ^ (sumZ pattern + 1)
     ∧ rec = base_record pattern r.
Proof.
  unfold Windows.record_from_pattern. intros H.
  apply bind_Ok_inv in H as ([r K] & Hsolve & H).
  destruct (solve_residue_inv _ _ _ Hsolve) as [-> Hrange].
  shl_inv H. rename H0 into HK.
  destruct (3 ^ Z.of_nat (length pattern) >=? 2 ^ sumZ pattern) eqn:Hge;
    [done|].
  rewrite Z.geb_leb, Z.leb_gt in Hge.
  pose proof (pow2_pos _ HK) as Hpos.
  apply bind_Ok_inv in H as ([c K'] & Hoff & H).
  apply (offset_loop_spec pattern pattern []) in Hoff as [-> _]; [|done].
  rewrite !Fraction_pos, !bind_Ok in H by done.
  rewrite Fraction_div_ok, bind_Ok in H
    by (by apply Qc_one_minus_nonzero, Qc_div_lt_1).
  injection H as <-.
  assert (pattern ≠ []) as Hne by (intros ->; simpl in Hge; lia).
  exists r. repeat split; try done; by apply Hrange.
Qed.

Lemma record_from_pattern_rejects (pattern : list Z) :
  Forall (λ s, 0 < s) pattern →
  2 ^ sumZ pattern ≤ 3 ^ Z.of_nat (length pattern) →
  Windows.record_from_pattern pattern = Ok None.
Proof.
  intros Hpos Hge.
  assert (∃ r, Windows.solve_residue pattern = Ok (r, sumZ pattern))
    as [r Hr].
  { destruct pattern as [|s p]; [by exists 0|].
    destruct (solve_residue_positive (s :: p)) as (r & ? & _); [done..|].
    by exists r. }
  unfold Windows.record_from_pattern. rewrite Hr, bind_Ok.
  rewrite py_shl_ok, bind_Ok
    by (apply sumZ_nonneg; eapply Forall_impl; [done|]; simpl; lia).
  rewrite Z.geb_leb. by destruct (Z.leb_spec (2 ^ sumZ pattern)
                                    (3 ^ Z.of_nat (length pattern))); [|lia].
Qed.

Lemma offset_loop_ok (q : list Z) :
  Forall (λ s, 0 < s) q →
  ∀ rest pre, q = pre ++ rest →
    Windows.offset_loop rest
      (c_prefix q (length pre), K_prefix q (length pre))
    = Ok (c_prefix q (length q), K_prefix q (length q)).
Proof.
  intros Hq rest. induction rest as [|s rest IH]; intros pre Hpre.
  - rewrite app_nil_r in Hpre. by subst pre.
  - assert (q !! length pre = Some s) as Hs.
    { subst q. by rewrite list_lookup_middle. }
    cbn [Windows.offset_loop].
    rewrite py_shl_ok, bind_Ok by (by apply K_prefix_nonneg).
    rewrite <- (K_prefix_S q _ _ Hs).
    change (3 * c_prefix q (length pre) + 2 ^ K_prefix q (length pre))
      with (c_prefix q (S (length pre))).
    specialize (IH (pre ++ [s])). rewrite <- app_assoc in IH.
    specialize (IH Hpre). rewrite length_app in IH. simpl in IH.
    by replace (length pre + 1)%nat with (S (length pre)) in IH by lia.
Qed.

(** A pattern of positive valuations with [3^j < 2^K] does get its record. *)
Lemma record_from_pattern_accepts (pattern : list Z) :
  Forall (λ s, 0 < s) pattern →
  3 ^ Z.of_nat (length pattern) < 2 ^ sumZ pattern →
  ∃ r, Windows.solve_residue pattern = Ok (r, sumZ pattern)
     ∧ Windows.record_from_pattern pattern
       = Ok (Some (base_record pattern r)).
Proof.
  intros Hpos Hlt.
  assert (pattern ≠ []) as Hne by (intros ->; simpl in Hlt; lia).
  destruct (solve_residue_positive pattern Hne Hpos) as (r & Hr & _).
  exists r. split; [done|].
  assert (0 ≤ sumZ pattern) as HK.
  { apply sumZ_nonneg. eapply Forall_impl; [done|]. simpl. lia. }
  pose proof (pow2_pos _ HK) as Hpow.
  unfold Windows.record_from_pattern.
  rewrite Hr, bind_Ok, py_shl_ok, bind_Ok by done.
  rewrite Z.geb_leb.
  destruct (Z.leb_spec (2 ^ sumZ pattern) (3 ^ Z.of_nat (length pattern)));
    [lia|].
  pose proof (offset_loop_ok pattern Hpos pattern [] eq_refl) as Hoff.
  change (Windows.offset_loop pattern (0, 0)
          = Ok (c_prefix pattern (length pattern),
                K_prefix pattern (length pattern))) in Hoff.
  rewrite Hoff, bind_Ok.
  rewrite !Fraction_pos, !bind_Ok by done.
  rewrite Fraction_div_ok, bind_Ok
    by (by apply Qc_one_minus_nonzero, Qc_div_lt_1).
  done.
Qed.

(** ** [project_residues] *)

Lemma pow2_lt_inv (b c : Z) : 0 ≤ c → 2 ^ b < 2 ^ c → b < c.
Proof. intros Hc H. apply (Z.pow_lt_mono_r_iff 2); [lia|done|done]. Qed.

Lemma pow2_le_inv (b c : Z) : 0 ≤ c → 2 ^ b ≤ 2 ^ c → b ≤ c.
Proof. intros Hc H. apply (Z.pow_le_mono_r_iff 2); [lia|done|done]. Qed.


Lemma project_residues_small (record : Windows.WindowRecord) (mp : Z) :
  0 ≤ mp ≤ Windows.K record + 1 →
  Windows.project_residues record mp
  = Ok [Windows.with_residue record (Windows.residue record mod 2 ^ mp)].
Proof.
  intros H. unfold Windows.project_residues.
  rewrite (py_shl_ok mp), bind_Ok by lia.
  rewrite (py_shl_ok (Windows.K record + 1)), bind_Ok by lia.
  rewrite Z.geb_leb.
  destruct (Z.leb_spec (2 ^ mp) (2 ^ (Windows.K record + 1))) as [|Hlt];
    [done|].
  apply pow2_lt_inv in Hlt; lia.
Qed.

Lemma project_residues_large (record : Windows.WindowRecord) (mp : Z) :
  0 ≤ Windows.K record + 1 < mp →
  Windows.project_residues record mp
  = Ok (offset ← py_range 0 (2 ^ (mp - (Windows.K record + 1)));
        let candidate :=
          Windows.residue record + offset * 2 ^ (Windows.K record + 1) in
        if candidate mod 2 =? 1
        then [Windows.with_residue record (candidate mod 2 ^ mp)]
        else []).
Proof.
  intros H. unfold Windows.project_residues.
  rewrite !py_shl_ok, !bind_Ok by lia.
  rewrite Z.geb_leb.
  destruct (Z.leb_spec (2 ^ mp) (2 ^ (Windows.K record + 1))) as [Hle|];
    [|done].
  apply pow2_le_inv in Hle; lia.
Qed.

(** Every projected copy differs from the record in [residue] only. *)
Lemma project_residues_fields (record : Windows.WindowRecord) (mp : Z)
    (projected : list Windows.WindowRecord) :
  Windows.project_residues record mp = Ok projected →
  ∀ rec, rec ∈ projected →
    rec = Windows.with_residue record (Windows.residue rec).
Proof.
  unfold Windows.project_residues. intros H rec Hrec.
  apply bind_Ok_inv in H as (m & _ & H).
  apply bind_Ok_inv in H as (w & _ & H).
  destruct (w >=? m).
  - injection H as <-. by apply list_elem_of_singleton in Hrec as ->.
  - apply bind_Ok_inv in H as (copies & _ & H). injection H as <-.
    apply list_elem_of_bind in Hrec as (o & Hrec & _).
    destruct (_ =? 1); [|by apply elem_of_nil in Hrec].
    by apply list_elem_of_singleton in Hrec as ->.
Qed.

(** Projection keeps the parity of the residue when the projection
    modulus is even. *)
Lemma project_residues_odd (record : Windows.WindowRecord) (mp : Z)
    (projected : list Windows.WindowRecord) :
  1 ≤ mp → Windows.residue record mod 2 = 1 →
  Windows.project_residues record mp = Ok projected →
  ∀ rec, rec ∈ projected → Windows.residue rec mod 2 = 1.
Proof.
  unfold Windows.project_residues. intros Hmp Hodd H rec Hrec.
  assert (∀ a, (a mod 2 ^ mp) mod 2 = a mod 2) as Hpar.
  { intros a. apply Z.mod_mod_divide.
    change 2 with (2 ^ 1) at 1. apply pow2_divide. lia. }
  apply bind_Ok_inv in H as (m & Hm & H). apply py_shl_inv in Hm as [_ ->].
  apply bind_Ok_inv in H as (w & _ & H).
  destruct (w >=? 2 ^ mp).
  - injection H as <-. apply list_elem_of_singleton in Hrec as ->.
    simpl. by rewrite Hpar.
  - apply bind_Ok_inv in H as (copies & _ & H). injection H as <-.
    apply list_elem_of_bind in Hrec as (o & Hrec & _).
    destruct (Z.eqb_spec ((Windows.residue record + o * w) mod 2) 1)
      as [Ho|]; [|by apply elem_of_nil in Hrec].
    apply list_elem_of_singleton in Hrec as ->. simpl. by rewrite Hpar.
Qed.




(** ** [generate_windows] *)

Lemma elem_of_insert_by_residue (x y : Windows.WindowRecord)
    (l : list Windows.WindowRecord) :
  y ∈ Windows.insert_by_residue x l ↔ y = x ∨ y ∈ l.
Proof.
  induction l as [|z l IH]; simpl.
  - rewrite list_elem_of_singleton, elem_of_nil. tauto.
  - destruct (_ <=? _); rewrite !elem_of_cons; [tauto|].
    rewrite IH. tauto.
Qed.

Lemma elem_of_sort_by_residue (y : Windows.WindowRecord)
    (l : list Windows.WindowRecord) :
  y ∈ Windows.sort_by_residue l ↔ y ∈ l.
Proof.
  induction l as [|x l IH]; simpl; [done|].
  rewrite elem_of_insert_by_residue, IH, elem_of_cons. done.
Qed.

(** Every record appended by the loop is a projected copy of the base
    record of a visited pattern. *)
Lemma extend_records_inv (mp : Z) (patterns : list (list Z)) :
  ∀ acc out, Windows.extend_records mp patterns acc = Ok out →
  ∀ rec, rec ∈ out →
    rec ∈ acc
    ∨ ∃ pattern base projected,
        pattern ∈ patterns
        ∧ Windows.record_from_pattern pattern = Ok (Some base)
        ∧ Windows.project_residues base mp = Ok projected
        ∧ rec ∈ projected.
Proof.
  induction patterns as [|p patterns IH]; intros acc out H rec Hrec.
  - injection H as <-. by left.
  - cbn [Windows.extend_records] in H.
    apply bind_Ok_inv in H as ([base|] & Hbase & H).
    + apply bind_Ok_inv in H as (projected & Hproj & H).
      destruct (IH _ _ H rec Hrec) as [Hacc|(p' & b' & pr' & ? & ? & ? & ?)].
      * apply elem_of_app in Hacc as [?|?]; [by left|].
        right. exists p, base, projected. set_solver.
      * right. exists p', b', pr'. set_solver.
    + destruct (IH _ _ H rec Hrec) as [?|(p' & b' & pr' & ? & ? & ? & ?)];
        [by left|].
      right. exists p', b', pr'. set_solver.
Qed.

(** The visited patterns are non-empty and made of positive valuations. *)
Lemma visited_patterns_positive (k_min_of : Z → Z)
    (config : Config.CertificateConfig) (p : list Z) :
  p ∈ Windows.visited_patterns k_min_of config →
  p ≠ [] ∧ Forall (λ s, 0 < s) p.
Proof.
  unfold Windows.visited_patterns. intros Hp.
  apply list_elem_of_bind in Hp as (j & Hp & Hj).
  apply list_elem_of_bind in Hp as (K & Hp & _).
  apply elem_of_seqZ in Hj.
  apply elem_of_enumerate_patterns in Hp as (Hlen & _ & Hall); [|lia].
  split.
  - intros ->. simpl in Hlen. lia.
  - eapply Forall_impl; [exact Hall|]. unfold part_ok. simpl. lia.
Qed.

Lemma generate_windows_inv (k_min_of : Z → Z)
    (config : Config.CertificateConfig)
    (records : list Windows.WindowRecord) :
  Windows.generate_windows k_min_of config = Ok records →
  1 ≤ Config.modulus_power config
  ∧ ∀ rec, rec ∈ records →
      ∃ pattern base projected,
        pattern ∈ Windows.visited_patterns k_min_of config
        ∧ Windows.record_from_pattern pattern = Ok (Some base)
        ∧ Windows.project_residues base (Config.modulus_power config)
          = Ok projected
        ∧ rec ∈ projected.
Proof.
  unfold Windows.generate_windows. intros H.
  apply bind_Ok_inv in H as (recs & Hext & H).
  apply bind_Ok_inv in H as (m & Hm & H).
  apply py_shl_inv in Hm as [Hmp ->].
  destruct (Z.eqb_spec (2 ^ Config.modulus_power config / 2) 0) as [|Hz];
    [done|].
  injection H as <-. split.
  - destruct (decide (Config.modulus_power config = 0)) as [E|]; [|lia].
    rewrite E in Hz. done.
  - intros rec Hrec. rewrite elem_of_sort_by_residue in Hrec.
    destruct (extend_records_inv _ _ _ _ Hext rec Hrec) as [Hnil|?]; [|done].
    by apply elem_of_nil in Hnil.
Qed.

Lemma project_residues_total (record : Windows.WindowRecord) (mp : Z) :
  0 ≤ mp → 0 ≤ Windows.K record →
  ∃ projected, Windows.project_residues record mp = Ok projected.
Proof.
  intros Hmp HK. destruct (Z.le_gt_cases mp (Windows.K record + 1)).
  - eexists. apply project_residues_small. lia.
  - eexists. apply project_residues_large. lia.
Qed.

Lemma extend_records_total (mp : Z) (patterns : list (list Z)) :
  0 ≤ mp → Forall (Forall (λ s, 0 < s)) patterns →
  ∀ acc, ∃ out, Windows.extend_records mp patterns acc = Ok out.
Proof.
  intros Hmp Hall. induction Hall as [|p patterns Hp _ IH]; intros acc.
  - by eexists.
  - cbn [Windows.extend_records].
    destruct (Z.le_gt_cases (2 ^ sumZ p) (3 ^ Z.of_nat (length p))) as [Hge|Hlt].
    + rewrite (record_from_pattern_rejects p Hp Hge), bind_Ok. apply IH.
    + destruct (record_from_pattern_accepts p Hp Hlt) as (r & _ & ->).
      rewrite bind_Ok.
      destruct (project_residues_total (base_record p r) mp Hmp)
        as [projected ->].
      { simpl. apply sumZ_nonneg. eapply Forall_impl; [done|]. simpl. lia. }
      rewrite bind_Ok. apply IH.
Qed.

(** With a projection modulus of at least 2 the generator does not raise. *)
Lemma generate_windows_total (k_min_of : Z → Z)
    (config : Config.CertificateConfig) :
  1 ≤ Config.modulus_power config →
  ∃ records, Windows.generate_windows k_min_of config = Ok records.
Proof.
  intros Hmp. unfold Windows.generate_windows.
  assert (Forall (Forall (λ s, 0 < s))
            (Windows.visited_patterns k_min_of config)) as Hall.
  { apply Forall_forall. intros p Hp.
    by apply visited_patterns_positive in Hp as [_ ?]. }
  destruct (extend_records_total (Config.modulus_power config) _
              ltac:(lia) Hall []) as [recs ->].
  rewrite bind_Ok. unfold Config.modulus.
  rewrite py_shl_ok, bind_Ok by lia.
  destruct (Z.eqb_spec (2 ^ Config.modulus_power config / 2) 0) as [Hz|];
    [|by eexists].
  replace (Config.modulus_power config)
    with (1 + (Config.modulus_power config - 1)) in Hz by lia.
  rewrite Z.pow_add_r, Z.mul_comm, Z.div_mul in Hz by lia.
  pose proof (pow2_pos (Config.modulus_power config - 1)). lia.
Qed.

(** C2: every record emitted by the window generator has an odd residue,
    [A = 3^j / 2^K] with [0 < A < 1], [B = c_j / 2^K] and
    [N0 = B / (1 - A)] as exact rationals; a pattern with [3^j >= 2^K]
    gets no record from [record_from_pattern]. *)
Theorem window_records_valid (k_min_of : Z → Z)
    (config : Config.CertificateConfig)
    (records : list Windows.WindowRecord) :
  Windows.generate_windows k_min_of config = Ok records →
  (∀ rec, rec ∈ records →
     let j := Windows.j rec in
     let K := Windows.K rec in
     let c_j := c_prefix (Windows.pattern rec) (length (Windows.pattern rec)) in
     Windows.residue rec mod 2 = 1
     ∧ j = Z.of_nat (length (Windows.pattern rec))
     ∧ K = sumZ (Windows.pattern rec)
     ∧ Windows.A rec = (Qc_of_Z (3 ^ j) / Qc_of_Z (2 ^ K))%Qc
     ∧ (0 < Windows.A rec)%Qc ∧ (Windows.A rec < 1)%Qc
     ∧ Windows.B rec = (Qc_of_Z c_j / Qc_of_Z (2 ^ K))%Qc
     ∧ Windows.N0 rec = (Windows.B rec / (1 - Windows.A rec))%Qc)
  ∧ (∀ pattern, Forall (λ s, 0 < s) pattern →
       2 ^ sumZ pattern ≤ 3 ^ Z.of_nat (length pattern) →
       Windows.record_from_pattern pattern = Ok None)
  ∧ (∀ pattern rec, Windows.record_from_pattern pattern = Ok (Some rec) →
       3 ^ Z.of_nat (length pattern) < 2 ^ sumZ pattern).
Proof.
  intros Hgen. split; [|split].
  - intros rec Hrec.
    apply generate_windows_inv in Hgen as [Hmp Hall].
    destruct (Hall rec Hrec) as (p & base & projected & Hp & Hbase & Hproj & Hin).
    apply visited_patterns_positive in Hp as [Hne Hpos].
    destruct (record_from_pattern_inv _ _ Hbase)
      as (r & Hsolve & _ & HK & Hlt & Hr & ->).
    destruct (solve_residue_positive p Hne Hpos) as (r' & Hsolve' & _ & Hc).
    assert (r' = r) as -> by congruence.
    pose proof (project_residues_odd (base_record p r) _ _ Hmp
                  (cong_at_odd p r (Hc 0%nat ltac:(lia))) Hproj rec Hin) as Hodd.
    rewrite (project_residues_fields _ _ _ Hproj rec Hin). simpl.
    repeat split; try done.
    + apply Qc_div_pos; [|by apply pow2_pos]. apply Z.pow_pos_nonneg; lia.
    + apply Qc_div_lt_1; [by apply pow2_pos|done].
  - apply record_from_pattern_rejects.
  - intros pattern rec Hrec.
    by apply record_from_pattern_inv in Hrec as (r & _ & _ & _ & ? & _).
Qed.

Lemma window_records_valid_witness :
  let config := {| Config.modulus_power := 4; Config.max_window_length := 2;
                   Config.max_valuation := 3; Config.delta_k := 1;
                   Config.funnel_depth := 16 |} in
  ∃ records,
    Windows.generate_windows k_min_exact config = Ok records
    ∧ records ≠ []
    ∧ (∀ rec, rec ∈ records →
         Windows.residue rec mod 2 = 1
         ∧ (0 < Windows.A rec)%Qc ∧ (Windows.A rec < 1)%Qc
         ∧ Windows.N0 rec = (Windows.B rec / (1 - Windows.A rec))%Qc).
Proof.
  intros config. eexists. split; [vm_compute; reflexivity|].
  split; [discriminate|].
  intros rec Hrec.
  destruct (window_records_valid k_min_exact config _ eq_refl) as [H _].
  destruct (H rec Hrec) as (? & _ & _ & _ & ? & ? & _ & ?). done.
Defined.

(** ** [funnel_lengths] *)

Lemma steps_succ_r (modulus : Z) (d : nat) (x : Z) :
  steps modulus (S d) x = steps modulus d (Funnels.accelerated_step x modulus).
Proof. unfold steps. by rewrite Nat.iter_succ_r. Qed.

Lemma first_hit_unique (modulus : Z) (W : gset Z) (x : Z) (d1 d2 : nat) :
  first_hit modulus W x d1 → first_hit modulus W x d2 → d1 = d2.
Proof.
  intros [H1 M1] [H2 M2].
  destruct (Nat.lt_trichotomy d1 d2) as [Hlt|[?|Hlt]]; [|done|].
  - by apply M2 in Hlt.
  - by apply M1 in Hlt.
Qed.

Section funnel_search.
Variables (modulus : Z) (W : gset Z).

Lemma search_Some (n : nat) :
  ∀ depth current len,
    Funnels.search modulus W n depth current = Some len →
    ∃ d, len = depth + Z.of_nat d ∧ (d < n)%nat
         ∧ first_hit modulus W current d.
Proof.
  induction n as [|n IH]; intros depth current len H; [done|].
  cbn [Funnels.search] in H. destruct (decide (current ∈ W)) as [Hin|Hout].
  - injection H as <-. exists 0%nat.
    split; [lia|]. split; [lia|]. split; [done|]. intros; lia.
  - apply IH in H as (d & -> & Hd & Hhit & Hmin).
    exists (S d). split; [lia|]. split; [lia|]. split.
    + by rewrite steps_succ_r.
    + intros [|d'] Hd'; [done|]. rewrite steps_succ_r. apply Hmin. lia.
Qed.

Lemma search_None (n : nat) :
  ∀ depth current,
    Funnels.search modulus W n depth current = None
    ↔ ∀ d, (d < n)%nat → steps modulus d current ∉ W.
Proof.
  induction n as [|n IH]; intros depth current.
  - split; [intros _ d Hd; lia|done].
  - cbn [Funnels.search]. destruct (decide (current ∈ W)) as [Hin|Hout].
    + split; [done|]. intros H. destruct (H 0%nat); [lia|done].
    + rewrite IH. split.
      * intros H [|d] Hd; [done|]. rewrite steps_succ_r. apply H. lia.
      * intros H d Hd. rewrite <- steps_succ_r. apply H. lia.
Qed.

(** The verdict of the search on one residue within [funnel_depth]. *)
Lemma search_depth (funnel_depth residue len : Z) :
  Funnels.search modulus W (Z.to_nat (funnel_depth + 1)) 0 residue
  = Some len →
  0 ≤ len ≤ funnel_depth ∧ first_hit modulus W residue (Z.to_nat len).
Proof.
  intros H. apply search_Some in H as (d & -> & Hd & Hhit).
  split; [lia|]. by rewrite Z.add_0_l, Nat2Z.id.
Qed.

Lemma search_fails (funnel_depth residue : Z) :
  Funnels.search modulus W (Z.to_nat (funnel_depth + 1)) 0 residue = None
  ↔ ∀ d : nat, Z.of_nat d ≤ funnel_depth → steps modulus d residue ∉ W.
Proof.
  rewrite search_None. split; intros H d Hd; apply H; lia.
Qed.

(** The outer loop appends one pair per residue, in order. *)
Lemma funnel_loop_Ok (funnel_depth : Z) (residues : list Z) :
  ∀ funnels histogram out histogram',
    Funnels.funnel_loop funnel_depth modulus W residues funnels histogram
    = Ok (out, histogram') →
    ∃ new, out = funnels ++ new
           ∧ new.*1 = residues
           ∧ ∀ residue len, (residue, len) ∈ new →
               Funnels.search modulus W (Z.to_nat (funnel_depth + 1)) 0
                 residue = Some len.
Proof.
  induction residues as [|residue rest IH];
    intros funnels histogram out histogram' H.
  - injection H as <- <-. exists []. rewrite app_nil_r.
    split; [done|]. split; [done|]. by intros ?? ?%elem_of_nil.
  - cbn [Funnels.funnel_loop] in H.
    destruct (Funnels.search _ _ _ _ residue) as [len|] eqn:Hs; [|done].
    apply IH in H as (new & -> & Hfst & Hall).
    exists ((residue, len) :: new). rewrite <- app_assoc.
    split; [done|]. split; [by rewrite fmap_cons, Hfst|].
    intros r l [[= -> ->]|?]%elem_of_cons; [done|by apply Hall].
Qed.

Lemma funnel_loop_error (funnel_depth : Z) (residues : list Z) :
  ∀ funnels histogram e,
    Funnels.funnel_loop funnel_depth modulus W residues funnels histogram
    = Raise e →
    ∃ residue, residue ∈ residues ∧ e = FunnelDepthExceeded residue.
Proof.
  induction residues as [|residue rest IH]; intros funnels histogram e H;
    [done|].
  cbn [Funnels.funnel_loop] in H.
  destruct (Funnels.search _ _ _ _ residue) as [len|].
  - apply IH in H as (r & ? & ->). exists r. split; [by right|done].
  - injection H as <-. exists residue. split; [by left|done].
Qed.

Lemma funnel_loop_Raise (funnel_depth : Z) (residues : list Z) :
  ∀ funnels histogram,
    (∃ e, Funnels.funnel_loop funnel_depth modulus W residues funnels
            histogram = Raise e)
    ↔ ∃ residue, residue ∈ residues
        ∧ Funnels.search modulus W (Z.to_nat (funnel_depth + 1)) 0 residue
          = None.
Proof.
  induction residues as [|residue rest IH]; intros funnels histogram.
  - split; [by intros [e ?]|]. by intros (? & ?%elem_of_nil & _).
  - cbn [Funnels.funnel_loop].
    destruct (Funnels.search _ _ _ _ residue) as [len|] eqn:Hs.
    + rewrite IH. split.
      * intros (r & ? & ?). exists r. split; [by right|done].
      * intros (r & [->|?]%elem_of_cons & Hr); [congruence|by exists r].
    + split; [|by eexists]. intros _. exists residue. split; [by left|done].
Qed.

End funnel_search.

(** The residues enumerated by [range(1, modulus, 2)]. *)
Lemma elem_of_odd_range (modulus x : Z) :
  x ∈ py_range_step 1 modulus 2 ↔ 1 ≤ x < modulus ∧ x mod 2 = 1.
Proof.
  unfold py_range_step. rewrite list_elem_of_fmap.
  replace (modulus - 1 + 2 - 1) with modulus by lia. split.
  - intros (i & -> & Hi%elem_of_seqZ).
    replace (1 + 2 * i) with (1 + i * 2) by lia.
    rewrite Z.mod_add by lia. split; [|done].
    destruct (Z.le_gt_cases modulus 0) as [Hm|Hm].
    + pose proof (Z.div_le_upper_bound modulus 2 0 ltac:(lia) ltac:(lia)). lia.
    + pose proof (Z.mul_div_le modulus 2 ltac:(lia)). lia.
  - intros [Hx Hodd]. exists (x / 2).
    pose proof (Z.div_mod x 2 ltac:(lia)) as Hdm. split; [lia|].
    apply elem_of_seqZ. split; [apply Z.div_pos; lia|].
    rewrite Z.add_0_l. apply Z.div_lt_upper_bound; [lia|].
    pose proof (Z.div_mod modulus 2 ltac:(lia)) as Hm.
    pose proof (Z.mod_pos_bound modulus 2 ltac:(lia)). lia.
Qed.

Lemma odd_range_sorted (modulus : Z) :
  StronglySorted Z.lt (py_range_step 1 modulus 2).
Proof.
  unfold py_range_step. generalize ((modulus - 1 + 2 - 1) / 2). intros n.
  unfold seqZ. generalize (Z.to_nat n). clear n. intros n.
  generalize 0%nat. induction n as [|n IH]; intros k; simpl; [constructor|].
  constructor; [apply IH|].
  apply Forall_forall. intros x Hx.
  apply list_elem_of_fmap in Hx as (i & -> & Hi).
  apply list_elem_of_fmap in Hi as (i' & -> & Hi').
  apply elem_of_seq in Hi'. lia.
Qed.

Lemma funnel_lengths_inv (config : Config.CertificateConfig) (W : gset Z)
    (funnels : list (Z * Z)) (histogram : gmap Z Z) :
  Funnels.funnel_lengths config W = Ok (funnels, histogram) →
  let modulus := 2 ^ Config.modulus_power config in
  Config.modulus config = Ok modulus
  ∧ funnels.*1 = py_range_step 1 modulus 2
  ∧ ∀ residue len, (residue, len) ∈ funnels →
      0 ≤ len ≤ Config.funnel_depth config
      ∧ first_hit modulus W residue (Z.to_nat len).
Proof.
  unfold Funnels.funnel_lengths. intros H.
  apply bind_Ok_inv in H as (m & Hm & H).
  pose proof Hm as Hm'. apply py_shl_inv in Hm' as [_ ->].
  apply funnel_loop_Ok in H as (new & -> & Hfst & Hall).
  split; [done|]. split; [done|].
  intros residue len Hin. by apply search_depth, Hall.
Qed.

(** C4: for every pair [(residue, min_funnel_length)] produced by
    [funnel_lengths], [min_funnel_length] applications of the accelerated
    step to [residue] land in the window-residue set, and no smaller number
    of applications does. *)
Theorem funnel_lengths_minimal (config : Config.CertificateConfig)
    (W : gset Z) (funnels : list (Z * Z)) (histogram : gmap Z Z)
    (residue len : Z) :
  Funnels.funnel_lengths config W = Ok (funnels, histogram) →
  (residue, len) ∈ funnels →
  ∃ modulus,
    Config.modulus config = Ok modulus
    ∧ 0 ≤ len
    ∧ steps modulus (Z.to_nat len) residue ∈ W
    ∧ ∀ d, (d < Z.to_nat len)%nat → steps modulus d residue ∉ W.
Proof.
  intros H Hin. apply funnel_lengths_inv in H as (Hm & _ & Hall).
  destruct (Hall residue len Hin) as [Hlen [Hhit Hmin]].
  eexists. split; [exact Hm|]. split; [lia|]. done.
Qed.

Lemma funnel_lengths_config8 :
  ∃ histogram,
    Funnels.funnel_lengths config8 {[1]}
    = Ok ([(1, 0); (3, 2); (5, 1); (7, 3)], histogram).
Proof. eexists. vm_compute. reflexivity. Defined.

Lemma funnel_lengths_minimal_witness :
  ∃ modulus,
    Config.modulus config8 = Ok modulus
    ∧ 0 ≤ 3
    ∧ steps modulus (Z.to_nat 3) 7 ∈ ({[1]} : gset Z)
    ∧ ∀ d, (d < Z.to_nat 3)%nat → steps modulus d 7 ∉ ({[1]} : gset Z).
Proof.
  destruct funnel_lengths_config8 as [histogram H].
  apply (funnel_lengths_minimal config8 {[1]} _ histogram 7 3 H).
  do 3 right. left.
Defined.

(** C6, as stated, fails: a residue that is already a window residue does
    get a funnel record (with depth 0). *)
Lemma funnel_lengths_skips_windows_counterexample :
  ¬ (∀ config W funnels histogram residue depth,
       Funnels.funnel_lengths config W = Ok (funnels, histogram) →
       (residue, depth) ∈ funnels → residue ∉ W).
Proof.
  intros H. destruct funnel_lengths_config8 as [histogram E].
  apply (H config8 {[1]} _ histogram 1 0 E); [left|].
  by apply elem_of_singleton.
Qed.

(** C6, amended: [funnel_lengths] emits exactly one record for every odd
    residue of [[1, modulus)], window residues included, in ascending
    residue order; the depth of a record is the first number of
    accelerated-step applications whose value lies in the window-residue
    set, which is 0 exactly for the window residues. *)
Theorem funnel_lengths_records (config : Config.CertificateConfig)
    (W : gset Z) (funnels : list (Z * Z)) (histogram : gmap Z Z) :
  Funnels.funnel_lengths config W = Ok (funnels, histogram) →
  let modulus := 2 ^ Config.modulus_power config in
  (∀ residue, (∃ depth, (residue, depth) ∈ funnels)
              ↔ 1 ≤ residue < modulus ∧ residue mod 2 = 1)
  ∧ NoDup (funnels.*1)
  ∧ StronglySorted Z.lt (funnels.*1)
  ∧ (∀ residue depth, (residue, depth) ∈ funnels →
       0 ≤ depth
       ∧ first_hit modulus W residue (Z.to_nat depth)
       ∧ (residue ∈ W ↔ depth = 0)).
Proof.
  intros H modulus. apply funnel_lengths_inv in H as (_ & Hfst & Hall).
  fold modulus in Hfst, Hall. split; [|split; [|split]].
  - intros residue. rewrite <- elem_of_odd_range, <- Hfst.
    rewrite list_elem_of_fmap. split.
    + intros [depth Hin]. by exists (residue, depth).
    + intros ([r depth] & -> & Hin). by exists depth.
  - rewrite Hfst. unfold py_range_step.
    apply NoDup_fmap_2_strong; [|apply NoDup_seqZ]. intros; lia.
  - rewrite Hfst. apply odd_range_sorted.
  - intros residue depth Hin.
    destruct (Hall residue depth Hin) as [Hd Hhit].
    split; [lia|]. split; [done|]. split.
    + intros HW.
      assert (first_hit modulus W residue 0) as H0.
      { split; [done|]. intros; lia. }
      pose proof (first_hit_unique _ _ _ _ _ Hhit H0). lia.
    + intros ->. by destruct Hhit as [Hhit _].
Qed.

Lemma funnel_lengths_records_witness :
  let modulus := 2 ^ Config.modulus_power config8 in
  let funnels := [(1, 0); (3, 2); (5, 1); (7, 3)] in
  (∀ residue, (∃ depth, (residue, depth) ∈ funnels)
              ↔ 1 ≤ residue < modulus ∧ residue mod 2 = 1)
  ∧ NoDup (funnels.*1)
  ∧ StronglySorted Z.lt (funnels.*1)
  ∧ (∀ residue depth, (residue, depth) ∈ funnels →
       0 ≤ depth
       ∧ first_hit modulus {[1]} residue (Z.to_nat depth)
       ∧ (residue ∈ ({[1]} : gset Z) ↔ depth = 0)).
Proof.
  destruct funnel_lengths_config8 as [histogram H].
  exact (funnel_lengths_records config8 {[1]} _ histogram H).
Defined.

(** C7: [funnel_lengths] raises (and so returns no table at all) exactly
    when some odd residue of [[1, modulus)] does not reach the
    window-residue set within [funnel_depth] applications of the
    accelerated step, the error being the depth-exhaustion one; when it
    returns, every recorded length is at most [funnel_depth]. *)
Theorem funnel_lengths_raises_iff (config : Config.CertificateConfig)
    (W : gset Z) (modulus : Z) :
  Config.modulus config = Ok modulus →
  ((∃ e, Funnels.funnel_lengths config W = Raise e)
   ↔ ∃ residue, 1 ≤ residue < modulus ∧ residue mod 2 = 1
       ∧ ∀ d : nat, Z.of_nat d ≤ Config.funnel_depth config →
           steps modulus d residue ∉ W)
  ∧ (∀ e, Funnels.funnel_lengths config W = Raise e →
          ∃ residue, e = FunnelDepthExceeded residue)
  ∧ (∀ funnels histogram residue len,
       Funnels.funnel_lengths config W = Ok (funnels, histogram) →
       (residue, len) ∈ funnels →
       0 ≤ len ≤ Config.funnel_depth config).
Proof.
  intros Hm. split; [|split].
  - unfold Funnels.funnel_lengths. rewrite Hm, bind_Ok.
    rewrite funnel_loop_Raise. split.
    + intros (r & Hr%elem_of_odd_range & Hs). exists r.
      destruct Hr. split; [done|]. split; [done|].
      by apply (proj1 (search_fails _ _ _ _)).
    + intros (r & ? & ? & Hs). exists r.
      split; [by apply elem_of_odd_range|].
      by apply (proj2 (search_fails _ _ _ _)).
  - unfold Funnels.funnel_lengths. rewrite Hm, bind_Ok. intros e He.
    apply funnel_loop_error in He as (r & _ & ->). by exists r.
  - intros funnels histogram residue len H Hin.
    apply funnel_lengths_inv in H as (_ & _ & Hall).
    by destruct (Hall residue len Hin).
Qed.

Lemma funnel_lengths_raises_iff_witness :
  ((∃ e, Funnels.funnel_lengths config8 {[1]} = Raise e)
   ↔ ∃ residue, 1 ≤ residue < 8 ∧ residue mod 2 = 1
       ∧ ∀ d : nat, Z.of_nat d ≤ Config.funnel_depth config8 →
           steps 8 d residue ∉ ({[1]} : gset Z))
  ∧ (∀ e, Funnels.funnel_lengths config8 {[1]} = Raise e →
          ∃ residue, e = FunnelDepthExceeded residue)
  ∧ (∀ funnels histogram residue len,
       Funnels.funnel_lengths config8 {[1]} = Ok (funnels, histogram) →
       (residue, len) ∈ funnels →
       0 ≤ len ≤ Config.funnel_depth config8).
Proof. apply (funnel_lengths_raises_iff config8 {[1]} 8). reflexivity. Defined.

Example funnel_lengths_too_shallow :
  Funnels.funnel_lengths
    {| Config.modulus_power := 3; Config.max_window_length := 1;
       Config.max_valuation := 2; Config.delta_k := 1;
       Config.funnel_depth := 2 |} {[1]}
  = Raise (FunnelDepthExceeded 7).
Proof. vm_compute. reflexivity. Qed.

(** ** [validate_windows] *)

Lemma py_pow_mod_nonneg (a e m : Z) :
  m ≠ 0 → 0 ≤ e → py_pow_mod a e m = Ok (a ^ e mod m).
Proof.
  intros Hm He. unfold py_pow_mod.
  destruct (Z.eqb_spec m 0); [done|]. by destruct (Z.ltb_spec e 0); [lia|].
Qed.

Lemma pow2_mod_next (b : Z) : 0 ≤ b → 2 ^ b mod 2 ^ (b + 1) = 2 ^ b.
Proof.
  intros Hb. apply Z.mod_small. split; [by apply Z.lt_le_incl, pow2_pos|].
  apply Z.pow_lt_mono_r; lia.
Qed.

(** The congruence re-walk of a row, started after the first [length pre]
    entries of the pattern [q]: it either ends with the final [(K_t, c_t)],
    all remaining congruences holding, or stops at the first step whose
    running sum is negative or whose congruence fails. *)
Lemma congruence_loop_cases (q : list Z) (r idx : Z) :
  ∀ rest pre, q = pre ++ rest → 0 ≤ K_prefix q (length pre) →
    match Validator.congruence_loop idx r (Z.of_nat (length pre)) rest
            (K_prefix q (length pre)) (c_prefix q (length pre)) with
    | Ok Kc =>
        Kc = (K_prefix q (length q), c_prefix q (length q))
        ∧ ∀ t, (length pre < t ≤ length q)%nat →
            0 ≤ K_prefix q t ∧ prefix_congruence q r t
    | Raise e =>
        ∃ t, (length pre < t ≤ length q)%nat
          ∧ ((K_prefix q t < 0 ∧ e = NegativeShiftCount)
             ∨ (0 ≤ K_prefix q t ∧ ¬ prefix_congruence q r t
                ∧ e = RowInvalid idx (CongruenceFailed (Z.of_nat t - 1))))
    end.
Proof.
  intros rest. induction rest as [|s rest IH]; intros pre Hpre Ha.
  - rewrite app_nil_r in Hpre. subst pre. simpl. split; [done|]. intros; lia.
  - assert (q !! length pre = Some s) as Hs.
    { subst q. by rewrite list_lookup_middle. }
    assert (length pre < length q)%nat as Hlen.
    { subst q. rewrite length_app. simpl. lia. }
    pose proof (K_prefix_S q _ _ Hs) as HS.
    cbn [Validator.congruence_loop]. rewrite <- HS.
    set (a := K_prefix q (length pre)) in *.
    set (b := K_prefix q (S (length pre))) in *.
    destruct (Z.ltb_spec (b + 1) 0) as [Hb1|Hb1].
    { rewrite (py_shl_neg 1 (b + 1)) by done. exists (S (length pre)).
      split; [lia|]. left. fold b. split; [lia|done]. }
    rewrite (py_shl_ok (b + 1)), bind_Ok by done.
    pose proof (pow2_pos (b + 1) Hb1) as Hm.
    rewrite py_pow_mod_nonneg, bind_Ok by lia.
    rewrite (py_shl_ok a), bind_Ok by done.
    destruct (Z.ltb_spec b 0) as [Hb|Hb].
    { rewrite (py_shl_neg 1 b) by done. exists (S (length pre)).
      split; [lia|]. left. fold b. done. }
    rewrite (py_shl_ok b), bind_Ok by done.
    assert ((3 ^ (Z.of_nat (length pre) + 1) `mod` 2 ^ (b + 1)
               * (r `mod` 2 ^ (b + 1)) + 3 * c_prefix q (length pre) + 2 ^ a)
              `mod` 2 ^ (b + 1) = 2 ^ b
            ↔ prefix_congruence q r (S (length pre))) as Hcong.
    { unfold prefix_congruence. fold b.
      replace (S (length pre) - 1)%nat with (length pre) by lia. fold a.
      rewrite pow2_mod_next by done.
      rewrite Nat2Z.inj_succ, <- Z.add_1_r.
      rewrite <- Z.add_assoc, Z.add_mod, <- Z.mul_mod, <- Z.add_mod by lia.
      by rewrite Z.add_assoc. }
    destruct (Z.eqb_spec
                ((3 ^ (Z.of_nat (length pre) + 1) `mod` 2 ^ (b + 1)
                  * (r `mod` 2 ^ (b + 1)) + 3 * c_prefix q (length pre) + 2 ^ a)
                 `mod` 2 ^ (b + 1)) (2 ^ b)) as [Heq|Hne]; simpl.
    + specialize (IH (pre ++ [s])). rewrite <- app_assoc in IH.
      specialize (IH Hpre). rewrite length_app in IH. simpl in IH.
      replace (length pre + 1)%nat with (S (length pre)) in IH by lia.
      replace (Z.of_nat (length pre) + 1) with (Z.of_nat (S (length pre)))
        by lia.
      specialize (IH Hb). cbn [c_prefix] in IH. fold a in IH.
      destruct (Validator.congruence_loop _ _ _ _ _ _) as [Kc|e].
      * destruct IH as [-> IH]. split; [done|]. intros t Ht.
        destruct (decide (t = S (length pre))) as [->|];
          [split; [done|by apply Hcong]|apply IH; lia].
      * destruct IH as (t & Ht & IH). exists t. split; [lia|done].
    + exists (S (length pre)). split; [lia|]. right. fold b.
      split; [done|]. split; [by rewrite <- Hcong|].
      do 3 f_equal. lia.
Qed.

Lemma row_passes_K_nonneg (row : Validator.WindowRow) :
  row_passes row → 0 ≤ Validator.K row.
Proof.
  intros (_ & _ & _ & Hc & <- & _).
  destruct (Validator.s_vec row) as [|s p] eqn:Hp; [done|].
  rewrite <- K_prefix_full. apply Hc. simpl. lia.
Qed.

(** The verdict of the re-check on one row. *)
Lemma validate_row_cases (idx : Z) (row : Validator.WindowRow) :
  match Validator.validate_row idx row with
  | Ok n0 => row_passes row ∧ n0 = Validator.N0 row
  | Raise e =>
      ¬ row_passes row
      ∧ ((e = NegativeShiftCount ∧ ¬ shift_safe row)
         ∨ ∃ why, e = RowInvalid idx why)
  end.
Proof.
  unfold Validator.validate_row, row_passes, shift_safe.
  destruct row as [res em r j K p A B N0]. cbn [Validator.target_residue
    Validator.exact_residue_modulus Validator.exact_residue Validator.j
    Validator.K Validator.s_vec Validator.A Validator.B Validator.N0].
  destruct (Z.eqb_spec (res mod 2) 0) as [Hev|Hodd].
  { split; [by intros [? _]|]. right. by eexists. }
  destruct (Z.ltb_spec (K + 1) 0) as [HK1|HK1].
  { rewrite (py_shl_neg 1 (K + 1)) by done. split.
    - intros Hp.
      pose proof (row_passes_K_nonneg
                    (Validator.Build_WindowRow res em r j K p A B N0) Hp).
      simpl in *. lia.
    - left. split; [done|]. intros [? _]. lia. }
  rewrite (py_shl_ok (K + 1)), bind_Ok by done.
  destruct (Z.eqb_spec em (2 ^ (K + 1))) as [Hem|Hem]; simpl.
  2: { split; [by intros (_ & ? & _)|]. right. by eexists. }
  destruct (Z.eqb_spec (Z.of_nat (length p)) j) as [Hj|Hj]; simpl.
  2: { split; [by intros (_ & _ & ? & _)|]. right. by eexists. }
  pose proof (congruence_loop_cases p r idx p [] eq_refl) as Hloop.
  change (Validator.congruence_loop idx r (Z.of_nat (length [])) p
            (K_prefix p (length [])) (c_prefix p (length [])))
    with (Validator.congruence_loop idx r 0 p 0 0) in Hloop.
  specialize (Hloop ltac:(done)).
  destruct (Validator.congruence_loop idx r 0 p 0 0) as [[K_t c_t]|e].
  2: { destruct Hloop as (t & Ht & Hcase). rewrite (bind_Raise _).
       split.
       - intros (_ & _ & _ & Hc & _).
         destruct (Hc t ltac:(simpl in Ht; lia)) as [? ?].
         destruct Hcase as [[? _]|(_ & ? & _)]; [lia|done].
       - destruct Hcase as [[Hneg ->]|(_ & _ & ->)].
         + left. split; [done|]. intros [_ Hs].
           specialize (Hs t ltac:(lia)). lia.
         + right. by eexists. }
  destruct Hloop as [[= -> ->] Hc]. rewrite bind_Ok.
  rewrite K_prefix_full.
  destruct (Z.eqb_spec (sumZ p) K) as [HK|HK]; simpl.
  2: { split; [by intros (_ & _ & _ & _ & ? & _)|]. right. by eexists. }
  assert (0 ≤ K) as HK0.
  { subst K. destruct p as [|s p']; [done|].
    rewrite <- K_prefix_full. apply Hc. simpl. lia. }
  rewrite (py_shl_ok K), bind_Ok by done.
  pose proof (pow2_pos K HK0) as Hpos.
  rewrite !Fraction_pos, !bind_Ok by done.
  subst j.
  set (eA := (Qc_of_Z (3 ^ Z.of_nat (length p)) / Qc_of_Z (2 ^ K))%Qc).
  set (eB := (Qc_of_Z (c_prefix p (length p)) / Qc_of_Z (2 ^ K))%Qc).
  destruct (Qc_leb 1 eA) eqn:HA.
  { apply Qc_leb_le in HA. split; [|right; by eexists].
    intros (_ & _ & _ & _ & _ & Hlt & _).
    apply (Qc_div_lt_1 _ _ Hpos) in Hlt. by apply Qcle_not_lt in HA. }
  assert (eA < 1)%Qc as HA1.
  { apply Qcnot_le_lt. intros Hle%Qc_leb_le. congruence. }
  unfold Qc_eqb.
  destruct (Qc_eq_dec A eA) as [->|HAne]; simpl.
  2: { split; [|right; by eexists].
       by intros (_ & _ & _ & _ & _ & _ & ? & _). }
  destruct (Qc_eq_dec B eB) as [->|HBne]; simpl.
  2: { split; [|right; by eexists].
       by intros (_ & _ & _ & _ & _ & _ & _ & ? & _). }
  rewrite Fraction_div_ok, bind_Ok by (by apply Qc_one_minus_nonzero).
  destruct (Qc_eq_dec N0 (eB / (1 - eA))%Qc) as [->|HNne]; simpl.
  2: { split; [|right; by eexists].
       by intros (_ & _ & _ & _ & _ & _ & _ & _ & ?). }
  split; [|done]. split; [done|]. split; [done|]. split; [done|].
  split; [intros t Ht; apply Hc; simpl; lia|].
  split; [done|]. split; [by apply (Qc_div_lt_1 _ _ Hpos)|]. done.
Qed.

(** The verdict of the row loop: it returns when every row passes, and
    otherwise stops with the error of the first row that does not. *)
Lemma validate_rows_cases (rows : list Validator.WindowRow) :
  ∀ idx thresholds residues max_j max_K,
    match Validator.validate_rows idx rows
            (thresholds, residues, max_j, max_K) with
    | Ok (thresholds', residues', _, _) =>
        Forall row_passes rows
        ∧ thresholds' = thresholds ++ (Validator.N0 <$> rows)
        ∧ residues'
          = list_to_set (Validator.target_residue <$> rows) ∪ residues
    | Raise e =>
        ∃ (i : nat) row,
          rows !! i = Some row
          ∧ Forall row_passes (take i rows)
          ∧ ¬ row_passes row
          ∧ ((e = NegativeShiftCount ∧ ¬ shift_safe row)
             ∨ ∃ why, e = RowInvalid (idx + Z.of_nat i) why)
    end.
Proof.
  induction rows as [|row rows IH]; intros idx thresholds residues max_j max_K.
  - simpl. split; [done|]. rewrite app_nil_r. split; [done|].
    by rewrite (left_id_L ∅ (∪)).
  - cbn [Validator.validate_rows].
    pose proof (validate_row_cases idx row) as Hrow.
    destruct (Validator.validate_row idx row) as [n0|e].
    + destruct Hrow as [Hpass ->]. rewrite bind_Ok.
      specialize (IH (idx + 1) (thresholds ++ [Validator.N0 row])
                    ({[Validator.target_residue row]} ∪ residues)
                    (Z.max max_j (Validator.j row))
                    (Z.max max_K (Validator.K row))).
      destruct (Validator.validate_rows _ _ _) as [[[[t' r'] mj] mK]|e].
      * destruct IH as (Hall & -> & ->). split; [by constructor|].
        split; [by rewrite <- app_assoc|].
        rewrite fmap_cons, list_to_set_cons, (assoc_L (∪)).
        by rewrite (comm_L (∪) (list_to_set _) {[_]}).
      * destruct IH as (i & row' & Hi & Hbefore & Hfail & He).
        exists (S i), row'. split; [done|]. split; [by constructor|].
        split; [done|]. destruct He as [?|[why ->]]; [by left|].
        right. exists why. f_equal. lia.
    + destruct Hrow as [Hfail He]. rewrite bind_Raise.
      exists 0%nat, row. split; [done|]. split; [constructor|].
      split; [done|]. destruct He as [?|[why ->]]; [by left|].
      right. exists why. f_equal. lia.
Qed.

(** [validate_windows] completes without raising exactly when every row
    passes every check; it then returns the thresholds [N0] of the rows and
    the set of their residues. *)
Lemma validate_windows_accepts_iff (rows : list Validator.WindowRow)
    (modulus_power : Z) :
  0 ≤ modulus_power →
  (∃ out, Validator.validate_windows rows modulus_power = Ok out)
  ↔ Forall row_passes rows.
Proof.
  intros Hmp. unfold Validator.validate_windows.
  rewrite py_shl_ok, bind_Ok by done.
  pose proof (validate_rows_cases rows 1 [] ∅ 0 0) as H.
  destruct (Validator.validate_rows _ _ _) as [[[[t r] mj] mK]|e].
  - destruct H as [Hall _]. split; [done|]. by eexists.
  - destruct H as (i & row & Hi & _ & Hfail & _). split; [by intros [? ?]|].
    intros Hall. destruct Hfail.
    eapply Forall_forall in Hall; [exact Hall|].
    by eapply list_elem_of_lookup_2.
Qed.

Lemma validate_windows_Ok (rows : list Validator.WindowRow)
    (modulus_power : Z)
    (thresholds : list Qc) (residues : gset Z) (max_j max_K : Z) :
  Validator.validate_windows rows modulus_power
  = Ok (thresholds, residues, max_j, max_K) →
  Forall row_passes rows
  ∧ thresholds = Validator.N0 <$> rows
  ∧ residues = list_to_set (Validator.target_residue <$> rows).
Proof.
  unfold Validator.validate_windows. intros H.
  apply bind_Ok_inv in H as (m & _ & H).
  pose proof (validate_rows_cases rows 1 [] ∅ 0 0) as Hc.
  rewrite H in Hc. destruct Hc as (? & -> & ->).
  split; [done|]. split; [done|]. by rewrite (right_id_L ∅ (∪)).
Qed.

(** On the first row that fails a check, the error raised names that row
    (rows are numbered from 1), provided no shift count of the re-check of
    that row is negative. *)
Lemma validate_windows_first_failure (rows : list Validator.WindowRow)
    (modulus_power : Z) (i : nat) (row : Validator.WindowRow) :
  0 ≤ modulus_power →
  rows !! i = Some row →
  Forall row_passes (take i rows) →
  ¬ row_passes row →
  shift_safe row →
  ∃ why, Validator.validate_windows rows modulus_power
         = Raise (RowInvalid (Z.of_nat i + 1) why).
Proof.
  intros Hmp Hi Hbefore Hfail Hsafe. unfold Validator.validate_windows.
  rewrite py_shl_ok, bind_Ok by done.
  pose proof (validate_rows_cases rows 1 [] ∅ 0 0) as H.
  destruct (Validator.validate_rows _ _ _) as [[[[t r] mj] mK]|e].
  - destruct H as [Hall _]. destruct Hfail.
    eapply Forall_forall in Hall; [exact Hall|].
    by eapply list_elem_of_lookup_2.
  - destruct H as (i' & row' & Hi' & Hbefore' & Hfail' & He).
    assert (i' = i) as ->.
    { destruct (Nat.lt_trichotomy i' i) as [Hlt|[?|Hlt]]; [|done|].
      - destruct Hfail'. eapply Forall_forall in Hbefore; [exact Hbefore|].
        eapply list_elem_of_lookup_2. by rewrite lookup_take_lt.
      - destruct Hfail. eapply Forall_forall in Hbefore'; [exact Hbefore'|].
        eapply list_elem_of_lookup_2. by rewrite lookup_take_lt. }
    assert (row' = row) as -> by congruence.
    destruct He as [[_ ?]|[why ->]]; [done|].
    exists why. do 2 f_equal. lia.
Qed.

Example validate_windows_negative_sum :
  Validator.validate_windows
    [{| Validator.target_residue := 1; Validator.exact_residue_modulus := 8;
        Validator.exact_residue := 1; Validator.j := 2; Validator.K := 2;
        Validator.s_vec := [-3; 5]; Validator.A := Q2Qc (9 # 4);
        Validator.B := Q2Qc (1 # 4); Validator.N0 := Q2Qc 1 |}] 4
  = Raise NegativeShiftCount.
Proof. reflexivity. Qed.

Example validate_windows_even_residue :
  Validator.validate_windows
    [stray_residue_row; with_target stray_residue_row 6] 4
  = Raise (RowInvalid 2 ResidueEven).
Proof. vm_compute. reflexivity. Qed.

(** C5 on the code: the first failing row is rejected, but when its [K] is
    below -1 the error raised is Python's negative-shift [ValueError], which
    carries no row index. *)
Theorem validate_windows_negative_K :
  ¬ row_passes negative_K_row
  ∧ Validator.validate_windows [negative_K_row] 4 = Raise NegativeShiftCount
  ∧ ∀ idx why,
      Validator.validate_windows [negative_K_row] 4
      ≠ Raise (RowInvalid idx why).
Proof.
  split; [|split].
  - intros (_ & _ & _ & _ & Hsum & _). simpl in Hsum. lia.
  - reflexivity.
  - intros idx why. discriminate.
Qed.

(** C10: [validate_windows] looks at the parity of the residue column only,
    never at its congruence to [exact_residue] modulo [2^(K+1)]: the row
    with residue 5, pattern [[2]], exact residue 1, [K = 2], [A = 3/4],
    [B = 1/4], [N0 = 1] is accepted although 5 is not congruent to 1
    modulo 8; and replacing the residue of any row by any odd integer never
    changes the verdict on an odd-residue row. *)
Theorem validate_windows_ignores_residue_class :
  (let row := stray_residue_row in
   Validator.target_residue row mod 2 = 1
   ∧ Validator.target_residue row mod 2 ^ (Validator.K row + 1)
     ≠ Validator.exact_residue row mod 2 ^ (Validator.K row + 1)
   ∧ ∃ out, Validator.validate_windows [row] 3 = Ok out)
  ∧ (∀ idx row residue,
       Validator.target_residue row mod 2 ≠ 0 → residue mod 2 ≠ 0 →
       Validator.validate_row idx (with_target row residue)
       = Validator.validate_row idx row).
Proof.
  split.
  - split; [reflexivity|]. split; [by vm_compute|].
    eexists. vm_compute. reflexivity.
  - intros idx row residue Hrow Hres. unfold Validator.validate_row. simpl.
    destruct (Z.eqb_spec (residue mod 2) 0); [done|].
    by destruct (Z.eqb_spec (Validator.target_residue row mod 2) 0).
Qed.

Lemma validate_windows_ignores_residue_class_witness :
  Validator.validate_row 1 (with_target stray_residue_row 7)
  = Validator.validate_row 1 stray_residue_row.
Proof.
  apply (proj2 validate_windows_ignores_residue_class 1 stray_residue_row 7).
  - vm_compute. discriminate.
  - vm_compute. discriminate.
Defined.

(** ** [validate_funnels] and [summarize] *)

Lemma validate_funnel_rows_depth (modulus : Z) (W : gset Z)
    (rows : list (Z * Z)) :
  ∀ idx max_depth records L records',
    Validator.validate_funnel_rows modulus W idx rows (max_depth, records)
    = Ok (L, records') →
    max_depth ≤ L.
Proof.
  induction rows as [|[residue len] rows IH];
    intros idx max_depth records L records' H.
  - injection H as <- <-. lia.
  - cbn [Validator.validate_funnel_rows] in H.
    destruct (_ && _); [done|].
    apply bind_Ok_inv in H as (current & _ & H).
    destruct (negb _); [done|]. apply IH in H. lia.
Qed.

(** The maximal funnel length returned by the funnel re-check is never
    negative. *)
Lemma validate_funnels_depth_nonneg (rows : list (Z * Z)) (W : gset Z)
    (modulus L : Z) (records : list (Z * Z)) :
  Validator.validate_funnels rows W modulus = Ok (L, records) → 0 ≤ L.
Proof. apply validate_funnel_rows_depth. Qed.

Lemma py_max_fold (xs : list Qc) :
  ∀ x, let m := fold_left (λ m y, if Qc_ltb m y then y else m) xs x in
       m ∈ x :: xs ∧ ∀ y, y ∈ x :: xs → (y <= m)%Qc.
Proof.
  induction xs as [|z xs IH]; intros x; simpl.
  - split; [by left|]. intros y ->%list_elem_of_singleton. apply Qcle_refl.
  - destruct (Qc_ltb x z) eqn:Hlt.
    + destruct (IH z) as [Hin Hmax]. split; [by right|].
      intros y [->|Hy]%elem_of_cons; [|by apply Hmax].
      apply Qc_ltb_lt in Hlt. eapply Qcle_trans; [by apply Qclt_le_weak|].
      apply Hmax. by left.
    + destruct (IH x) as [Hin Hmax]. split.
      * apply elem_of_cons in Hin as [->|?]; [by left|by do 2 right].
      * intros y [->|[->|Hy]%elem_of_cons]%elem_of_cons.
        -- apply Hmax. by left.
        -- eapply Qcle_trans; [|apply Hmax; by left].
           apply Qcnot_lt_le. intros ?%Qc_ltb_lt. congruence.
        -- apply Hmax. by right.
Qed.

Lemma py_max_spec (l : list Qc) :
  l ≠ [] →
  ∃ m, py_max l = Ok m ∧ m ∈ l ∧ ∀ y, y ∈ l → (y <= m)%Qc.
Proof.
  destruct l as [|x xs]; [done|]. intros _. eexists. split; [done|].
  apply py_max_fold.
Qed.

Lemma ceil_fraction_spec (q : Qc) :
  (Qc_of_Z (ceil_fraction q - 1) < q)%Qc ∧ (q <= Qc_of_Z (ceil_fraction q))%Qc.
Proof.
  assert (ceil_fraction q = Qceiling (this q)) as ->.
  { unfold ceil_fraction, Qceiling, Qfloor. by destruct (this q). }
  unfold Qclt, Qcle, Qc_of_Z. simpl. rewrite !Qred_correct.
  split; [apply Qceiling_lt|apply Qle_ceiling].
Qed.

(** C9: from the validated thresholds, [j_max] and [L], [summarize] takes
    as [max_threshold] the greatest [N0] over the window rows, as
    [N0_star] the ceiling of [2^L * max_threshold] in exact rational
    arithmetic, and as [J_star] the sum [j_max + L]. *)
Theorem summarize_correct (rows : list Validator.WindowRow)
    (funnel_rows : list (Z * Z)) (modulus_power modulus : Z)
    (thresholds : list Qc) (W : gset Z) (j_max max_K L : Z)
    (records : list (Z * Z)) :
  Validator.validate_windows rows modulus_power
  = Ok (thresholds, W, j_max, max_K) →
  Validator.validate_funnels funnel_rows W modulus = Ok (L, records) →
  rows ≠ [] →
  ∃ s, Validator.summarize thresholds j_max L modulus = Ok s
    ∧ (∃ row, row ∈ rows
              ∧ Validator.max_window_threshold s = Validator.N0 row)
    ∧ (∀ row, row ∈ rows →
         (Validator.N0 row <= Validator.max_window_threshold s)%Qc)
    ∧ (Qc_of_Z (Validator.N0_star s - 1)
         < Qc_of_Z (2 ^ L) * Validator.max_window_threshold s)%Qc
    ∧ (Qc_of_Z (2 ^ L) * Validator.max_window_threshold s
         <= Qc_of_Z (Validator.N0_star s))%Qc
    ∧ Validator.J_star s = j_max + L
    ∧ Validator.j_max s = j_max
    ∧ Validator.L s = L.
Proof.
  intros Hw Hf Hne.
  apply validate_windows_Ok in Hw as (_ & -> & _).
  apply validate_funnels_depth_nonneg in Hf.
  destruct (py_max_spec (Validator.N0 <$> rows)) as (m & Hm & Hin & Hmax).
  { by destruct rows. }
  unfold Validator.summarize. rewrite Hm, bind_Ok, py_shl_ok, bind_Ok by done.
  eexists. split; [reflexivity|]. simpl.
  split; [|split].
  - apply list_elem_of_fmap in Hin as (row & -> & ?). by exists row.
  - intros row Hrow. apply Hmax. by apply list_elem_of_fmap_2.
  - destruct (ceil_fraction_spec (Qc_of_Z (2 ^ L) * m)%Qc). done.
Qed.

Lemma summarize_correct_witness :
  ∃ s, Validator.summarize [Q2Qc (1 # 5); Q2Qc (5 # 7); Q2Qc (1 # 13)]
         2 2 32 = Ok s
    ∧ (∃ row, row ∈ three_window_rows
              ∧ Validator.max_window_threshold s = Validator.N0 row)
    ∧ (∀ row, row ∈ three_window_rows →
         (Validator.N0 row <= Validator.max_window_threshold s)%Qc)
    ∧ (Qc_of_Z (Validator.N0_star s - 1)
         < Qc_of_Z (2 ^ 2) * Validator.max_window_threshold s)%Qc
    ∧ (Qc_of_Z (2 ^ 2) * Validator.max_window_threshold s
         <= Qc_of_Z (Validator.N0_star s))%Qc
    ∧ Validator.J_star s = 2 + 2
    ∧ Validator.j_max s = 2
    ∧ Validator.L s = 2.
Proof.
  apply (summarize_correct three_window_rows three_funnel_rows 5 32
           [Q2Qc (1 # 5); Q2Qc (5 # 7); Q2Qc (1 # 13)] {[13; 19; 5]} 2 4 2
           three_funnel_rows).
  - vm_compute. do 4 f_equal.
    f_equal; [by apply Qc_is_canon|].
    f_equal; [by apply Qc_is_canon|].
    f_equal. by apply Qc_is_canon.
  - vm_compute. reflexivity.
  - discriminate.
Defined.

(** On the three rows the maximum is [5/7], met in the middle of the list,
    and [2^2 * 5/7 = 20/7] is rounded up to 3. *)
Example summarize_three_rows :
  (λ r, match r with
        | Ok s => Some (this (Validator.max_window_threshold s),
                        Validator.N0_star s, Validator.J_star s)
        | Raise _ => None
        end)
    (Validator.summarize (Validator.N0 <$> three_window_rows) 2 2 32)
  = Some ((5 # 7)%Q, 3, 4).
Proof. vm_compute. reflexivity. Qed.

Example summarize_example :
  (λ r, match r with
        | Ok s => Some (Validator.N0_star s, Validator.J_star s)
        | Raise _ => None
        end) (Validator.summarize [Q2Qc (5 # 3); Q2Qc (7 # 2); Q2Qc 1] 4 2 8)
  = Some (14, 6).
Proof. reflexivity. Qed.

Example summarize_empty : Validator.summarize [] 0 0 8 = Raise EmptyMax.
Proof. reflexivity. Qed.

(** ** The accelerated step never shifts by a negative count *)

Lemma lowest_bit_nonzero (n : nat) :
  ∀ v, Z.abs v < Z.of_nat n → v ≠ 0 → Z.land v (- v) ≠ 0.
Proof.
  induction n as [|n IH]; intros v Hv Hnz; [lia|].
  destruct (Z.odd v) eqn:Hodd.
  - intros E.
    assert (Z.testbit (Z.land v (- v)) 0 = true) as Hbit.
    { by rewrite Z.land_spec, !Z.bit0_odd, Z.odd_opp, Hodd. }
    rewrite E in Hbit. by rewrite Z.bits_0 in Hbit.
  - pose proof (Z.div2_odd v) as Hv2. rewrite Hodd in Hv2. simpl in Hv2.
    rewrite Z.add_0_r in Hv2.
    set (w := Z.div2 v) in *.
    assert (Z.land v (- v) = Z.shiftl (Z.land w (- w)) 1) as ->.
    { rewrite Z.shiftl_land, !Z.shiftl_mul_pow2 by lia.
      f_equal; lia. }
    rewrite Z.shiftl_mul_pow2 by lia.
    assert (Z.land w (- w) ≠ 0) by (apply IH; lia). lia.
Qed.

Lemma accelerated_shift_nonneg (residue : Z) :
  0 ≤ bit_length (Z.land (3 * residue + 1) (- (3 * residue + 1))) - 1.
Proof.
  pose proof (lowest_bit_nonzero (S (Z.to_nat (Z.abs (3 * residue + 1))))
                (3 * residue + 1) ltac:(lia) ltac:(lia)) as Hnz.
  unfold bit_length.
  destruct (Z.eqb_spec (Z.land (3 * residue + 1) (- (3 * residue + 1))) 0);
    [done|].
  pose proof (Z.log2_nonneg
                (Z.abs (Z.land (3 * residue + 1) (- (3 * residue + 1))))).
  lia.
Qed.

(** The generator and the validator use the same step. *)
Lemma accelerated_step_same (x modulus : Z) :
  Validator.accelerated_step x modulus = Funnels.accelerated_step x modulus.
Proof. reflexivity. Qed.

Example accelerated_step_7 : Funnels.accelerated_step 7 8 = 3.
Proof. reflexivity. Qed.

Example accelerated_step_5 : Funnels.accelerated_step 5 262144 = 1.
Proof. reflexivity. Qed.

(** * Further properties of the code *)

(** ** The accelerated step strips every factor of two *)

Lemma lowest_bit_odd (a : Z) : Z.odd a = true → Z.land a (- a) = 1.
Proof.
  intros Hodd. apply Z.bits_inj'. intros n Hn.
  rewrite Z.land_spec, Z.bits_opp by done.
  pose proof (Z.div2_odd a) as Ha. rewrite Hodd in Ha. simpl in Ha.
  set (b := Z.div2 a) in *.
  destruct (Z.eq_dec n 0) as [->|Hnz].
  - rewrite Ha at 1. rewrite Z.testbit_odd_0.
    replace (Z.pred a) with (2 * b) by lia. by rewrite Z.testbit_even_0.
  - replace n with (Z.succ (n - 1)) by lia.
    rewrite Ha at 1. rewrite Z.testbit_odd_succ by lia.
    replace (Z.pred a) with (2 * b) by lia.
    rewrite Z.testbit_even_succ by lia.
    change (Z.testbit 1) with (Z.testbit (2 * 0 + 1)).
    rewrite Z.testbit_odd_succ, Z.bits_0 by lia.
    by destruct (Z.testbit b (n - 1)).
Qed.

Lemma lowest_bit_pow2 (m k : Z) :
  Z.odd m = true → 0 ≤ k → Z.land (m * 2 ^ k) (- (m * 2 ^ k)) = 2 ^ k.
Proof.
  intros Hm Hk. rewrite <- Z.mul_opp_l, <- !Z.shiftl_mul_pow2 by done.
  rewrite <- Z.shiftl_land, lowest_bit_odd by done.
  by rewrite Z.shiftl_1_l.
Qed.

(** Every non-zero integer is an odd number times a power of two. *)
Lemma odd_part_exists (n : nat) :
  ∀ v, Z.abs v < Z.of_nat n → v ≠ 0 →
    ∃ k m, 0 ≤ k ∧ Z.odd m = true ∧ v = m * 2 ^ k.
Proof.
  induction n as [|n IH]; intros v Hv Hnz; [lia|].
  destruct (Z.odd v) eqn:Hodd.
  - exists 0, v. split; [done|]. split; [done|]. simpl. lia.
  - pose proof (Z.div2_odd v) as Hv2. rewrite Hodd in Hv2. simpl in Hv2.
    destruct (IH (Z.div2 v)) as (k & m & Hk & Hm & Hw); [lia..|].
    exists (k + 1), m. split; [lia|]. split; [done|].
    rewrite Z.pow_add_r by lia. lia.
Qed.

Lemma odd_part_unique (m m' k k' : Z) :
  Z.odd m = true → Z.odd m' = true → 0 ≤ k → 0 ≤ k' →
  m * 2 ^ k = m' * 2 ^ k' → m = m' ∧ k = k'.
Proof.
  intros Hm Hm' Hk Hk' Heq.
  assert (2 ^ k = 2 ^ k') as Hpow.
  { rewrite <- (lowest_bit_pow2 m k), <- (lowest_bit_pow2 m' k') by done.
    by rewrite Heq. }
  assert (k = k') as <-.
  { apply (Z.pow_inj_r 2); lia. }
  split; [|done]. pose proof (pow2_pos k Hk). nia.
Qed.

(** The step on an argument whose [3 x + 1] is [m * 2^k] with [m] odd. *)
Lemma accelerated_step_odd_part (x modulus m k : Z) :
  Z.odd m = true → 0 ≤ k → 3 * x + 1 = m * 2 ^ k →
  Funnels.accelerated_step x modulus = m mod modulus.
Proof.
  intros Hm Hk Hx. unfold Funnels.accelerated_step. rewrite Hx.
  rewrite lowest_bit_pow2 by done.
  pose proof (pow2_pos k Hk) as Hpos.
  unfold bit_length. destruct (Z.eqb_spec (2 ^ k) 0); [lia|].
  rewrite Z.abs_eq, Z.log2_pow2 by lia.
  replace (k + 1 - 1) with k by lia.
  rewrite Z.shiftr_div_pow2, Z.div_mul by lia. done.
Qed.

Lemma accelerated_step_factor (x modulus : Z) :
  ∃ k m, 0 ≤ k ∧ Z.odd m = true ∧ 3 * x + 1 = m * 2 ^ k
    ∧ Funnels.accelerated_step x modulus = m mod modulus.
Proof.
  destruct (odd_part_exists (S (Z.to_nat (Z.abs (3 * x + 1)))) (3 * x + 1))
    as (k & m & Hk & Hm & Hx); [lia..|].
  exists k, m. split; [done|]. split; [done|]. split; [done|].
  by apply (accelerated_step_odd_part x modulus m k).
Qed.

(** X1: for a non-zero [modulus] (on 0 the final [%] raises
    [ZeroDivisionError]), one accelerated step divides [3 x + 1] by the
    largest power of two that divides it and reduces the odd quotient
    modulo [modulus]; the validator's copy of the step computes the same
    value. *)
Theorem accelerated_step_strips_twos (x modulus : Z) :
  modulus ≠ 0 →
  ∃ k m, 0 ≤ k ∧ Z.odd m = true ∧ 3 * x + 1 = m * 2 ^ k
    ∧ Funnels.accelerated_step x modulus = m mod modulus
    ∧ Validator.accelerated_step x modulus = m mod modulus.
Proof.
  intros _.
  destruct (accelerated_step_factor x modulus) as (k & m & Hk & Hm & Hx & Hstep).
  exists k, m. split; [done|]. split; [done|]. split; [done|].
  split; [done|]. by rewrite accelerated_step_same.
Qed.

Lemma accelerated_step_strips_twos_witness :
  ∃ k m, 0 ≤ k ∧ Z.odd m = true ∧ 3 * 9 + 1 = m * 2 ^ k
    ∧ Funnels.accelerated_step 9 4 = m mod 4
    ∧ Validator.accelerated_step 9 4 = m mod 4.
Proof. apply (accelerated_step_strips_twos 9 4). lia. Defined.

Lemma odd_mod_2 (m : Z) : Z.odd m = true → m mod 2 = 1.
Proof. intros Hm. by rewrite Zmod_odd, Hm. Qed.

Lemma accelerated_step_bounds (x modulus : Z) :
  0 < modulus → 0 ≤ Funnels.accelerated_step x modulus < modulus.
Proof. intros Hm. by apply Z.mod_pos_bound. Qed.

Lemma accelerated_step_is_odd (x modulus : Z) :
  0 < modulus → (2 | modulus) →
  Funnels.accelerated_step x modulus mod 2 = 1.
Proof.
  intros Hm H2.
  destruct (accelerated_step_factor x modulus)
    as (k & m & _ & Hodd & _ & ->).
  rewrite Z.mod_mod_divide by done. by apply odd_mod_2.
Qed.

(** X2: with a working modulus [2^modulus_power], [modulus_power >= 1],
    every value reached after at least one accelerated step is an odd
    residue of [[0, modulus)], whatever the start. *)
Theorem steps_stay_odd_residues (modulus_power x : Z) (d : nat) :
  1 ≤ modulus_power → (1 ≤ d)%nat →
  0 ≤ steps (2 ^ modulus_power) d x < 2 ^ modulus_power
  ∧ steps (2 ^ modulus_power) d x mod 2 = 1.
Proof.
  intros Hmp Hd. destruct d as [|d]; [lia|].
  pose proof (pow2_pos modulus_power ltac:(lia)) as Hpos.
  unfold steps. cbn [Nat.iter]. split.
  - by apply accelerated_step_bounds.
  - apply accelerated_step_is_odd; [done|].
    change 2 with (2 ^ 1) at 1. apply pow2_divide. lia.
Qed.

Lemma steps_stay_odd_residues_witness :
  0 ≤ steps (2 ^ 3) 2 7 < 2 ^ 3 ∧ steps (2 ^ 3) 2 7 mod 2 = 1.
Proof. apply (steps_stay_odd_residues 3 7 2); lia. Defined.

(** ** The accelerated step and the Collatz map *)

Lemma collatz_next_odd (x : Z) :
  Z.odd x = true → FiniteCheck.collatz_next x = 3 * x + 1.
Proof.
  intros Hx. unfold FiniteCheck.collatz_next.
  by rewrite (odd_mod_2 x Hx).
Qed.

Lemma collatz_next_double (y : Z) : FiniteCheck.collatz_next (y * 2) = y.
Proof.
  unfold FiniteCheck.collatz_next.
  rewrite Z.mod_mul, Z.div_mul by lia. done.
Qed.

Lemma collatz_iter_S (d : nat) (x : Z) :
  collatz_iter (S d) x = FiniteCheck.collatz_next (collatz_iter d x).
Proof. reflexivity. Qed.

Lemma collatz_iter_S_r (d : nat) (x : Z) :
  collatz_iter (S d) x = collatz_iter d (FiniteCheck.collatz_next x).
Proof. unfold collatz_iter. by rewrite Nat.iter_succ_r. Qed.

(** Halving [m * 2^k] step by step. *)
Lemma collatz_iter_halvings (k : nat) :
  ∀ (i : nat) m, (i ≤ k)%nat →
    collatz_iter i (m * 2 ^ Z.of_nat k) = m * 2 ^ Z.of_nat (k - i).
Proof.
  intros i. induction i as [|i IH]; intros m Hi.
  - by rewrite Nat.sub_0_r.
  - rewrite collatz_iter_S, IH by lia.
    replace (Z.of_nat (k - i)) with (Z.of_nat (k - S i) + 1) by lia.
    rewrite Z.pow_add_r, Z.mul_assoc by lia.
    apply collatz_next_double.
Qed.

(** X3: on an odd [x] and for a non-zero [modulus] (on 0 the final [%]
    raises [ZeroDivisionError]), the accelerated step is the Collatz map
    iterated up to the next odd value: one [3 x + 1] step followed by [k]
    halvings, [2^k] being the largest power of two dividing [3 x + 1]; the
    result is then reduced modulo [modulus]. *)
Theorem accelerated_step_is_collatz (x modulus : Z) :
  Z.odd x = true →
  modulus ≠ 0 →
  ∃ k : nat,
    (∀ i : nat, (i ≤ k)%nat →
       collatz_iter (S i) x * 2 ^ Z.of_nat i = 3 * x + 1)
    ∧ Z.odd (collatz_iter (S k) x) = true
    ∧ Funnels.accelerated_step x modulus = collatz_iter (S k) x mod modulus.
Proof.
  intros Hx _.
  destruct (accelerated_step_factor x modulus)
    as (k & m & Hk & Hm & Hv & Hstep).
  exists (Z.to_nat k).
  assert (∀ i : nat, (i ≤ Z.to_nat k)%nat →
            collatz_iter (S i) x = m * 2 ^ Z.of_nat (Z.to_nat k - i)) as Hit.
  { intros i Hi. rewrite collatz_iter_S_r.
    rewrite collatz_next_odd, Hv by done.
    rewrite <- (Z2Nat.id k) at 1 by done.
    by apply collatz_iter_halvings. }
  split; [|split].
  - intros i Hi. rewrite Hit, Hv, <- Z.mul_assoc, <- Z.pow_add_r by lia.
    do 2 f_equal. lia.
  - rewrite Hit, Nat.sub_diag by lia. simpl. by rewrite Z.mul_1_r.
  - rewrite Hit, Nat.sub_diag by lia. simpl. by rewrite Z.mul_1_r.
Qed.

Lemma accelerated_step_is_collatz_witness :
  ∃ k : nat,
    (∀ i : nat, (i ≤ k)%nat →
       collatz_iter (S i) 5 * 2 ^ Z.of_nat i = 3 * 5 + 1)
    ∧ Z.odd (collatz_iter (S k) 5) = true
    ∧ Funnels.accelerated_step 5 8 = collatz_iter (S k) 5 mod 8.
Proof. apply (accelerated_step_is_collatz 5 8); [reflexivity|lia]. Defined.

(** ** Integers inside the fractions *)

Lemma this_Qc_of_Z (a : Z) : (this (Qc_of_Z a) == inject_Z a)%Q.
Proof. unfold Qc_of_Z, Q2Qc. cbn [this]. apply Qred_correct. Qed.

Lemma Qc_of_Z_add (a b : Z) : Qc_of_Z (a + b) = (Qc_of_Z a + Qc_of_Z b)%Qc.
Proof.
  apply Qc_is_canon. unfold Qcplus, Q2Qc. cbn [this].
  rewrite Qred_correct, !this_Qc_of_Z, inject_Z_plus. reflexivity.
Qed.

Lemma Qc_of_Z_mul (a b : Z) : Qc_of_Z (a * b) = (Qc_of_Z a * Qc_of_Z b)%Qc.
Proof.
  apply Qc_is_canon. unfold Qcmult, Q2Qc. cbn [this].
  rewrite Qred_correct, !this_Qc_of_Z, inject_Z_mult. reflexivity.
Qed.

Lemma Qc_of_Z_lt (a b : Z) : (Qc_of_Z a < Qc_of_Z b)%Qc ↔ a < b.
Proof. unfold Qclt. rewrite !this_Qc_of_Z, Zlt_Qlt. reflexivity. Qed.

Lemma Qc_of_Z_inj (a b : Z) : Qc_of_Z a = Qc_of_Z b → a = b.
Proof.
  intros H. apply (f_equal this) in H.
  assert (inject_Z a == inject_Z b)%Q as E.
  { rewrite <- !this_Qc_of_Z, H. reflexivity. }
  unfold Qeq in E. simpl in E. lia.
Qed.

Lemma Qc_of_Z_nonzero (a : Z) : a ≠ 0 → Qc_of_Z a ≠ 0%Qc.
Proof. intros Ha E. apply Ha. by apply Qc_of_Z_inj. Qed.

Lemma Qc_of_Z_sub (a b : Z) : Qc_of_Z (a - b) = (Qc_of_Z a - Qc_of_Z b)%Qc.
Proof.
  assert (Qc_of_Z a = Qc_of_Z (a - b) + Qc_of_Z b)%Qc as ->.
  { rewrite <- Qc_of_Z_add. f_equal. lia. }
  ring.
Qed.

(** ** What a window certifies *)

Lemma steps_S (modulus : Z) (d : nat) (x : Z) :
  steps modulus (S d) x
  = Funnels.accelerated_step (steps modulus d x) modulus.
Proof. reflexivity. Qed.

Lemma c_prefix_nonneg (q : list Z) (t : nat) : 0 ≤ c_prefix q t.
Proof.
  induction t as [|t IH]; simpl; [done|].
  pose proof (Z.pow_nonneg 2 (K_prefix q t) ltac:(lia)). lia.
Qed.

Lemma K_prefix_le_total (q : list Z) (t : nat) :
  Forall (λ s, 0 < s) q → (t ≤ length q)%nat → K_prefix q t ≤ sumZ q.
Proof.
  intros Hq Ht. rewrite <- (take_drop t q) at 2. rewrite sumZ_app.
  assert (0 ≤ sumZ (drop t q)); [|unfold K_prefix; lia].
  apply sumZ_nonneg. eapply Forall_impl; [by apply Forall_drop|].
  simpl. lia.
Qed.

(** The congruences only depend on the class of the residue modulo
    [2^(K+1)]. *)
Lemma cong_at_class (q : list Z) (r n : Z) (t : nat) :
  Forall (λ s, 0 < s) q → (t ≤ length q)%nat →
  (2 ^ (sumZ q + 1) | n - r) → cong_at q r t → cong_at q n t.
Proof.
  unfold cong_at. intros Hq Ht Hn Hr.
  replace (3 ^ Z.of_nat t * n + c_prefix q t - 2 ^ K_prefix q t)
    with ((3 ^ Z.of_nat t * r + c_prefix q t - 2 ^ K_prefix q t)
          + 3 ^ Z.of_nat t * (n - r)) by ring.
  apply Z.divide_add_r; [done|]. apply Z.divide_mul_r.
  eapply Z.divide_trans; [|exact Hn]. apply pow2_divide.
  pose proof (K_prefix_nonneg q t Hq).
  pose proof (K_prefix_le_total q t Hq Ht). lia.
Qed.

(** A solution of the congruence of length [t] makes [3^t n + c_t] an odd
    multiple of [2^(K_t)]. *)
Lemma cong_at_odd_quotient (q : list Z) (n : Z) (t : nat) :
  0 ≤ K_prefix q t → cong_at q n t →
  ∃ x, Z.odd x = true
       ∧ 3 ^ Z.of_nat t * n + c_prefix q t = x * 2 ^ K_prefix q t.
Proof.
  unfold cong_at. intros HK [z Hz]. exists (1 + 2 * z). split.
  - by rewrite Z.odd_add_mul_2.
  - rewrite Z.pow_add_r in Hz by lia. lia.
Qed.

(** The trajectory of a member [n] of the residue class of a window, under
    a working modulus large enough never to reduce a value. *)
Lemma window_trajectory (pattern : list Z) (r n modulus : Z) :
  Forall (λ s, 0 < s) pattern →
  (∀ t, (t ≤ length pattern)%nat → cong_at pattern r t) →
  (2 ^ (sumZ pattern + 1) | n - r) →
  0 < n →
  3 ^ Z.of_nat (length pattern) * n + c_prefix pattern (length pattern)
    < modulus →
  ∀ t, (t ≤ length pattern)%nat →
    0 < steps modulus t n
    ∧ steps modulus t n * 2 ^ K_prefix pattern t
      = 3 ^ Z.of_nat t * n + c_prefix pattern t.
Proof.
  intros Hpos Hcong Hclass Hn Hbig.
  assert (∀ t, (t ≤ length pattern)%nat →
            3 ^ Z.of_nat t * n + c_prefix pattern t < modulus) as Hbound.
  { intros t Ht.
    replace (length pattern) with (t + (length pattern - t))%nat in Hbig
      by lia.
    revert Hbig. generalize (length pattern - t)%nat. intros d.
    induction d as [|d IH]; [by rewrite Nat.add_0_r|].
    intros Hbig. apply IH. eapply Z.le_lt_trans; [|exact Hbig].
    replace (t + S d)%nat with (S (t + d)) by lia.
    rewrite Nat2Z.inj_succ, Z.pow_succ_r by lia. cbn [c_prefix].
    pose proof (c_prefix_nonneg pattern (t + d)).
    pose proof (Z.pow_nonneg 2 (K_prefix pattern (t + d)) ltac:(lia)).
    pose proof (Z.pow_pos_nonneg 3 (Z.of_nat (t + d)) ltac:(lia) ltac:(lia)).
    nia. }
  assert (∀ t, (t ≤ length pattern)%nat →
            ∃ x, Z.odd x = true ∧ 0 < x < modulus
                 ∧ 3 ^ Z.of_nat t * n + c_prefix pattern t
                   = x * 2 ^ K_prefix pattern t) as Hquot.
  { intros t Ht.
    pose proof (K_prefix_nonneg pattern t Hpos) as HK.
    destruct (cong_at_odd_quotient pattern n t HK) as (x & Hodd & Hx).
    { apply (cong_at_class pattern r); try done. by apply Hcong. }
    exists x. split; [done|]. split; [|done].
    pose proof (Hbound t Ht). pose proof (pow2_pos _ HK).
    pose proof (c_prefix_nonneg pattern t).
    pose proof (Z.pow_pos_nonneg 3 (Z.of_nat t) ltac:(lia) ltac:(lia)).
    nia. }
  intros t. induction t as [|t IH]; intros Ht.
  - unfold steps. simpl. rewrite K_prefix_0. simpl. lia.
  - destruct (IH ltac:(lia)) as [_ IHt].
    destruct (Hquot t ltac:(lia)) as (x & Hx & Hxr & Hxe).
    destruct (Hquot (S t) Ht) as (y & Hy & Hyr & Hye).
    pose proof (K_prefix_nonneg pattern t Hpos) as HK.
    pose proof (pow2_pos _ HK) as Hp.
    assert (steps modulus t n = x) as Hst by nia.
    assert (K_prefix pattern t ≤ K_prefix pattern (S t)) as Hmono.
    { destruct (lookup_lt_is_Some_2 pattern t) as [s Hs]; [lia|].
      rewrite (K_prefix_S _ _ _ Hs).
      assert (0 < s); [|lia].
      eapply Forall_forall in Hpos; [exact Hpos|].
      by eapply list_elem_of_lookup_2. }
    assert (3 * x + 1
            = y * 2 ^ (K_prefix pattern (S t) - K_prefix pattern t)) as Hnext.
    { apply (Z.mul_cancel_r _ _ (2 ^ K_prefix pattern t)); [lia|].
      rewrite <- Z.mul_assoc, <- Z.pow_add_r by lia.
      replace (K_prefix pattern (S t) - K_prefix pattern t
               + K_prefix pattern t) with (K_prefix pattern (S t)) by lia.
      rewrite <- Hye. cbn [c_prefix].
      rewrite Nat2Z.inj_succ, Z.pow_succ_r by lia. lia. }
    assert (steps modulus (S t) n = y) as ->.
    { rewrite steps_S, Hst.
      rewrite (accelerated_step_odd_part x modulus y
                 (K_prefix pattern (S t) - K_prefix pattern t) Hy
                 ltac:(lia) Hnext).
      apply Z.mod_small. lia. }
    split; [lia|]. by rewrite Hye.
Qed.

Lemma Qc_div_lt_Z (c d n : Z) :
  0 < d → (Qc_of_Z c / Qc_of_Z d < Qc_of_Z n)%Qc ↔ c < n * d.
Proof.
  intros Hd. unfold Qclt. rewrite this_div, this_Qc_of_Z.
  pose proof (inject_Z_pos d Hd) as Hd'.
  rewrite Zlt_Qlt, inject_Z_mult. split.
  - intros H. apply (Qmult_lt_compat_r _ _ _ Hd') in H.
    rewrite Qmult_comm, Qmult_div_r in H; [done|].
    intros E. rewrite E in Hd'. by apply Qlt_irrefl in Hd'.
  - intros H. by apply Qlt_shift_div_r.
Qed.

(** The threshold of a record in closed form. *)
Lemma base_record_threshold (pattern : list Z) (r : Z) :
  0 ≤ sumZ pattern →
  3 ^ Z.of_nat (length pattern) < 2 ^ sumZ pattern →
  Windows.N0 (base_record pattern r)
  = (Qc_of_Z (c_prefix pattern (length pattern))
     / Qc_of_Z (2 ^ sumZ pattern - 3 ^ Z.of_nat (length pattern)))%Qc.
Proof.
  intros HK Hlt. unfold base_record. cbn [Windows.N0].
  pose proof (pow2_pos _ HK) as Hpos.
  rewrite Qc_of_Z_sub.
  pose proof (Qc_of_Z_nonzero (2 ^ sumZ pattern) ltac:(lia)) as Hk.
  assert (Qc_of_Z (2 ^ sumZ pattern)
          - Qc_of_Z (3 ^ Z.of_nat (length pattern)) ≠ 0)%Qc as Hd.
  { rewrite <- Qc_of_Z_sub. apply Qc_of_Z_nonzero. lia. }
  field. split; [exact Hd|exact Hk].
Qed.

(** X4: what a window certifies.  Let [rec] be the record of a pattern of
    positive valuations and [n > 0] an integer of its residue class
    ([n = exact_residue] modulo [2^(K+1)]).  Under a working modulus above
    [3^j n + c_j], so that no value is reduced, [j] accelerated steps take
    [n] to [(3^j n + c_j) / 2^K], which is [A n + B]; and this value is
    below [n] exactly when [n] exceeds the threshold [N0]. *)
Theorem window_descent (pattern : list Z) (rec : Windows.WindowRecord)
    (n modulus : Z) :
  Forall (λ s, 0 < s) pattern →
  Windows.record_from_pattern pattern = Ok (Some rec) →
  0 < n →
  n mod 2 ^ (Windows.K rec + 1) = Windows.exact_residue rec →
  3 ^ Windows.j rec * n + c_prefix pattern (length pattern) < modulus →
  let y := steps modulus (length pattern) n in
  y * 2 ^ Windows.K rec
  = 3 ^ Windows.j rec * n + c_prefix pattern (length pattern)
  ∧ Qc_of_Z y = (Windows.A rec * Qc_of_Z n + Windows.B rec)%Qc
  ∧ ((Windows.N0 rec < Qc_of_Z n)%Qc ↔ y < n).
Proof.
  intros Hpos Hrec Hn Hclass Hbig y.
  apply record_from_pattern_inv in Hrec
    as (r & Hsolve & Hne & HK & Hlt & Hr & ->).
  cbn [base_record Windows.K Windows.j Windows.exact_residue Windows.A
       Windows.B] in *.
  destruct (solve_residue_positive pattern Hne Hpos) as (r' & Hsolve' & _ & Hc).
  assert (r' = r) as -> by congruence.
  pose proof (pow2_pos _ HK) as Hpow.
  assert (2 ^ (sumZ pattern + 1) | n - r) as Hdiv.
  { rewrite <- Hclass. exists (n / 2 ^ (sumZ pattern + 1)).
    rewrite (Z.mod_eq n (2 ^ (sumZ pattern + 1))); [ring|].
    pose proof (pow2_pos (sumZ pattern + 1)). lia. }
  destruct (window_trajectory pattern r n modulus Hpos Hc Hdiv Hn Hbig
              (length pattern) ltac:(lia)) as [Hy0 Hy].
  rewrite K_prefix_full in Hy. fold y in Hy0, Hy.
  split; [done|]. split.
  - apply (f_equal Qc_of_Z) in Hy.
    rewrite Qc_of_Z_add, !Qc_of_Z_mul in Hy.
    pose proof (Qc_of_Z_nonzero (2 ^ sumZ pattern) ltac:(lia)) as Hk.
    assert (Qc_of_Z y
            = (Qc_of_Z (3 ^ Z.of_nat (length pattern)) * Qc_of_Z n
               + Qc_of_Z (c_prefix pattern (length pattern)))
              / Qc_of_Z (2 ^ sumZ pattern))%Qc as ->.
    { rewrite <- Hy. field. exact Hk. }
    field. exact Hk.
  - rewrite base_record_threshold by done.
    rewrite Qc_div_lt_Z by lia. nia.
Qed.

Lemma window_descent_witness :
  let rec := base_record [2] 1 in
  let y := steps 64 (length [2]) 9 in
  y * 2 ^ 2 = 3 ^ 1 * 9 + c_prefix [2] (length [2])
  ∧ Qc_of_Z y = (Windows.A rec * Qc_of_Z 9 + Windows.B rec)%Qc
  ∧ ((Windows.N0 rec < Qc_of_Z 9)%Qc ↔ y < 9).
Proof.
  apply (window_descent [2] (base_record [2] 1) 9 64).
  - repeat constructor.
  - vm_compute. reflexivity.
  - lia.
  - reflexivity.
  - vm_compute. reflexivity.
Defined.

(** ** The domain of [solve_residue] *)

Lemma solve_step_negative (K_t c_t r0 idx s : Z) :
  K_t + s < 0 →
  Windows.solve_step (K_t, c_t, r0) idx s = Raise NegativeShiftCount.
Proof.
  intros Hneg. unfold Windows.solve_step.
  destruct (Z.ltb_spec (K_t + s + 1) 0) as [H1|H1].
  { by rewrite (py_shl_neg 1 (K_t + s + 1)). }
  rewrite (py_shl_ok (K_t + s + 1)), bind_Ok by done.
  destruct (Z.ltb_spec K_t 0) as [H2|H2].
  { by rewrite (py_shl_neg 1 K_t). }
  rewrite (py_shl_ok K_t), bind_Ok by done.
  by rewrite (py_shl_neg 1 (K_t + s)).
Qed.

(** The loop returns when every running sum ahead is non-negative and
    stops with the negative-shift error otherwise. *)
Lemma solve_loop_cases (q : list Z) :
  ∀ rest pre c r0, q = pre ++ rest → 0 ≤ K_prefix q (length pre) →
    match Windows.solve_loop (Z.of_nat (length pre)) rest
            (K_prefix q (length pre), c, r0) with
    | Ok _ => ∀ t, (length pre ≤ t ≤ length q)%nat → 0 ≤ K_prefix q t
    | Raise e =>
        e = NegativeShiftCount
        ∧ ∃ t, (length pre < t ≤ length q)%nat ∧ K_prefix q t < 0
    end.
Proof.
  intros rest. induction rest as [|s rest IH]; intros pre c r0 Hpre HK.
  - rewrite app_nil_r in Hpre. subst pre. simpl. intros t Ht.
    by replace t with (length q) by lia.
  - assert (q !! length pre = Some s) as Hs.
    { subst q. by rewrite list_lookup_middle. }
    assert (length pre < length q)%nat as Hlen.
    { subst q. rewrite length_app. simpl. lia. }
    pose proof (K_prefix_S q _ _ Hs) as HS.
    cbn [Windows.solve_loop].
    destruct (Z.ltb_spec (K_prefix q (S (length pre))) 0) as [Hneg|Hnn].
    + rewrite solve_step_negative by lia. rewrite bind_Raise.
      split; [done|]. exists (S (length pre)). split; [lia|done].
    + destruct (solve_step_ok (K_prefix q (length pre)) c r0
                  (Z.of_nat (length pre)) s) as (r1 & -> & _); [lia..|].
      rewrite bind_Ok, <- HS.
      specialize (IH (pre ++ [s])). rewrite <- app_assoc in IH.
      specialize (IH (3 * c + 2 ^ K_prefix q (length pre)) r1 Hpre).
      rewrite length_app in IH. simpl in IH.
      replace (length pre + 1)%nat with (S (length pre)) in IH by lia.
      replace (Z.of_nat (length pre) + 1) with (Z.of_nat (S (length pre)))
        by lia.
      specialize (IH Hnn).
      destruct (Windows.solve_loop _ _ _) as [st|e].
      * intros t Ht. destruct (decide (t = length pre)) as [->|]; [done|].
        apply IH. lia.
      * destruct IH as [-> (t & Ht & Hneg)]. split; [done|].
        exists t. split; [lia|done].
Qed.

Lemma solve_residue_cases (pattern : list Z) :
  match Windows.solve_residue pattern with
  | Ok _ => ∀ t, (t ≤ length pattern)%nat → 0 ≤ K_prefix pattern t
  | Raise e =>
      e = NegativeShiftCount
      ∧ ∃ t, (t ≤ length pattern)%nat ∧ K_prefix pattern t < 0
  end.
Proof.
  pose proof (solve_loop_cases pattern pattern [] 0 0 eq_refl) as H.
  change (Windows.solve_loop (Z.of_nat (length [])) pattern
            (K_prefix pattern (length []), 0, 0))
    with (Windows.solve_loop 0 pattern (0, 0, 0)) in H.
  specialize (H ltac:(done)). unfold Windows.solve_residue.
  destruct (Windows.solve_loop 0 pattern (0, 0, 0)) as [[[K c] r]|e].
  - rewrite bind_Ok. intros t Ht. apply H. simpl. lia.
  - rewrite bind_Raise. destruct H as [-> (t & Ht & Hneg)].
    split; [done|]. exists t. split; [lia|done].
Qed.

Lemma solve_residue_prefix_nonneg (pattern : list Z) (r K : Z) (t : nat) :
  Windows.solve_residue pattern = Ok (r, K) → (t ≤ length pattern)%nat →
  0 ≤ K_prefix pattern t.
Proof.
  intros H Ht. pose proof (solve_residue_cases pattern) as Hc.
  rewrite H in Hc. by apply Hc.
Qed.

(** X5: [solve_residue] returns exactly on the patterns whose running sums
    [s_1 + ... + s_t] are all non-negative (zero entries are accepted, the
    empty pattern gives [(0, 0)]); on every other pattern it raises, and
    the error is the negative-shift [ValueError]. *)
Theorem solve_residue_domain (pattern : list Z) :
  ((∃ r K, Windows.solve_residue pattern = Ok (r, K))
   ↔ ∀ t, (t ≤ length pattern)%nat → 0 ≤ K_prefix pattern t)
  ∧ (∀ e, Windows.solve_residue pattern = Raise e → e = NegativeShiftCount)
  ∧ Windows.solve_residue [] = Ok (0, 0).
Proof.
  pose proof (solve_residue_cases pattern) as H.
  destruct (Windows.solve_residue pattern) as [[r K]|e].
  - split; [|split; [done|done]]. split; [done|]. intros _. by exists r, K.
  - destruct H as [-> (t & Ht & Hneg)].
    split; [|split; [by intros e [= <-]|done]]. split.
    + by intros (r & K & ?).
    + intros Hall. specialize (Hall t Ht). lia.
Qed.

Lemma record_offset_positive (pattern : list Z) (r : Z) :
  Windows.solve_residue pattern = Ok (r, sumZ pattern) → pattern ≠ [] →
  0 < c_prefix pattern (length pattern).
Proof.
  intros Hsolve Hne. destruct (length pattern) as [|t] eqn:Hlen.
  { by destruct pattern. }
  cbn [c_prefix]. pose proof (c_prefix_nonneg pattern t).
  pose proof (solve_residue_prefix_nonneg pattern r _ t Hsolve
                ltac:(lia)) as HKt.
  pose proof (pow2_pos _ HKt). lia.
Qed.

Lemma record_threshold_positive (pattern : list Z)
    (rec : Windows.WindowRecord) :
  Windows.record_from_pattern pattern = Ok (Some rec) →
  (0 < Windows.N0 rec)%Qc.
Proof.
  intros Hrec.
  apply record_from_pattern_inv in Hrec
    as (r & Hsolve & Hne & HK & Hlt & Hr & ->).
  rewrite base_record_threshold by done.
  apply Qc_div_pos; [by eapply record_offset_positive|lia].
Qed.

(** X6: the threshold of a record is [c_j / (2^K - 3^j)], a positive
    rational. *)
Theorem threshold_closed_form (pattern : list Z)
    (rec : Windows.WindowRecord) :
  Windows.record_from_pattern pattern = Ok (Some rec) →
  let c_j := c_prefix pattern (length pattern) in
  Windows.N0 rec
  = (Qc_of_Z c_j / Qc_of_Z (2 ^ Windows.K rec - 3 ^ Windows.j rec))%Qc
  ∧ 0 < c_j
  ∧ 0 < 2 ^ Windows.K rec - 3 ^ Windows.j rec
  ∧ (0 < Windows.N0 rec)%Qc.
Proof.
  intros Hrec c_j. pose proof (record_threshold_positive _ _ Hrec) as Hpos.
  apply record_from_pattern_inv in Hrec
    as (r & Hsolve & Hne & HK & Hlt & Hr & ->).
  split; [by apply base_record_threshold|].
  split; [by eapply record_offset_positive|].
  cbn [base_record Windows.K Windows.j]. split; [lia|done].
Qed.

Lemma threshold_closed_form_witness :
  let rec := base_record [1; 3] 19 in
  let c_j := c_prefix [1; 3] (length [1; 3]) in
  Windows.N0 rec
  = (Qc_of_Z c_j / Qc_of_Z (2 ^ Windows.K rec - 3 ^ Windows.j rec))%Qc
  ∧ 0 < c_j
  ∧ 0 < 2 ^ Windows.K rec - 3 ^ Windows.j rec
  ∧ (0 < Windows.N0 rec)%Qc.
Proof.
  apply (threshold_closed_form [1; 3] (base_record [1; 3] 19)).
  vm_compute. reflexivity.
Defined.

(** ** Fractions as text: [format_fraction] and [parse_fraction] *)

Lemma Qc_of_Z_div_this (q : Qc) :
  (Qc_of_Z (Qnum (this q)) / Qc_of_Z (Z.pos (Qden (this q))))%Qc = q.
Proof.
  apply Qc_is_canon. rewrite this_div.
  destruct q as [[n d] Hq]. simpl. symmetry. apply Qmake_Qdiv.
Qed.

Lemma Qc_canon_gcd (q : Qc) : Z.gcd (Qnum (this q)) (Z.pos (Qden (this q))) = 1.
Proof.
  destruct q as [[n d] Hq]. simpl.
  pose proof (Qred_iff (n # d)) as [H _]. simpl in H. apply H.
  by apply Qred_identity2 || exact Hq.
Qed.

Lemma Fraction_nonzero (n d : Z) :
  d ≠ 0 → Fraction n d = Ok (Qc_of_Z n / Qc_of_Z d)%Qc.
Proof. intros Hd. unfold Fraction. by destruct (Z.eqb_spec d 0). Qed.

Lemma Qc_div_eq_cross (n d n' d' : Z) :
  d ≠ 0 → d' ≠ 0 →
  (Qc_of_Z n / Qc_of_Z d)%Qc = (Qc_of_Z n' / Qc_of_Z d')%Qc
  ↔ n * d' = n' * d.
Proof.
  intros Hd Hd'.
  pose proof (Qc_of_Z_nonzero d Hd) as Hqd.
  pose proof (Qc_of_Z_nonzero d' Hd') as Hqd'.
  split.
  - intros Heq. apply Qc_of_Z_inj. rewrite !Qc_of_Z_mul.
    transitivity ((Qc_of_Z n / Qc_of_Z d) * (Qc_of_Z d * Qc_of_Z d'))%Qc;
      [by field|].
    rewrite Heq. by field.
  - intros Heq. apply (f_equal Qc_of_Z) in Heq. rewrite !Qc_of_Z_mul in Heq.
    transitivity ((Qc_of_Z n * Qc_of_Z d') / (Qc_of_Z d * Qc_of_Z d'))%Qc;
      [by field|].
    rewrite Heq. by field.
Qed.

Lemma parse_format_fraction (q : Qc) :
  Csv.parse_fraction (Csv.format_fraction q) = Ok q.
Proof.
  pose proof (Qc_of_Z_div_this q) as Hq.
  unfold Csv.format_fraction.
  destruct (Z.eqb_spec (Z.pos (Qden (this q))) 1) as [Hden|Hden];
    cbn [Csv.parse_fraction]; rewrite Fraction_pos by lia.
  - rewrite Hden in Hq. by rewrite Hq.
  - by rewrite Hq.
Qed.

(** X7: a fraction written by [format_fraction] and read back by
    [parse_fraction] is the fraction itself; the text has no denominator
    exactly when the fraction is an integer, and otherwise shows the lowest
    terms with a denominator above 1. *)
Theorem fraction_text_round_trip (q : Qc) :
  Csv.parse_fraction (Csv.format_fraction q) = Ok q
  ∧ match Csv.format_fraction q with
    | Csv.Whole num => q = Qc_of_Z num
    | Csv.Ratio num den =>
        1 < den ∧ Z.gcd num den = 1 ∧ ∀ z, q ≠ Qc_of_Z z
    end.
Proof.
  pose proof (Qc_of_Z_div_this q) as Hq.
  pose proof (Qc_canon_gcd q) as Hgcd.
  unfold Csv.format_fraction.
  destruct (Z.eqb_spec (Z.pos (Qden (this q))) 1) as [Hden|Hden].
  - cbn [Csv.parse_fraction]. rewrite Fraction_pos by lia.
    rewrite Hden in Hq. split; [by rewrite Hq|].
    rewrite <- Hq at 1. apply Qc_is_canon. rewrite this_div, this_Qc_of_Z.
    change (inject_Z 1) with 1%Q. by field.
  - cbn [Csv.parse_fraction]. rewrite Fraction_pos by lia.
    split; [by rewrite Hq|]. split; [lia|]. split; [done|].
    intros z Hz. rewrite <- Hq in Hz.
    assert (Qc_of_Z z = (Qc_of_Z z / Qc_of_Z 1)%Qc) as Hz1.
    { apply Qc_is_canon. rewrite this_div, this_Qc_of_Z.
      change (inject_Z 1) with 1%Q. by field. }
    rewrite Hz1 in Hz. apply Qc_div_eq_cross in Hz; [|lia|lia].
    rewrite Z.mul_1_r in Hz.
    rewrite Hz, Z.gcd_comm, (Z.mul_comm z), Z.gcd_mul_diag_l in Hgcd; lia.
Qed.

(** X8: [parse_fraction] compares by value, not by text: two texts with
    non-zero denominators are read as the same fraction exactly when they
    cross-multiply to the same integer (so ["6/8"] is read as ["3/4"], and
    a negative denominator is accepted); a text without a denominator is
    read as the text over 1; a zero denominator raises
    [ZeroDivisionError]. *)
Theorem parse_fraction_by_value (num den num' den' : Z) :
  den ≠ 0 → den' ≠ 0 →
  (∃ x y, Csv.parse_fraction (Csv.Ratio num den) = Ok x
        ∧ Csv.parse_fraction (Csv.Ratio num' den') = Ok y
        ∧ (x = y ↔ num * den' = num' * den))
  ∧ Csv.parse_fraction (Csv.Whole num) = Csv.parse_fraction (Csv.Ratio num 1)
  ∧ Csv.parse_fraction (Csv.Ratio num 0) = Raise ZeroDivision.
Proof.
  intros Hd Hd'. split; [|done].
  cbn [Csv.parse_fraction]. rewrite !Fraction_nonzero by done.
  eexists _, _. split; [done|]. split; [done|].
  by apply Qc_div_eq_cross.
Qed.

Lemma parse_fraction_by_value_witness :
  (∃ x y, Csv.parse_fraction (Csv.Ratio 6 8) = Ok x
        ∧ Csv.parse_fraction (Csv.Ratio (-3) (-4)) = Ok y
        ∧ (x = y ↔ 6 * -4 = -3 * 8))
  ∧ Csv.parse_fraction (Csv.Whole 6) = Csv.parse_fraction (Csv.Ratio 6 1)
  ∧ Csv.parse_fraction (Csv.Ratio 6 0) = Raise ZeroDivision.
Proof. apply (parse_fraction_by_value 6 8 (-3) (-4)); lia. Defined.

(** ** What [validate_windows] returns and how it fails *)

Lemma fold_left_max_ge (l : list Z) :
  ∀ a, a ≤ fold_left Z.max l a ∧ ∀ x, x ∈ l → x ≤ fold_left Z.max l a.
Proof.
  induction l as [|y l IH]; intros a; simpl.
  - split; [lia|]. intros x Hx. by apply elem_of_nil in Hx.
  - destruct (IH (Z.max a y)) as [H1 H2]. split; [lia|].
    intros x [->|Hx]%elem_of_cons; [lia|by apply H2].
Qed.

Lemma fold_left_max_attained (l : list Z) :
  ∀ a, fold_left Z.max l a = a ∨ fold_left Z.max l a ∈ l.
Proof.
  induction l as [|y l IH]; intros a; simpl; [by left|].
  destruct (IH (Z.max a y)) as [H|H].
  - rewrite H. destruct (Z.max_spec a y) as [[_ ->]|[_ ->]].
    + right. apply elem_of_cons. by left.
    + by left.
  - right. apply elem_of_cons. by right.
Qed.

Lemma validate_rows_maxima (rows : list Validator.WindowRow) :
  ∀ idx thresholds residues max_j max_K thresholds' residues' max_j' max_K',
    Validator.validate_rows idx rows (thresholds, residues, max_j, max_K)
    = Ok (thresholds', residues', max_j', max_K') →
    max_j' = fold_left Z.max (Validator.j <$> rows) max_j
    ∧ max_K' = fold_left Z.max (Validator.K <$> rows) max_K.
Proof.
  induction rows as [|row rows IH]; intros idx th rs mj mK th' rs' mj' mK' H.
  - simpl in H. by injection H as _ _ <- <-.
  - cbn [Validator.validate_rows] in H.
    apply bind_Ok_inv in H as (n0 & _ & H).
    apply IH in H. by rewrite !fmap_cons.
Qed.






(** ** From the generator to the validator *)

Lemma visited_patterns_shape (k_min_of : Z → Z)
    (config : Config.CertificateConfig) (p : list Z) :
  p ∈ Windows.visited_patterns k_min_of config →
  1 ≤ Z.of_nat (length p) ≤ Config.max_window_length config
  ∧ Forall (part_ok (Config.max_valuation config)) p
  ∧ k_min_of (Z.of_nat (length p)) ≤ sumZ p
    ≤ k_min_of (Z.of_nat (length p)) + Config.delta_k config.
Proof.
  unfold Windows.visited_patterns. intros Hp.
  apply list_elem_of_bind in Hp as (j & Hp & Hj).
  apply list_elem_of_bind in Hp as (K & Hp & HK).
  apply elem_of_seqZ in Hj. apply elem_of_seqZ in HK.
  apply elem_of_enumerate_patterns in Hp as (Hlen & Hsum & Hall); [|lia].
  subst j K. split; [lia|]. split; [done|]. lia.
Qed.

Lemma write_read_row (modulus : Z) (record : Windows.WindowRecord) :
  -1 ≤ Windows.K record →
  Csv.write_read modulus record = Ok (row_of_record record).
Proof.
  intros HK. unfold Csv.write_read, Csv.to_row.
  rewrite py_shl_ok, bind_Ok by lia. rewrite bind_Ok.
  unfold Csv.read_row. cbn [Csv.A Csv.B Csv.N0].
  rewrite !parse_format_fraction, !bind_Ok.
  reflexivity.
Qed.

Lemma base_record_row_passes (p : list Z) (r x : Z) :
  p ≠ [] → Forall (λ s, 0 < s) p →
  Windows.solve_residue p = Ok (r, sumZ p) →
  3 ^ Z.of_nat (length p) < 2 ^ sumZ p →
  x mod 2 = 1 →
  row_passes (row_of_record (Windows.with_residue (base_record p r) x)).
Proof.
  intros Hne Hpos Hsolve Hlt Hodd.
  destruct (solve_residue_positive p Hne Hpos) as (r' & Hsolve' & _ & Hc).
  assert (r' = r) as -> by congruence.
  unfold row_passes. simpl. split; [lia|]. split; [done|]. split; [done|].
  split; [|done].
  intros [|t] Ht; [lia|]. split; [by apply K_prefix_nonneg|].
  apply prefix_congruence_cong_at; [by apply K_prefix_nonneg|].
  apply Hc. lia.
Qed.

Lemma generated_record_passes (k_min_of : Z → Z)
    (config : Config.CertificateConfig)
    (records : list Windows.WindowRecord) (rec : Windows.WindowRecord) :
  Windows.generate_windows k_min_of config = Ok records →
  rec ∈ records →
  row_passes (row_of_record rec)
  ∧ 1 ≤ Windows.j rec ≤ Config.max_window_length config
  ∧ 0 ≤ Windows.K rec.
Proof.
  intros Hgen Hrec.
  apply generate_windows_inv in Hgen as [Hmp Hall].
  destruct (Hall rec Hrec) as (p & base & projected & Hp & Hbase & Hproj & Hin).
  pose proof (visited_patterns_shape _ _ _ Hp) as (Hlen & _ & _).
  apply visited_patterns_positive in Hp as [Hne Hpos].
  destruct (record_from_pattern_inv _ _ Hbase)
    as (r & Hsolve & _ & HK & Hlt & Hr & ->).
  destruct (solve_residue_positive p Hne Hpos) as (r' & Hsolve' & _ & Hc).
  assert (r' = r) as -> by congruence.
  pose proof (project_residues_odd (base_record p r) _ _ Hmp
                (cong_at_odd p r (Hc 0%nat ltac:(lia))) Hproj rec Hin) as Hodd.
  rewrite (project_residues_fields _ _ _ Hproj rec Hin).
  split; [by apply base_record_row_passes|]. simpl. lia.
Qed.

Lemma write_read_all_rows (modulus : Z)
    (records : list Windows.WindowRecord) :
  Forall (λ rec, -1 ≤ Windows.K rec) records →
  Csv.write_read_all modulus records = Ok (row_of_record <$> records).
Proof.
  induction 1 as [|rec records HK _ IH]; [done|].
  cbn [Csv.write_read_all]. rewrite write_read_row, bind_Ok by done.
  by rewrite IH, bind_Ok.
Qed.

(** X11: the validator accepts every table the generator writes.  When
    [generate_windows] returns, writing its records with [to_row] and
    reading the fields back gives one row per record, and
    [validate_windows] accepts these rows: it returns the records'
    thresholds in order and the set of their residues, with
    [1 <= max_j <= max_window_length] unless the table is empty. *)
Theorem generated_table_validates (k_min_of : Z → Z)
    (config : Config.CertificateConfig)
    (records : list Windows.WindowRecord) :
  Windows.generate_windows k_min_of config = Ok records →
  ∃ max_j max_K,
    Csv.write_read_all (2 ^ Config.modulus_power config) records
    = Ok (row_of_record <$> records)
    ∧ Validator.validate_windows (row_of_record <$> records)
        (Config.modulus_power config)
      = Ok (Windows.N0 <$> records,
            list_to_set (Windows.residue <$> records), max_j, max_K)
    ∧ (records = [] → max_j = 0)
    ∧ (records ≠ [] → 1 ≤ max_j ≤ Config.max_window_length config).
Proof.
  intros Hgen.
  pose proof (generate_windows_inv _ _ _ Hgen) as [Hmp _].
  assert (Forall row_passes (row_of_record <$> records)) as Hall.
  { apply Forall_fmap, Forall_forall. intros rec Hrec.
    by destruct (generated_record_passes _ _ _ _ Hgen Hrec). }
  apply (validate_windows_accepts_iff _ (Config.modulus_power config)) in Hall
    as [[[[thresholds residues] max_j] max_K] Hval]; [|lia].
  exists max_j, max_K. split.
  { apply write_read_all_rows, Forall_forall. intros rec Hrec.
    destruct (generated_record_passes _ _ _ _ Hgen Hrec) as (_ & _ & ?). lia. }
  destruct (validate_windows_Ok _ _ _ _ _ _ Hval) as (_ & -> & ->).
  split; [by rewrite Hval, <- !list_fmap_compose|].
  unfold Validator.validate_windows in Hval. shl_inv Hval.
  apply validate_rows_maxima in Hval as [Hj _].
  rewrite <- list_fmap_compose in Hj.
  split; [by intros ->; subst|].
  intros Hne.
  destruct (fold_left_max_ge (Validator.j ∘ row_of_record <$> records) 0)
    as [_ Hge].
  destruct (fold_left_max_attained (Validator.j ∘ row_of_record <$> records) 0)
    as [Hz|Hel]; rewrite <- Hj in *.
  - destruct records as [|rec0 records']; [done|].
    destruct (generated_record_passes _ _ _ rec0 Hgen) as (_ & ? & _);
      [by apply elem_of_cons; left|].
    specialize (Hge (Windows.j rec0)
                  ltac:(by rewrite fmap_cons; apply elem_of_cons; left)).
    lia.
  - apply list_elem_of_fmap in Hel as (rec & -> & Hrec).
    by destruct (generated_record_passes _ _ _ rec Hgen Hrec) as (_ & ? & _).
Qed.

Lemma generated_table_validates_witness :
  let records := [Windows.with_residue (base_record [2] 1) 1] in
  ∃ max_j max_K,
    Csv.write_read_all (2 ^ Config.modulus_power config8) records
    = Ok (row_of_record <$> records)
    ∧ Validator.validate_windows (row_of_record <$> records)
        (Config.modulus_power config8)
      = Ok (Windows.N0 <$> records,
            list_to_set (Windows.residue <$> records), max_j, max_K)
    ∧ (records = [] → max_j = 0)
    ∧ (records ≠ [] → 1 ≤ max_j ≤ Config.max_window_length config8).
Proof.
  apply (generated_table_validates k_min_exact config8).
  vm_compute. reflexivity.
Defined.

(** ** The order of the generated table *)

Lemma insert_by_residue_perm (x : Windows.WindowRecord)
    (l : list Windows.WindowRecord) :
  Windows.insert_by_residue x l ≡ₚ x :: l.
Proof.
  induction l as [|y l IH]; simpl; [done|].
  destruct (Windows.residue x <=? Windows.residue y); [done|].
  rewrite IH. apply Permutation_swap.
Qed.

Lemma insert_by_residue_sorted (x : Windows.WindowRecord)
    (l : list Windows.WindowRecord) :
  StronglySorted (λ a b, Windows.residue a ≤ Windows.residue b) l →
  StronglySorted (λ a b, Windows.residue a ≤ Windows.residue b)
    (Windows.insert_by_residue x l).
Proof.
  induction 1 as [|y l Hl IH Hy]; simpl.
  - repeat constructor.
  - destruct (Z.leb_spec (Windows.residue x) (Windows.residue y)) as [Hle|Hgt].
    + constructor; [by constructor|]. constructor; [done|].
      eapply Forall_impl; [exact Hy|]. simpl. lia.
    + constructor; [done|].
      apply Forall_forall. intros z Hz.
      apply elem_of_insert_by_residue in Hz as [->|Hz]; [lia|].
      by eapply Forall_forall in Hy.
Qed.

Lemma insert_by_residue_stable (r : Z) (x : Windows.WindowRecord)
    (l : list Windows.WindowRecord) :
  filter (λ rec, Windows.residue rec = r) (Windows.insert_by_residue x l)
  = filter (λ rec, Windows.residue rec = r) (x :: l).
Proof.
  induction l as [|y l IH]; simpl; [done|].
  destruct (Z.leb_spec (Windows.residue x) (Windows.residue y)) as [Hle|Hgt];
    [done|].
  rewrite (filter_cons _ y), IH, !(filter_cons _ x), !(filter_cons _ y).
  destruct (decide (Windows.residue x = r)) as [Hx|Hx];
    destruct (decide (Windows.residue y = r)) as [Hy|Hy]; try done.
  lia.
Qed.

Lemma sort_by_residue_spec (l : list Windows.WindowRecord) :
  Windows.sort_by_residue l ≡ₚ l
  ∧ StronglySorted (λ a b, Windows.residue a ≤ Windows.residue b)
      (Windows.sort_by_residue l)
  ∧ ∀ r, filter (λ rec, Windows.residue rec = r) (Windows.sort_by_residue l)
         = filter (λ rec, Windows.residue rec = r) l.
Proof.
  induction l as [|x l (IHp & IHs & IHf)]; simpl.
  - split; [done|]. split; [constructor|done].
  - split; [by rewrite insert_by_residue_perm, IHp|].
    split; [by apply insert_by_residue_sorted|].
    intros r. rewrite insert_by_residue_stable, !filter_cons, IHf. done.
Qed.

(** X12: the table returned by [generate_windows] holds the records in the
    order of their residues; it is a rearrangement of the records in
    generation order, and records with the same residue keep their
    generation order (the sort is stable). *)
Theorem generate_windows_sorted (k_min_of : Z → Z)
    (config : Config.CertificateConfig)
    (records : list Windows.WindowRecord) :
  Windows.generate_windows k_min_of config = Ok records →
  ∃ generated,
    Windows.extend_records (Config.modulus_power config)
      (Windows.visited_patterns k_min_of config) [] = Ok generated
    ∧ records ≡ₚ generated
    ∧ StronglySorted (λ a b, Windows.residue a ≤ Windows.residue b) records
    ∧ ∀ r, filter (λ rec, Windows.residue rec = r) records
           = filter (λ rec, Windows.residue rec = r) generated.
Proof.
  unfold Windows.generate_windows. intros H.
  apply bind_Ok_inv in H as (generated & Hext & H).
  apply bind_Ok_inv in H as (m & _ & H).
  destruct (m / 2 =? 0); [done|]. injection H as <-.
  exists generated. split; [done|]. apply sort_by_residue_spec.
Qed.

Lemma generate_windows_sorted_witness :
  ∃ generated,
    Windows.extend_records (Config.modulus_power config16)
      (Windows.visited_patterns k_min_exact config16) [] = Ok generated
    ∧ table16 ≡ₚ generated
    ∧ StronglySorted (λ a b, Windows.residue a ≤ Windows.residue b) table16
    ∧ ∀ r, filter (λ rec, Windows.residue rec = r) table16
           = filter (λ rec, Windows.residue rec = r) generated.
Proof.
  apply (generate_windows_sorted k_min_exact config16 table16).
  vm_compute. reflexivity.
Defined.

(** The records of [config16] in generation order and in the order of the
    returned table, as (residue, pattern): the three records of residue 1
    and the three of residue 13 keep their generation order. *)
Example generation_order_16 :
  let show (r : res (list Windows.WindowRecord)) :=
    match r with
    | Ok l => Some (map (λ w, (Windows.residue w, Windows.pattern w)) l)
    | Raise _ => None
    end in
  show (Windows.extend_records 4
          (Windows.visited_patterns k_min_exact config16) [])
  = Some [(1, [2]); (9, [2]); (13, [3]); (3, [1; 3]); (1, [2; 2]);
          (13, [3; 1]); (1, [2; 3]); (13, [3; 2])]
  ∧ show (Windows.generate_windows k_min_exact config16)
    = Some [(1, [2]); (1, [2; 2]); (1, [2; 3]); (3, [1; 3]); (9, [2]);
            (13, [3]); (13, [3; 1]); (13, [3; 2])].
Proof. split; vm_compute; reflexivity. Qed.

(** ** When [generate_windows] raises *)

Lemma extend_records_negative (mp : Z) (patterns : list (list Z)) :
  mp < 0 → Forall (Forall (λ s, 0 < s)) patterns →
  ∀ acc, (∃ out, Windows.extend_records mp patterns acc = Ok out)
         ∨ Windows.extend_records mp patterns acc = Raise NegativeShiftCount.
Proof.
  intros Hmp Hall. induction Hall as [|p patterns Hp _ IH]; intros acc.
  - left. by eexists.
  - cbn [Windows.extend_records].
    destruct (Z.le_gt_cases (2 ^ sumZ p) (3 ^ Z.of_nat (length p))) as [Hge|Hlt].
    + rewrite (record_from_pattern_rejects p Hp Hge), bind_Ok. apply IH.
    + destruct (record_from_pattern_accepts p Hp Hlt) as (r & _ & ->).
      rewrite bind_Ok. right. unfold Windows.project_residues.
      by rewrite (py_shl_neg 1 mp), !bind_Raise.
Qed.

(** X13: [generate_windows] returns exactly when [modulus_power >= 1].
    With [modulus_power = 0] the run ends in the [ZeroDivisionError] of the
    coverage ratio ([config.modulus // 2] is 0), and with a negative
    [modulus_power] in the negative-shift [ValueError]; no other error
    leaves the generator. *)
Theorem generate_windows_outcome (k_min_of : Z → Z)
    (config : Config.CertificateConfig) :
  match Windows.generate_windows k_min_of config with
  | Ok _ => 1 ≤ Config.modulus_power config
  | Raise e =>
      (Config.modulus_power config = 0 ∧ e = ZeroDivision)
      ∨ (Config.modulus_power config < 0 ∧ e = NegativeShiftCount)
  end.
Proof.
  assert (Forall (Forall (λ s, 0 < s))
            (Windows.visited_patterns k_min_of config)) as Hall.
  { apply Forall_forall. intros p Hp.
    by apply visited_patterns_positive in Hp as [_ ?]. }
  destruct (Z.lt_trichotomy (Config.modulus_power config) 0) as [Hneg|[Hz|Hpos]].
  - unfold Windows.generate_windows.
    destruct (extend_records_negative _ _ Hneg Hall []) as [[out ->]| ->].
    + rewrite bind_Ok. unfold Config.modulus.
      rewrite py_shl_neg, bind_Raise by done. by right.
    + rewrite bind_Raise. by right.
  - unfold Windows.generate_windows.
    destruct (extend_records_total (Config.modulus_power config) _
                ltac:(lia) Hall []) as [recs ->].
    rewrite bind_Ok. unfold Config.modulus. rewrite Hz. by left.
  - destruct (generate_windows_total k_min_of config ltac:(lia))
      as [records ->]. lia.
Qed.

(** ** The residues of a projected record, one by one *)

Lemma bind_filter_all {X Y : Type} (f : X → bool) (g : X → Y) (l : list X) :
  Forall (λ o, f o = true) l →
  (o ← l; if f o then [g o] else []) = g <$> l.
Proof.
  induction 1 as [|o l Ho _ IH]; [done|].
  cbn [mbind list_bind]. change (mbind ?k l) with (l ≫= k) in *.
  rewrite Ho. simpl. f_equal. exact IH.
Qed.

(** X14: on the record of a pattern of positive integers the parity test
    of [project_residues] never drops a candidate.  With
    [K + 1 < modulus_power] the function returns exactly
    [2^(modulus_power - K - 1)] records, the one at position [i] with
    residue [exact_residue + i * 2^(K+1)], which needs no reduction modulo
    [2^modulus_power]; so the residues come out strictly increasing. *)
Theorem project_residues_enumerates (pattern : list Z)
    (base : Windows.WindowRecord) (modulus_power : Z) :
  Forall (λ s, 0 < s) pattern →
  Windows.record_from_pattern pattern = Ok (Some base) →
  Windows.K base + 1 < modulus_power →
  ∃ projected,
    Windows.project_residues base modulus_power = Ok projected
    ∧ Z.of_nat (length projected) = 2 ^ (modulus_power - (Windows.K base + 1))
    ∧ ∀ i : nat, (i < length projected)%nat →
        projected !! i
        = Some (Windows.with_residue base
                  (Windows.exact_residue base
                   + Z.of_nat i * 2 ^ (Windows.K base + 1)))
        ∧ Windows.exact_residue base + Z.of_nat i * 2 ^ (Windows.K base + 1)
          < 2 ^ modulus_power.
Proof.
  intros Hpos Hbase Hmp.
  destruct (record_from_pattern_inv _ _ Hbase)
    as (r & Hsolve & Hne & HK & Hlt & Hr & ->).
  destruct (solve_residue_positive pattern Hne Hpos) as (r' & Hsolve' & _ & Hc).
  assert (r' = r) as -> by congruence.
  pose proof (cong_at_odd pattern r (Hc 0%nat ltac:(lia))) as Hodd.
  cbn [base_record Windows.K Windows.exact_residue] in *.
  set (K := sumZ pattern) in *. set (c := 2 ^ (modulus_power - (K + 1))).
  assert (0 < c) as Hcpos by (apply pow2_pos; lia).
  assert (2 ^ modulus_power = 2 ^ (K + 1) * c) as Hsplit.
  { unfold c. rewrite <- Z.pow_add_r by lia. f_equal. lia. }
  assert (2 ^ (K + 1) = 2 * 2 ^ K) as Hstride.
  { rewrite Z.pow_add_r by lia. lia. }
  pose proof (pow2_pos K HK) as HKpos.
  eexists. split.
  { rewrite project_residues_large by (simpl; lia).
    cbn [base_record Windows.K Windows.residue]. fold K. fold c.
    rewrite (bind_filter_all
               (λ o, (r + o * 2 ^ (K + 1)) mod 2 =? 1)
               (λ o, Windows.with_residue (base_record pattern r)
                       ((r + o * 2 ^ (K + 1)) mod 2 ^ modulus_power))).
    - reflexivity.
    - apply Forall_forall. intros o _. apply Z.eqb_eq.
      rewrite Hstride.
      replace (r + o * (2 * 2 ^ K)) with (r + (o * 2 ^ K) * 2) by lia.
      by rewrite Z.mod_add by lia. }
  rewrite length_fmap. unfold py_range. rewrite length_seqZ.
  split; [lia|].
  intros i Hi.
  assert (r + Z.of_nat i * 2 ^ (K + 1) < 2 ^ modulus_power) as Hsmall.
  { rewrite Hsplit. nia. }
  split; [|done].
  rewrite list_lookup_fmap, lookup_seqZ_lt by lia. simpl.
  do 2 f_equal. rewrite Z.add_0_l. apply Z.mod_small.
  split; [|done]. nia.
Qed.

Lemma project_residues_enumerates_witness :
  let base := base_record [2] 1 in
  ∃ projected,
    Windows.project_residues base 5 = Ok projected
    ∧ Z.of_nat (length projected) = 2 ^ (5 - (Windows.K base + 1))
    ∧ ∀ i : nat, (i < length projected)%nat →
        projected !! i
        = Some (Windows.with_residue base
                  (Windows.exact_residue base
                   + Z.of_nat i * 2 ^ (Windows.K base + 1)))
        ∧ Windows.exact_residue base + Z.of_nat i * 2 ^ (Windows.K base + 1)
          < 2 ^ 5.
Proof.
  apply (project_residues_enumerates [2] (base_record [2] 1) 5).
  - repeat constructor.
  - vm_compute. reflexivity.
  - simpl. lia.
Defined.

(** ** [validate_funnels]: acceptance and failure *)

Lemma replay_cases (modulus : Z) (W : gset Z) (idx : Z) (n : nat) :
  ∀ depth current,
    match Validator.replay modulus W idx n depth current with
    | Ok c =>
        c = steps modulus n current
        ∧ ∀ d, (d < n)%nat → steps modulus d current ∉ W
    | Raise e =>
        ∃ d, (d < n)%nat ∧ first_hit modulus W current d
             ∧ e = FunnelRowInvalid idx (HitsWindowEarly (depth + Z.of_nat d))
    end.
Proof.
  induction n as [|n IH]; intros depth current.
  - simpl. split; [done|]. intros d Hd. lia.
  - cbn [Validator.replay].
    destruct (decide (current ∈ W)) as [Hin|Hout].
    + exists 0%nat. split; [lia|]. split.
      * split; [done|]. intros d' Hd'. lia.
      * do 2 f_equal. lia.
    + change (Validator.accelerated_step current modulus)
        with (Funnels.accelerated_step current modulus).
      specialize (IH (depth + 1) (Funnels.accelerated_step current modulus)).
      destruct (Validator.replay _ _ _ _ _ _) as [c|e].
      * destruct IH as [-> Hnone]. split; [by rewrite steps_succ_r|].
        intros [|d] Hd; [done|]. rewrite steps_succ_r. apply Hnone. lia.
      * destruct IH as (d & Hd & [Hhit Hfirst] & ->).
        exists (S d). split; [lia|]. split.
        -- split; [by rewrite steps_succ_r|].
           intros [|d'] Hd'; [done|]. rewrite steps_succ_r. apply Hfirst. lia.
        -- do 2 f_equal. lia.
Qed.

Lemma funnel_failure_not_passes (modulus : Z) (W : gset Z) (x len : Z)
    (why : funnel_check) :
  funnel_failure modulus W x len why → ¬ funnel_row_passes modulus W (x, len).
Proof.
  unfold funnel_row_passes. simpl. intros Hfail [Hhit Hfirst].
  destruct why as [|depth|]; simpl in Hfail.
  - destruct Hfail as [-> Hout]. by apply Hout.
  - destruct Hfail as [Hd [Hhit' _]].
    apply (Hfirst (Z.to_nat depth)); [lia|done].
  - destruct Hfail as [_ Hnone]. by apply (Hnone (Z.to_nat len)).
Qed.

Lemma funnel_row_cases (modulus : Z) (W : gset Z) (idx x len : Z) :
  (funnel_row_passes modulus W (x, len)
   ∧ ∀ rest max_depth records,
       Validator.validate_funnel_rows modulus W idx ((x, len) :: rest)
         (max_depth, records)
       = Validator.validate_funnel_rows modulus W (idx + 1) rest
           (Z.max max_depth len, records ++ [(x, len)]))
  ∨ (∃ why, funnel_failure modulus W x len why
       ∧ ∀ rest max_depth records,
           Validator.validate_funnel_rows modulus W idx ((x, len) :: rest)
             (max_depth, records)
           = Raise (FunnelRowInvalid idx why)).
Proof.
  pose proof (replay_cases modulus W idx (Z.to_nat len) 0 x) as Hrep.
  destruct (decide (len = 0 ∧ x ∉ W)) as [[Hlen Hx]|Hnz].
  { right. exists ZeroLengthNotWindow. split; [done|]. intros.
    cbn [Validator.validate_funnel_rows].
    rewrite (proj2 (Z.eqb_eq len 0) Hlen), bool_decide_eq_false_2 by done.
    done. }
  assert ((len =? 0) && negb (bool_decide (x ∈ W)) = false) as Hguard.
  { destruct (Z.eqb_spec len 0) as [Hlen|]; [|done].
    destruct (decide (x ∈ W)) as [Hx|Hx].
    - by rewrite bool_decide_eq_true_2.
    - by destruct Hnz. }
  destruct (Validator.replay modulus W idx (Z.to_nat len) 0 x) as [c|e] eqn:Hr.
  - destruct Hrep as [-> Hnone].
    destruct (decide (steps modulus (Z.to_nat len) x ∈ W)) as [Hc|Hc].
    + left. split; [by split|]. intros.
      cbn [Validator.validate_funnel_rows].
      rewrite Hguard, Hr, bind_Ok, bool_decide_eq_true_2 by done. done.
    + right. exists MissesWindow. split.
      { simpl. split.
        - intros ->. apply Hnz. split; [done|]. exact Hc.
        - intros d Hd. destruct (decide (d = Z.to_nat len)) as [->|]; [done|].
          apply Hnone. lia. }
      intros. cbn [Validator.validate_funnel_rows].
      rewrite Hguard, Hr, bind_Ok, bool_decide_eq_false_2 by done. done.
  - destruct Hrep as (d & Hd & Hhit & ->). right.
    exists (HitsWindowEarly (0 + Z.of_nat d)). split.
    { cbn [funnel_failure]. rewrite Z.add_0_l, Nat2Z.id. split; [lia|done]. }
    intros. cbn [Validator.validate_funnel_rows].
    by rewrite Hguard, Hr, bind_Raise.
Qed.

Lemma validate_funnel_rows_cases (modulus : Z) (W : gset Z)
    (rows : list (Z * Z)) :
  ∀ idx max_depth records,
    match Validator.validate_funnel_rows modulus W idx rows
            (max_depth, records) with
    | Ok (L, records') =>
        Forall (funnel_row_passes modulus W) rows
        ∧ records' = records ++ rows
        ∧ L = fold_left Z.max rows.*2 max_depth
    | Raise e =>
        ∃ (i : nat) x len why,
          rows !! i = Some (x, len)
          ∧ Forall (funnel_row_passes modulus W) (take i rows)
          ∧ e = FunnelRowInvalid (idx + Z.of_nat i) why
          ∧ funnel_failure modulus W x len why
    end.
Proof.
  induction rows as [|[x len] rows IH]; intros idx md recs.
  - simpl. split; [done|]. by rewrite app_nil_r.
  - destruct (funnel_row_cases modulus W idx x len)
      as [[Hpass ->]|(why & Hfail & ->)].
    + specialize (IH (idx + 1) (Z.max md len) (recs ++ [(x, len)])).
      destruct (Validator.validate_funnel_rows _ _ _ _ _) as [[L recs']|e].
      * destruct IH as (Hall & -> & ->). split; [by constructor|].
        split; [by rewrite <- app_assoc|done].
      * destruct IH as (i & x' & len' & why & Hi & Hbefore & -> & Hfail).
        exists (S i), x', len', why. split; [done|].
        split; [by simpl; constructor|]. split; [f_equal; lia|done].
    + exists 0%nat, x, len, why. split; [done|]. split; [constructor|].
      split; [f_equal; lia|done].
Qed.

Lemma validate_funnels_funnel_rows_spec (rows : list (Z * Z)) (W : gset Z)
    (modulus : Z) :
  ((∃ out, Validator.validate_funnels rows W modulus = Ok out)
   ↔ Forall (funnel_row_passes modulus W) rows)
  ∧ ∀ L records,
      Validator.validate_funnels rows W modulus = Ok (L, records) →
      records = rows
      ∧ 0 ≤ L
      ∧ (∀ x len, (x, len) ∈ rows → len ≤ L)
      ∧ (L = 0 ∨ ∃ x, (x, L) ∈ rows).
Proof.
  unfold Validator.validate_funnels.
  pose proof (validate_funnel_rows_cases modulus W rows 1 0 []) as H.
  destruct (Validator.validate_funnel_rows modulus W 1 rows (0, []))
    as [[L recs]|e].
  - destruct H as (Hall & -> & ->). split.
    { split; [done|]. intros _. by eexists. }
    intros L recs [= <- <-]. split; [done|].
    destruct (fold_left_max_ge rows.*2 0) as [H0 Hle]. split; [done|].
    split.
    + intros x len Hin. apply Hle.
      apply list_elem_of_fmap. by exists (x, len).
    + destruct (fold_left_max_attained rows.*2 0) as [Hz|Hel]; [by left|].
      right. apply list_elem_of_fmap in Hel as ([x len] & Hlen & Hin).
      simpl in Hlen. exists x. by rewrite Hlen.
  - destruct H as (i & x & len & why & Hi & _ & _ & Hfail).
    split; [|done]. split; [by intros [? ?]|].
    intros Hall. apply funnel_failure_not_passes in Hfail. destruct Hfail.
    eapply Forall_forall in Hall; [exact Hall|].
    by eapply list_elem_of_lookup_2.
Qed.

(** X15: [validate_funnels] accepts a table exactly when, for every row,
    [length] applications of the accelerated step reach the window set for
    the first time; a negative [length] runs no step, so such a row is
    accepted when its residue is a window residue.  On acceptance the rows
    are returned unchanged and [max_depth] is the largest length of a row,
    or 0 when no length is positive.  The modulus is non-zero (on 0 the [%]
    of the accelerated step raises). *)
Theorem validate_funnels_accepts_iff (rows : list (Z * Z)) (W : gset Z)
    (modulus : Z) :
  modulus ≠ 0 →
  ((∃ out, Validator.validate_funnels rows W modulus = Ok out)
   ↔ Forall (funnel_row_passes modulus W) rows)
  ∧ ∀ L records,
      Validator.validate_funnels rows W modulus = Ok (L, records) →
      records = rows
      ∧ 0 ≤ L
      ∧ (∀ x len, (x, len) ∈ rows → len ≤ L)
      ∧ (L = 0 ∨ ∃ x, (x, L) ∈ rows).
Proof.
  intros _. unfold Validator.validate_funnels.
  pose proof (validate_funnel_rows_cases modulus W rows 1 0 []) as H.
  destruct (Validator.validate_funnel_rows modulus W 1 rows (0, []))
    as [[L recs]|e].
  - destruct H as (Hall & -> & ->). split.
    { split; [done|]. intros _. by eexists. }
    intros L recs [= <- <-]. split; [done|].
    destruct (fold_left_max_ge rows.*2 0) as [H0 Hle]. split; [done|].
    split.
    + intros x len Hin. apply Hle.
      apply list_elem_of_fmap. by exists (x, len).
    + destruct (fold_left_max_attained rows.*2 0) as [Hz|Hel]; [by left|].
      right. apply list_elem_of_fmap in Hel as ([x len] & Hlen & Hin).
      simpl in Hlen. exists x. by rewrite Hlen.
  - destruct H as (i & x & len & why & Hi & _ & _ & Hfail).
    split; [|done]. split; [by intros [? ?]|].
    intros Hall. apply funnel_failure_not_passes in Hfail. destruct Hfail.
    eapply Forall_forall in Hall; [exact Hall|].
    by eapply list_elem_of_lookup_2.
Qed.

Lemma validate_funnels_accepts_iff_witness :
  ((∃ out, Validator.validate_funnels [(5, 1); (1, -4)] {[1]} 8 = Ok out)
   ↔ Forall (funnel_row_passes 8 {[1]}) [(5, 1); (1, -4)])
  ∧ ∀ L records,
      Validator.validate_funnels [(5, 1); (1, -4)] {[1]} 8 = Ok (L, records) →
      records = [(5, 1); (1, -4)]
      ∧ 0 ≤ L
      ∧ (∀ x len, (x, len) ∈ [(5, 1); (1, -4)] → len ≤ L)
      ∧ (L = 0 ∨ ∃ x, (x, L) ∈ [(5, 1); (1, -4)]).
Proof. apply (validate_funnels_accepts_iff [(5, 1); (1, -4)] {[1]} 8). lia. Defined.

Example validate_funnels_negative_length :
  Validator.validate_funnels [(5, 1); (1, -4)] {[1]} 8
  = Ok (1, [(5, 1); (1, -4)]).
Proof. reflexivity. Qed.

(** X16: how [validate_funnels] fails.  Every error is a row's own
    [ValueError]: it names the first row (counted from 1) that does not
    pass, and its kind tells why: length 0 on a residue outside the window
    set; the window set met after [depth < length] steps, [depth] being the
    first such count; or no window residue within [length] steps.  No other
    error leaves the function when the modulus is non-zero. *)
Theorem validate_funnels_rejection (rows : list (Z * Z)) (W : gset Z)
    (modulus : Z) (e : exn) :
  modulus ≠ 0 →
  Validator.validate_funnels rows W modulus = Raise e →
  ∃ (i : nat) x len why,
    rows !! i = Some (x, len)
    ∧ Forall (funnel_row_passes modulus W) (take i rows)
    ∧ ¬ funnel_row_passes modulus W (x, len)
    ∧ e = FunnelRowInvalid (Z.of_nat i + 1) why
    ∧ funnel_failure modulus W x len why.
Proof.
  intros _. unfold Validator.validate_funnels. intros H.
  pose proof (validate_funnel_rows_cases modulus W rows 1 0 []) as Hc.
  rewrite H in Hc. destruct Hc as (i & x & len & why & Hi & Hall & -> & Hfail).
  exists i, x, len, why. split; [done|]. split; [done|].
  split; [by eapply funnel_failure_not_passes|].
  split; [f_equal; lia|done].
Qed.

Lemma validate_funnels_rejection_witness :
  ∃ (i : nat) x len why,
    [(1, 0); (7, 2)] !! i = Some (x, len)
    ∧ Forall (funnel_row_passes 8 {[1; 3]}) (take i [(1, 0); (7, 2)])
    ∧ ¬ funnel_row_passes 8 {[1; 3]} (x, len)
    ∧ FunnelRowInvalid 2 (HitsWindowEarly 1)
      = FunnelRowInvalid (Z.of_nat i + 1) why
    ∧ funnel_failure 8 {[1; 3]} x len why.
Proof.
  apply (validate_funnels_rejection [(1, 0); (7, 2)] {[1; 3]} 8).
  - lia.
  - vm_compute. reflexivity.
Defined.

(** X17: the validator accepts every funnel table the generator returns.
    When [funnel_lengths] returns a table for a window set,
    [validate_funnels] on the same table, window set and modulus returns
    the table and, as [max_depth], its largest length, which is at most
    [funnel_depth] (and 0 on the empty table). *)
Theorem funnel_table_validates (config : Config.CertificateConfig)
    (W : gset Z) (funnels : list (Z * Z)) (histogram : gmap Z Z) :
  Funnels.funnel_lengths config W = Ok (funnels, histogram) →
  ∃ L,
    Validator.validate_funnels funnels W (2 ^ Config.modulus_power config)
    = Ok (L, funnels)
    ∧ 0 ≤ L ≤ Z.max 0 (Config.funnel_depth config)
    ∧ (∀ x len, (x, len) ∈ funnels → len ≤ L)
    ∧ (funnels ≠ [] → ∃ x, (x, L) ∈ funnels).
Proof.
  intros Hgen. apply funnel_lengths_inv in Hgen as (Hm & _ & Hall).
  apply py_shl_inv in Hm as [Hmp _].
  pose proof (pow2_pos _ Hmp) as Hpos.
  destruct (validate_funnels_funnel_rows_spec funnels W
              (2 ^ Config.modulus_power config)) as [Hiff Hout].
  destruct (proj2 Hiff) as [[L recs] Hval].
  { apply Forall_forall. intros [x len] Hin.
    by destruct (Hall x len Hin) as [_ ?]. }
  destruct (Hout L recs Hval) as (-> & HL & Hle & Hmax).
  exists L. split; [done|]. split.
  { destruct Hmax as [->|[x Hx]]; [lia|].
    destruct (Hall x L Hx) as [? _]. lia. }
  split; [done|]. intros Hne.
  destruct Hmax as [->|?]; [|done].
  destruct funnels as [|[x len] funnels']; [done|]. exists x.
  pose proof (Hle x len ltac:(by apply elem_of_cons; left)).
  destruct (Hall x len ltac:(by apply elem_of_cons; left)) as [? _].
  assert (len = 0) as -> by lia. apply elem_of_cons. by left.
Qed.

Lemma funnel_table_validates_witness :
  ∃ L,
    Validator.validate_funnels [(1, 0); (3, 2); (5, 1); (7, 3)] {[1]}
      (2 ^ Config.modulus_power config8)
    = Ok (L, [(1, 0); (3, 2); (5, 1); (7, 3)])
    ∧ 0 ≤ L ≤ Z.max 0 (Config.funnel_depth config8)
    ∧ (∀ x len, (x, len) ∈ [(1, 0); (3, 2); (5, 1); (7, 3)] → len ≤ L)
    ∧ ([(1, 0); (3, 2); (5, 1); (7, 3)] ≠ [] →
       ∃ x, (x, L) ∈ [(1, 0); (3, 2); (5, 1); (7, 3)]).
Proof.
  apply (funnel_table_validates config8 {[1]} _
           (<[3:=1]> (<[1:=1]> (<[2:=1]> (<[0:=1]> ∅))))).
  vm_compute. reflexivity.
Defined.

(** ** The histogram of [funnel_lengths] *)







(** ** More depth and more windows *)

Lemma search_more_iterations (modulus : Z) (W : gset Z) (n : nat) :
  ∀ n' depth current len, (n ≤ n')%nat →
    Funnels.search modulus W n depth current = Some len →
    Funnels.search modulus W n' depth current = Some len.
Proof.
  induction n as [|n IH]; intros n' depth current len Hle H; [done|].
  destruct n' as [|n']; [lia|].
  cbn [Funnels.search] in H |- *.
  destruct (decide (current ∈ W)); [done|]. apply (IH n'); [lia|done].
Qed.

Lemma funnel_loop_more_depth (funnel_depth funnel_depth' modulus : Z)
    (W : gset Z) (residues : list Z) :
  funnel_depth ≤ funnel_depth' →
  ∀ funnels histogram out,
    Funnels.funnel_loop funnel_depth modulus W residues funnels histogram
    = Ok out →
    Funnels.funnel_loop funnel_depth' modulus W residues funnels histogram
    = Ok out.
Proof.
  intros Hle. induction residues as [|x residues IH];
    intros funnels histogram out H; [done|].
  cbn [Funnels.funnel_loop] in H |- *.
  destruct (Funnels.search modulus W (Z.to_nat (funnel_depth + 1)) 0 x)
    as [len|] eqn:Hs; [|done].
  rewrite (search_more_iterations modulus W (Z.to_nat (funnel_depth + 1))
             (Z.to_nat (funnel_depth' + 1)) 0 x len ltac:(lia) Hs).
  by apply IH.
Qed.

(** X19: a larger depth bound changes nothing once the table exists: when
    [funnel_lengths] returns under a configuration, it returns the same
    table and histogram under every configuration with the same
    [modulus_power] and a [funnel_depth] at least as large. *)
Theorem funnel_depth_monotone (config config' : Config.CertificateConfig)
    (W : gset Z) (out : list (Z * Z) * gmap Z Z) :
  Config.modulus_power config' = Config.modulus_power config →
  Config.funnel_depth config ≤ Config.funnel_depth config' →
  Funnels.funnel_lengths config W = Ok out →
  Funnels.funnel_lengths config' W = Ok out.
Proof.
  unfold Funnels.funnel_lengths, Config.modulus. intros -> Hle H.
  apply bind_Ok_inv in H as (m & -> & H). rewrite bind_Ok.
  by eapply funnel_loop_more_depth.
Qed.

Lemma funnel_depth_monotone_witness :
  Funnels.funnel_lengths
    {| Config.modulus_power := 3; Config.max_window_length := 1;
       Config.max_valuation := 2; Config.delta_k := 1;
       Config.funnel_depth := 16 |} {[1]}
  = Ok ([(1, 0); (3, 2); (5, 1); (7, 3)],
        <[3:=1]> (<[1:=1]> (<[2:=1]> (<[0:=1]> ∅)))).
Proof.
  apply (funnel_depth_monotone config8).
  - reflexivity.
  - simpl. lia.
  - vm_compute. reflexivity.
Defined.

Lemma search_more_windows (modulus : Z) (W W' : gset Z) (n : nat) :
  W ⊆ W' →
  ∀ depth current len,
    Funnels.search modulus W n depth current = Some len →
    ∃ len', Funnels.search modulus W' n depth current = Some len'
            ∧ len' ≤ len.
Proof.
  intros Hsub. induction n as [|n IH]; intros depth current len H; [done|].
  cbn [Funnels.search] in H |- *.
  destruct (decide (current ∈ W)) as [Hin|Hout].
  - injection H as <-. rewrite decide_True by (by apply Hsub).
    exists depth. split; [done|lia].
  - destruct (decide (current ∈ W')) as [Hin'|Hout'].
    + exists depth. split; [done|].
      apply search_Some in H as (d & -> & _). lia.
    + by apply IH.
Qed.

Lemma funnel_loop_more_windows (funnel_depth modulus : Z) (W W' : gset Z)
    (residues : list Z) :
  W ⊆ W' →
  ∀ funnels histogram funnels1 histogram1 out histogram',
    length funnels1 = length funnels →
    Funnels.funnel_loop funnel_depth modulus W residues funnels histogram
    = Ok (out, histogram') →
    ∃ new new1 histogram1',
      out = funnels ++ new
      ∧ Funnels.funnel_loop funnel_depth modulus W' residues funnels1
          histogram1
        = Ok (funnels1 ++ new1, histogram1')
      ∧ Forall2 (λ record1 record,
                   record1.1 = record.1 ∧ record1.2 ≤ record.2) new1 new.
Proof.
  intros Hsub. induction residues as [|x residues IH];
    intros funnels histogram funnels1 histogram1 out histogram' Hlen H.
  - simpl in H. injection H as <- <-. exists [], [], histogram1.
    by rewrite !app_nil_r.
  - cbn [Funnels.funnel_loop] in H |- *.
    destruct (Funnels.search modulus W (Z.to_nat (funnel_depth + 1)) 0 x)
      as [len|] eqn:Hs; [|done].
    destruct (search_more_windows _ _ _ _ Hsub _ _ _ Hs) as (len' & -> & Hle).
    destruct (IH (funnels ++ [(x, len)]) (Funnels.bump histogram len)
                (funnels1 ++ [(x, len')]) (Funnels.bump histogram1 len')
                out histogram')
      as (new & new1 & h1 & -> & -> & Hall);
      [rewrite !length_app; simpl; lia|exact H|].
    exists ((x, len) :: new), ((x, len') :: new1), h1.
    rewrite <- !app_assoc. split; [done|]. split; [done|].
    by constructor.
Qed.

(** X20: more windows never hurt: when [funnel_lengths] returns a table
    for a window set, it also returns one for every larger window set, with
    the same residues in the same order and no length larger than
    before. *)
Theorem funnel_windows_monotone (config : Config.CertificateConfig)
    (W W' : gset Z) (funnels : list (Z * Z)) (histogram : gmap Z Z) :
  W ⊆ W' →
  Funnels.funnel_lengths config W = Ok (funnels, histogram) →
  ∃ funnels' histogram',
    Funnels.funnel_lengths config W' = Ok (funnels', histogram')
    ∧ Forall2 (λ record' record,
                 record'.1 = record.1 ∧ record'.2 ≤ record.2)
        funnels' funnels.
Proof.
  unfold Funnels.funnel_lengths. intros Hsub H.
  apply bind_Ok_inv in H as (m & -> & H). rewrite bind_Ok.
  apply (funnel_loop_more_windows _ _ _ _ _ Hsub _ _ [] ∅) in H
    as (new & new1 & h1 & -> & -> & Hall); [|done].
  by exists new1, h1.
Qed.

Lemma funnel_windows_monotone_witness :
  ∃ funnels' histogram',
    Funnels.funnel_lengths config8 {[1; 5]} = Ok (funnels', histogram')
    ∧ Forall2 (λ record' record,
                 record'.1 = record.1 ∧ record'.2 ≤ record.2)
        funnels' [(1, 0); (3, 2); (5, 1); (7, 3)].
Proof.
  apply (funnel_windows_monotone config8 {[1]} {[1; 5]} _
           (<[3:=1]> (<[1:=1]> (<[2:=1]> (<[0:=1]> ∅))))).
  - apply (bool_decide_unpack _). vm_compute. reflexivity.
  - vm_compute. reflexivity.
Defined.

(** ** The window set read by the two tools *)

Lemma read_window_residues_spec (column : list Z) :
  Csv.read_window_residues column = list_to_set column.
Proof.
  unfold Csv.read_window_residues.
  assert (∀ acc : gset Z,
            foldl (λ residues residue, {[residue]} ∪ residues) acc column
            = list_to_set column ∪ acc) as H.
  { induction column as [|x column IH]; intros acc; simpl.
    - by rewrite (left_id_L ∅ (∪)).
    - rewrite IH, (assoc_L (∪)). f_equal. apply (comm_L (∪)). }
  by rewrite H, (right_id_L ∅ (∪)).
Qed.

(** X21: the funnel generator and the validator work with the same window
    set.  [read_window_residues] returns the set of the entries of the
    residue column, duplicates merged; and on a table that
    [validate_windows] accepts, the window set it returns is the set that
    [read_window_residues] reads from that table. *)
Theorem window_set_agrees (rows : list Validator.WindowRow)
    (modulus_power : Z) (thresholds : list Qc) (residues : gset Z)
    (max_j max_K : Z) :
  Validator.validate_windows rows modulus_power
  = Ok (thresholds, residues, max_j, max_K) →
  Csv.read_window_residues (Validator.target_residue <$> rows) = residues
  ∧ (∀ x, x ∈ residues
          ↔ ∃ row, row ∈ rows ∧ Validator.target_residue row = x)
  ∧ ∀ column x, x ∈ Csv.read_window_residues column ↔ x ∈ column.
Proof.
  intros H. apply validate_windows_Ok in H as (_ & _ & ->).
  split; [apply read_window_residues_spec|]. split.
  - intros x. rewrite elem_of_list_to_set, list_elem_of_fmap.
    split; intros (row & ? & ?); by exists row.
  - intros column x. by rewrite read_window_residues_spec, elem_of_list_to_set.
Qed.

Lemma window_set_agrees_witness :
  Csv.read_window_residues (Validator.target_residue <$> [stray_residue_row])
  = {[5]}
  ∧ (∀ x, x ∈ ({[5]} : gset Z)
          ↔ ∃ row, row ∈ [stray_residue_row]
                   ∧ Validator.target_residue row = x)
  ∧ ∀ column x, x ∈ Csv.read_window_residues column ↔ x ∈ column.
Proof.
  apply (window_set_agrees [stray_residue_row] 3 [Q2Qc 1] {[5]} 1 2).
  vm_compute. do 5 f_equal. by apply Qc_is_canon.
Defined.

(** ** The validator as a whole *)

Lemma summarize_Ok_iff (thresholds : list Qc) (j_max L modulus : Z) :
  (∃ s, Validator.summarize thresholds j_max L modulus = Ok s)
  ↔ thresholds ≠ [] ∧ 0 ≤ L.
Proof.
  unfold Validator.summarize. split.
  - intros [s H]. apply bind_Ok_inv in H as (m & Hm & H). shl_inv H.
    split; [|done]. by intros ->.
  - intros [Hne HL]. destruct (py_max_spec thresholds Hne) as (m & -> & _).
    rewrite bind_Ok, py_shl_ok, bind_Ok by done. by eexists.
Qed.

(** X22: when the validator's [main] writes a summary.  With
    [modulus_power >= 0] the three stages all succeed exactly when the
    window table is not empty and every row of it passes, and every funnel
    row, replayed against the set of the residue column modulo
    [2^modulus_power], reaches that set for the first time after its stated
    length. *)
Theorem validator_main_accepts_iff (rows : list Validator.WindowRow)
    (funnel_rows : list (Z * Z)) (modulus_power : Z) :
  0 ≤ modulus_power →
  (∃ s, validator_main rows funnel_rows modulus_power = Ok s)
  ↔ rows ≠ []
    ∧ Forall row_passes rows
    ∧ Forall (funnel_row_passes (2 ^ modulus_power)
                (list_to_set (Validator.target_residue <$> rows)))
        funnel_rows.
Proof.
  intros Hmp. unfold validator_main. split.
  - intros [s H].
    apply bind_Ok_inv in H as ([[[th W] mj] mK] & Hw & H).
    apply validate_windows_Ok in Hw as (Hall & -> & ->).
    shl_inv H. apply bind_Ok_inv in H as ([L recs] & Hf & H).
    destruct (proj1 (summarize_Ok_iff _ _ _ _) (ex_intro _ s H)) as [Hne _].
    split; [by intros ->|]. split; [done|].
    apply validate_funnels_funnel_rows_spec. by eexists.
  - intros (Hne & Hall & Hfun).
    destruct (proj2 (validate_windows_accepts_iff rows modulus_power Hmp) Hall)
      as [[[[th W] mj] mK] Hw].
    rewrite Hw, bind_Ok.
    apply validate_windows_Ok in Hw as (_ & -> & ->).
    rewrite py_shl_ok, bind_Ok by done.
    destruct (validate_funnels_funnel_rows_spec funnel_rows
                (list_to_set (Validator.target_residue <$> rows))
                (2 ^ modulus_power)) as [Hiff Hout].
    destruct (proj2 Hiff Hfun) as [[L recs] Hf]. rewrite Hf, bind_Ok.
    destruct (Hout L recs Hf) as (_ & HL & _).
    apply summarize_Ok_iff. split; [by destruct rows|done].
Qed.

Lemma validator_main_accepts_iff_witness :
  (∃ s, validator_main [stray_residue_row] [(5, 0); (3, 1); (7, 2)] 3 = Ok s)
  ↔ [stray_residue_row] ≠ []
    ∧ Forall row_passes [stray_residue_row]
    ∧ Forall (funnel_row_passes (2 ^ 3)
                (list_to_set
                   (Validator.target_residue <$> [stray_residue_row])))
        [(5, 0); (3, 1); (7, 2)].
Proof.
  apply (validator_main_accepts_iff [stray_residue_row]
           [(5, 0); (3, 1); (7, 2)] 3).
  lia.
Defined.

Example validator_main_example :
  (λ r, match r with
        | Ok s => Some (Validator.j_max s, Validator.L s, Validator.J_star s,
                        Validator.N0_star s, Validator.modulus s)
        | Raise _ => None
        end) (validator_main [stray_residue_row] [(5, 0); (3, 1); (7, 2)] 3)
  = Some (1, 2, 3, 4, 8).
Proof. vm_compute. reflexivity. Qed.

Lemma replay_empty (modulus idx : Z) (n : nat) :
  ∀ depth current,
    Validator.replay modulus ∅ idx n depth current
    = Ok (steps modulus n current).
Proof.
  intros depth current.
  pose proof (replay_cases modulus ∅ idx n depth current) as H.
  destruct (Validator.replay _ _ _ _ _ _) as [c|e].
  - by destruct H as [-> _].
  - destruct H as (d & _ & [Hhit _] & _). by apply not_elem_of_empty in Hhit.
Qed.

(** X23: the validator's [main] on a window table without rows.  The empty
    window table is accepted by [validate_windows] with an empty window
    set, so every funnel row fails against it and the first one is
    reported: as claiming length 0 outside the window set when its length
    is 0, as missing the window set otherwise.  With no funnel row either,
    the run ends in the [ValueError] of [max] on the empty threshold list.
    No summary is produced in any case. *)
Theorem validator_main_empty_windows (funnel_rows : list (Z * Z))
    (modulus_power : Z) :
  0 ≤ modulus_power →
  validator_main [] funnel_rows modulus_power
  = match funnel_rows with
    | [] => Raise EmptyMax
    | (residue, length) :: _ =>
        Raise (FunnelRowInvalid 1
                 (if length =? 0 then ZeroLengthNotWindow else MissesWindow))
    end.
Proof.
  intros Hmp. unfold validator_main, Validator.validate_windows.
  rewrite py_shl_ok, bind_Ok by done. cbn [Validator.validate_rows].
  rewrite bind_Ok. cbv beta iota. rewrite bind_Ok.
  destruct funnel_rows as [|[x len] rest]; [done|].
  unfold Validator.validate_funnels. cbn [Validator.validate_funnel_rows].
  rewrite (bool_decide_eq_false_2 (x ∈ (∅ : gset Z)))
    by apply not_elem_of_empty.
  destruct (len =? 0); [done|]. cbn [negb andb].
  rewrite replay_empty, bind_Ok.
  rewrite bool_decide_eq_false_2 by apply not_elem_of_empty. done.
Qed.

Lemma validator_main_empty_windows_witness :
  validator_main [] [(5, 1); (1, 0)] 3
  = Raise (FunnelRowInvalid 1 (if 1 =? 0 then ZeroLengthNotWindow
                               else MissesWindow)).
Proof. apply (validator_main_empty_windows [(5, 1); (1, 0)] 3). lia. Defined.

(** ** The three tools in sequence *)

Lemma generated_threshold_positive (k_min_of : Z → Z)
    (config : Config.CertificateConfig)
    (records : list Windows.WindowRecord) (rec : Windows.WindowRecord) :
  Windows.generate_windows k_min_of config = Ok records →
  rec ∈ records → (0 < Windows.N0 rec)%Qc.
Proof.
  intros Hgen Hrec.
  apply generate_windows_inv in Hgen as [_ Hall].
  destruct (Hall rec Hrec) as (p & base & projected & _ & Hbase & Hproj & Hin).
  rewrite (project_residues_fields _ _ _ Hproj rec Hin). simpl.
  by apply (record_threshold_positive p).
Qed.

Lemma ceil_fraction_positive (q : Qc) : (0 < q)%Qc → 1 ≤ ceil_fraction q.
Proof.
  intros Hq. destruct (ceil_fraction_spec q) as [_ Hle].
  assert (Qc_of_Z 0 < Qc_of_Z (ceil_fraction q))%Qc as Hlt.
  { eapply Qclt_le_trans; [|exact Hle]. exact Hq. }
  apply (proj1 (Qc_of_Z_lt 0 (ceil_fraction q))) in Hlt. lia.
Qed.

(** X24: a certificate produced by the generators is accepted by the
    validator.  When [generate_windows] returns a non-empty table, and
    [funnel_lengths] returns a funnel table for the window set read from
    it, the validator's [main] on the two tables writes a summary: its
    modulus is [2^modulus_power], [j_max] lies between 1 and
    [max_window_length], [L] between 0 and [funnel_depth], [J_star] is
    their sum, the maximal threshold is the threshold of a generated
    record, and [N0_star >= 1]. *)
Theorem certificate_pipeline_accepted (k_min_of : Z → Z)
    (config : Config.CertificateConfig)
    (records : list Windows.WindowRecord)
    (funnels : list (Z * Z)) (histogram : gmap Z Z) :
  Windows.generate_windows k_min_of config = Ok records →
  records ≠ [] →
  Funnels.funnel_lengths config
    (Csv.read_window_residues (Windows.residue <$> records))
  = Ok (funnels, histogram) →
  ∃ s,
    validator_main (row_of_record <$> records) funnels
      (Config.modulus_power config) = Ok s
    ∧ Validator.modulus s = 2 ^ Config.modulus_power config
    ∧ 1 ≤ Validator.j_max s ≤ Config.max_window_length config
    ∧ 0 ≤ Validator.L s ≤ Config.funnel_depth config
    ∧ Validator.J_star s = Validator.j_max s + Validator.L s
    ∧ (∃ rec, rec ∈ records
              ∧ Validator.max_window_threshold s = Windows.N0 rec)
    ∧ 1 ≤ Validator.N0_star s.
Proof.
  intros Hgen Hne Hfun.
  pose proof (generate_windows_inv _ _ _ Hgen) as [Hmp _].
  rewrite read_window_residues_spec in Hfun.
  assert (Forall row_passes (row_of_record <$> records)) as Hall.
  { apply Forall_fmap, Forall_forall. intros rec Hrec.
    by destruct (generated_record_passes _ _ _ _ Hgen Hrec). }
  destruct (proj2 (validate_windows_accepts_iff _
                     (Config.modulus_power config) ltac:(lia)) Hall)
    as [[[[th W] mj] mK] Hw].
  pose proof (validate_windows_Ok _ _ _ _ _ _ Hw) as (_ & Hth & HW).
  rewrite <- list_fmap_compose in Hth, HW.
  change (Validator.target_residue ∘ row_of_record) with Windows.residue in HW.
  change (Validator.N0 ∘ row_of_record) with Windows.N0 in Hth.
  subst th W.
  (* the funnel table *)
  pose proof (funnel_lengths_inv _ _ _ _ Hfun) as (_ & Hfst & Hlens).
  destruct (validate_funnels_funnel_rows_spec funnels
              (list_to_set (Windows.residue <$> records))
              (2 ^ Config.modulus_power config)) as [Hiff Hout].
  destruct (proj2 Hiff) as [[L recs] Hf].
  { apply Forall_forall. intros [x len] Hin.
    by destruct (Hlens x len Hin) as [_ ?]. }
  destruct (Hout L recs Hf) as (-> & HL & Hle & Hmax).
  assert (L ≤ Config.funnel_depth config) as HLd.
  { assert ((1 : Z) ∈ funnels.*1) as H1.
    { rewrite Hfst. apply elem_of_odd_range.
      pose proof (Z.pow_le_mono_r 2 1 (Config.modulus_power config)
                    ltac:(lia) ltac:(lia)).
      split; [|done]. change (2 ^ 1) with 2 in *. lia. }
    apply list_elem_of_fmap in H1 as ([x len] & _ & Hin).
    destruct (Hlens x len Hin) as [? _].
    destruct Hmax as [->|[x' Hx']]; [lia|].
    destruct (Hlens x' L Hx') as [? _]. lia. }
  (* the maxima of the window table *)
  pose proof Hw as Hw'. unfold Validator.validate_windows in Hw'. shl_inv Hw'.
  apply validate_rows_maxima in Hw' as [Hj _].
  rewrite <- list_fmap_compose in Hj.
  assert (1 ≤ mj ≤ Config.max_window_length config) as Hmj.
  { destruct (fold_left_max_ge (Validator.j ∘ row_of_record <$> records) 0)
      as [_ Hge].
    destruct (fold_left_max_attained
                (Validator.j ∘ row_of_record <$> records) 0)
      as [Hz|Hel]; rewrite <- Hj in *.
    - destruct records as [|rec0 records']; [done|].
      destruct (generated_record_passes _ _ _ rec0 Hgen) as (_ & ? & _);
        [by apply elem_of_cons; left|].
      specialize (Hge (Windows.j rec0)
                    ltac:(by rewrite fmap_cons; apply elem_of_cons; left)).
      lia.
    - apply list_elem_of_fmap in Hel as (rec & -> & Hrec).
      by destruct (generated_record_passes _ _ _ rec Hgen Hrec)
        as (_ & ? & _). }
  (* the summary *)
  destruct (py_max_spec (Windows.N0 <$> records)) as (m & Hm & Hin & _).
  { by destruct records. }
  apply list_elem_of_fmap in Hin as (rec & -> & Hrec).
  unfold validator_main. rewrite Hw, bind_Ok. cbv beta iota.
  rewrite py_shl_ok, bind_Ok by lia. rewrite Hf, bind_Ok.
  unfold Validator.summarize. rewrite Hm, bind_Ok.
  cbn [fst]. rewrite py_shl_ok, bind_Ok by done.
  eexists. split; [reflexivity|]. cbn.
  split; [done|]. split; [done|]. split; [done|]. split; [done|].
  split; [by exists rec|].
  apply ceil_fraction_positive.
  pose proof (generated_threshold_positive _ _ _ _ Hgen Hrec) as Hpos.
  pose proof (pow2_pos L HL) as H2.
  apply (proj2 (Qc_of_Z_lt 0 (2 ^ L))) in H2.
  change (Qc_of_Z 0) with 0%Qc in H2.
  rewrite <- (Qcmult_0_l (Windows.N0 rec)).
  by apply Qcmult_lt_compat_r.
Qed.

Lemma certificate_pipeline_accepted_witness :
  let records := [Windows.with_residue (base_record [2] 1) 1] in
  ∃ s,
    validator_main (row_of_record <$> records)
      [(1, 0); (3, 2); (5, 1); (7, 3)]
      (Config.modulus_power config8) = Ok s
    ∧ Validator.modulus s = 2 ^ Config.modulus_power config8
    ∧ 1 ≤ Validator.j_max s ≤ Config.max_window_length config8
    ∧ 0 ≤ Validator.L s ≤ Config.funnel_depth config8
    ∧ Validator.J_star s = Validator.j_max s + Validator.L s
    ∧ (∃ rec, rec ∈ records
              ∧ Validator.max_window_threshold s = Windows.N0 rec)
    ∧ 1 ≤ Validator.N0_star s.
Proof.
  apply (certificate_pipeline_accepted k_min_exact config8 _ _
           (<[3:=1]> (<[1:=1]> (<[2:=1]> (<[0:=1]> ∅))))).
  - vm_compute. reflexivity.
  - discriminate.
  - vm_compute. reflexivity.
Defined.

(** ** finite_check.py: [collatz_reaches_one] *)

Lemma collatz_loop_cases (n max_steps : Z) (fuel : nat) :
  ∀ steps value,
    (Z.to_nat (max_steps + 1 - steps) + 1 ≤ fuel)%nat →
    match FiniteCheck.collatz_loop fuel n max_steps steps value with
    | None => False
    | Some (FiniteCheck.Returned s) =>
        ∃ d : nat,
          s = steps + Z.of_nat d
          ∧ s ≤ Z.max steps (max_steps + 1)
          ∧ reaches_one_at value d
    | Some (FiniteCheck.StepCapExceeded m) =>
        m = n
        ∧ ∀ d : nat, steps + Z.of_nat d ≤ Z.max steps (max_steps + 1) →
            collatz_iter d value ≠ 1
    end.
Proof.
  induction fuel as [|fuel IH]; intros steps value Hfuel; [lia|].
  cbn [FiniteCheck.collatz_loop].
  destruct (Z.eqb_spec value 1) as [->|Hne].
  { exists 0%nat. split; [lia|]. split; [lia|]. split; [done|]. intros; lia. }
  destruct (Z.gtb_spec steps max_steps) as [Hcap|Hgo].
  { split; [done|]. intros d Hd. assert (d = 0%nat) as -> by lia. done. }
  specialize (IH (steps + 1) (FiniteCheck.collatz_next value) ltac:(lia)).
  destruct (FiniteCheck.collatz_loop _ _ _ _ _) as [[s|m]|]; [| |done].
  - destruct IH as (d & -> & Hs & Hhit & Hfirst).
    exists (S d). split; [lia|]. split; [lia|]. split.
    + by rewrite collatz_iter_S_r.
    + intros [|d'] Hd'; [done|]. rewrite collatz_iter_S_r. apply Hfirst. lia.
  - destruct IH as [-> Hnone]. split; [done|].
    intros [|d] Hd; [done|]. rewrite collatz_iter_S_r. apply Hnone. lia.
Qed.

Lemma collatz_reaches_one_cases (n max_steps : Z) :
  match FiniteCheck.collatz_reaches_one n max_steps with
  | None => False
  | Some (FiniteCheck.Returned s) =>
      0 ≤ s ≤ Z.max 0 (max_steps + 1) ∧ reaches_one_at n (Z.to_nat s)
  | Some (FiniteCheck.StepCapExceeded m) =>
      m = n
      ∧ ∀ d : nat, Z.of_nat d ≤ Z.max 0 (max_steps + 1) →
          collatz_iter d n ≠ 1
  end.
Proof.
  unfold FiniteCheck.collatz_reaches_one.
  pose proof (collatz_loop_cases n max_steps
                (Z.to_nat (max_steps + 1) + 2) 0 n ltac:(lia)) as H.
  destruct (FiniteCheck.collatz_loop _ _ _ _ _) as [[s|m]|]; [| |done].
  - destruct H as (d & -> & Hs & Hhit). rewrite Z.add_0_l, Nat2Z.id.
    split; [lia|done].
  - destruct H as [-> Hnone]. split; [done|]. intros d Hd. apply Hnone. lia.
Qed.

(** X25: [collatz_reaches_one] always ends.  It returns [s] exactly when 1
    is first reached after [s] applications of the Collatz map and
    [s <= max_steps + 1]: the cap is tested before each step, so one step
    more than [max_steps] is still counted.  Otherwise it raises the
    [RuntimeError] naming [n], and then no count up to [max_steps + 1]
    reaches 1.  With a negative [max_steps] only [n = 1] returns. *)
Theorem collatz_reaches_one_spec (n max_steps : Z) :
  match FiniteCheck.collatz_reaches_one n max_steps with
  | None => False
  | Some (FiniteCheck.Returned s) =>
      0 ≤ s ≤ Z.max 0 (max_steps + 1) ∧ reaches_one_at n (Z.to_nat s)
  | Some (FiniteCheck.StepCapExceeded m) =>
      m = n
      ∧ ∀ d : nat, Z.of_nat d ≤ Z.max 0 (max_steps + 1) →
          collatz_iter d n ≠ 1
  end.
Proof.
  unfold FiniteCheck.collatz_reaches_one.
  pose proof (collatz_loop_cases n max_steps
                (Z.to_nat (max_steps + 1) + 2) 0 n ltac:(lia)) as H.
  destruct (FiniteCheck.collatz_loop _ _ _ _ _) as [[s|m]|]; [| |done].
  - destruct H as (d & -> & Hs & Hhit). rewrite Z.add_0_l, Nat2Z.id.
    split; [lia|done].
  - destruct H as [-> Hnone]. split; [done|]. intros d Hd. apply Hnone. lia.
Qed.

Example collatz_reaches_one_6 :
  FiniteCheck.collatz_reaches_one 6 7 = Some (FiniteCheck.Returned 8)
  ∧ FiniteCheck.collatz_reaches_one 6 6 = Some (FiniteCheck.StepCapExceeded 6).
Proof. split; reflexivity. Qed.

Lemma collatz_next_nonpositive (value : Z) :
  value ≤ 0 → FiniteCheck.collatz_next value ≤ 0.
Proof.
  intros Hv. unfold FiniteCheck.collatz_next.
  destruct (Z.eqb_spec (value mod 2) 0) as [Heven|Hodd].
  - apply Z.div_le_upper_bound; lia.
  - assert (value ≠ 0) by (intros ->; done). lia.
Qed.

Lemma collatz_iter_nonpositive (d : nat) (n : Z) :
  n ≤ 0 → collatz_iter d n ≤ 0.
Proof.
  intros Hn. induction d as [|d IH]; [done|].
  rewrite collatz_iter_S. by apply collatz_next_nonpositive.
Qed.

(** X26: on [n <= 0] the loop of [collatz_reaches_one] never meets 1 (the
    values stay non-positive under floor division and [3 v + 1]), and the
    call raises the step-cap [RuntimeError] whatever [max_steps] is. *)
Theorem collatz_reaches_one_nonpositive (n max_steps : Z) :
  n ≤ 0 →
  FiniteCheck.collatz_reaches_one n max_steps
  = Some (FiniteCheck.StepCapExceeded n).
Proof.
  intros Hn. pose proof (collatz_reaches_one_cases n max_steps) as H.
  destruct (FiniteCheck.collatz_reaches_one n max_steps) as [[s|m]|];
    [|by destruct H as [-> _]|done].
  destruct H as [_ [Hhit _]].
  pose proof (collatz_iter_nonpositive (Z.to_nat s) n Hn). lia.
Qed.

Lemma collatz_reaches_one_nonpositive_witness :
  FiniteCheck.collatz_reaches_one (-5) 20
  = Some (FiniteCheck.StepCapExceeded (-5)).
Proof. apply (collatz_reaches_one_nonpositive (-5) 20). lia. Defined.

(** ** finite_check.py: [simulate_range] *)

Lemma simulate_loop_cases (cap : Z) (all : list Z) :
  ∀ ns seen m a, all = seen ++ ns → running_max cap seen m a →
    match FiniteCheck.simulate_loop cap ns m a with
    | None => False
    | Some (FiniteCheck.Returned (m', a')) => running_max cap all m' a'
    | Some (FiniteCheck.StepCapExceeded k) =>
        ∃ before after,
          all = before ++ k :: after
          ∧ FiniteCheck.collatz_reaches_one k cap
            = Some (FiniteCheck.StepCapExceeded k)
          ∧ Forall (λ n, ∃ s, counted cap n s) before
    end.
Proof.
  induction ns as [|n ns IH]; intros seen m a Hall Hinv.
  - rewrite app_nil_r in Hall. by subst.
  - cbn [FiniteCheck.simulate_loop].
    pose proof (collatz_reaches_one_cases n cap) as Hn.
    destruct (FiniteCheck.collatz_reaches_one n cap) as [[s|k]|] eqn:Hcall;
      [| |done].
    + destruct Hn as [[Hs0 _] _].
      destruct Hinv as (Hm & Hseen & Harg).
      assert (all = (seen ++ [n]) ++ ns) as Hall'
        by (by rewrite <- app_assoc).
      destruct (Z.gtb_spec s m) as [Hgt|Hle].
      * apply (IH (seen ++ [n]) s n Hall').
        split; [lia|]. split.
        { apply Forall_app. split.
          - eapply Forall_impl; [exact Hseen|].
            intros x (sx & ? & ?). exists sx. split; [done|lia].
          - constructor; [|done]. by exists s. }
        right. exists seen, []. split; [done|]. split; [done|].
        eapply Forall_impl; [exact Hseen|].
        intros x (sx & ? & ?). exists sx. split; [done|lia].
      * apply (IH (seen ++ [n]) m a Hall').
        split; [done|]. split.
        { apply Forall_app. split; [done|]. constructor; [|done].
          by exists s. }
        destruct Harg as [?|(before & after & -> & ? & ?)]; [by left|].
        right. exists before, (after ++ [n]).
        split; [by rewrite <- app_assoc|done].
    + destruct Hn as [-> _]. exists seen, ns. split; [done|]. split; [done|].
      destruct Hinv as (_ & Hseen & _).
      eapply Forall_impl; [exact Hseen|]. intros x (sx & ? & _). by exists sx.
Qed.

Lemma counted_reaches (cap n s : Z) :
  counted cap n s → 0 ≤ s ∧ reaches_one_at n (Z.to_nat s).
Proof.
  unfold counted. intros H. pose proof (collatz_reaches_one_cases n cap) as Hc.
  rewrite H in Hc. destruct Hc as [[? _] ?]. done.
Qed.

Lemma counted_bound (cap n s : Z) : counted cap n s → s ≤ Z.max 0 (cap + 1).
Proof.
  unfold counted. intros H. pose proof (collatz_reaches_one_cases n cap) as Hc.
  rewrite H in Hc. destruct Hc as [[_ ?] _]. done.
Qed.

Lemma py_range_split (lo hi : Z) (before after : list Z) (a : Z) :
  py_range lo hi = before ++ a :: after →
  lo ≤ a < hi ∧ ∀ n, lo ≤ n < a → n ∈ before.
Proof.
  unfold py_range. intros Hsplit.
  assert (seqZ lo (hi - lo) !! length before = Some a) as Ha
    by (by rewrite Hsplit, list_lookup_middle).
  apply lookup_seqZ in Ha as [-> Hlen]. split; [lia|].
  intros n Hn.
  assert (seqZ lo (hi - lo) !! Z.to_nat (n - lo) = Some n) as Hlook.
  { apply lookup_seqZ. lia. }
  rewrite Hsplit, lookup_app_l in Hlook by lia.
  by eapply list_elem_of_lookup_2.
Qed.

(** X27: [simulate_range] always ends.  When it returns [(m, a)], every
    [n] from 1 to [limit] reaches 1, in at most [m] steps, and [m] is at
    most 1000001; [a] is the smallest [n] that needs exactly [m] steps
    (with [(0, 1)] when [limit] is below 1, and also when [limit] is 1).
    Otherwise it raises for the smallest [n] that does not reach 1 within
    1000001 steps: that [n] does not, and every smaller one does. *)
Theorem simulate_range_spec (limit : Z) :
  match FiniteCheck.simulate_range limit with
  | None => False
  | Some (FiniteCheck.Returned (m, a)) =>
      0 ≤ m ≤ FiniteCheck.default_max_steps + 1
      ∧ 1 ≤ a ≤ Z.max 1 limit
      ∧ reaches_one_at a (Z.to_nat m)
      ∧ (limit ≤ 1 → m = 0 ∧ a = 1)
      ∧ ∀ n, 1 ≤ n ≤ limit →
          ∃ d, reaches_one_at n d ∧ Z.of_nat d ≤ m
               ∧ (n < a → Z.of_nat d < m)
  | Some (FiniteCheck.StepCapExceeded k) =>
      1 ≤ k ≤ limit
      ∧ (∀ d : nat, Z.of_nat d ≤ FiniteCheck.default_max_steps + 1 →
           collatz_iter d k ≠ 1)
      ∧ ∀ n, 1 ≤ n < k →
          ∃ d, reaches_one_at n d
               ∧ Z.of_nat d ≤ FiniteCheck.default_max_steps + 1
  end.
Proof.
  unfold FiniteCheck.simulate_range.
  set (cap := FiniteCheck.default_max_steps).
  assert (Z.max 0 (cap + 1) = cap + 1) as Hcap
    by (unfold cap, FiniteCheck.default_max_steps; lia).
  pose proof (simulate_loop_cases cap (py_range 1 (limit + 1))
                (py_range 1 (limit + 1)) [] 0 1 eq_refl) as H.
  specialize (H ltac:(split; [done|]; split; [constructor|by left])).
  destruct (FiniteCheck.simulate_loop _ _ _ _) as [[[m a]|k]|]; [| |done].
  - destruct H as (Hm & Hall & Harg).
    assert (∀ n, 1 ≤ n ≤ limit → ∃ s, counted cap n s ∧ s ≤ m) as Hevery.
    { intros n Hn. eapply Forall_forall in Hall; [exact Hall|].
      unfold py_range. apply elem_of_seqZ. lia. }
    destruct Harg as [[-> ->]|(before & after & Hsplit & Ha & Hbefore)].
    + split; [lia|].
      split; [lia|]. split; [split; [done|intros; lia]|]. split; [done|].
      intros n Hn. destruct (Hevery n Hn) as (s & Hs & Hle).
      apply counted_reaches in Hs as [? ?].
      exists (Z.to_nat s). split; [done|]. split; lia.
    + pose proof (py_range_split _ _ _ _ _ Hsplit) as [Harange Hsmaller].
      pose proof (counted_reaches _ _ _ Ha) as [_ Hreach].
      pose proof (counted_bound _ _ _ Ha) as Hbound.
      split; [lia|].
      split; [lia|]. split; [done|]. split.
      { intros Hlim. assert (a = 1) as -> by lia. split; [|done].
        destruct Hreach as [_ Hfirst].
        destruct (decide (m = 0)) as [|Hm0]; [done|].
        by destruct (Hfirst 0%nat ltac:(lia)). }
      intros n Hn. destruct (Hevery n Hn) as (s & Hs & Hle).
      pose proof (counted_reaches _ _ _ Hs) as [? ?].
      exists (Z.to_nat s). split; [done|]. split; [lia|].
      intros Hlt. specialize (Hsmaller n ltac:(lia)).
      eapply Forall_forall in Hbefore; [|exact Hsmaller].
      destruct Hbefore as (s' & Hs' & ?).
      unfold counted in Hs, Hs'. rewrite Hs in Hs'. injection Hs' as <-. lia.
  - destruct H as (before & after & Hsplit & Hk & Hbefore).
    pose proof (py_range_split _ _ _ _ _ Hsplit) as [Hkrange Hsmaller].
    split; [lia|]. split.
    + pose proof (collatz_reaches_one_cases k cap) as Hc. rewrite Hk in Hc.
      destruct Hc as [_ Hnone]. intros d Hd. apply Hnone. lia.
    + intros n Hn. specialize (Hsmaller n ltac:(lia)).
      eapply Forall_forall in Hbefore; [|exact Hsmaller].
      destruct Hbefore as (s & Hs).
      pose proof (counted_bound _ _ _ Hs) as Hbound.
      apply counted_reaches in Hs as [? ?].
      exists (Z.to_nat s). split; [done|]. lia.
Qed.

(** ** When [enumerate_patterns] yields anything *)

Lemma composition_exists (max_part : Z) (n : nat) :
  ∀ total,
    Z.of_nat (S n) ≤ total ≤ Z.of_nat (S n) * max_part →
    ∃ p, length p = S n ∧ sumZ p = total ∧ Forall (part_ok max_part) p.
Proof.
  induction n as [|n IH]; intros total Htotal.
  - exists [total]. split; [done|]. split; [simpl; lia|].
    constructor; [|done]. unfold part_ok. simpl in Htotal. lia.
  - set (s := Z.max 1 (total - max_part * Z.of_nat (S n))).
    assert (1 ≤ max_part) as Hmax by nia.
    assert (1 ≤ s ≤ max_part) as Hs by (unfold s; nia).
    destruct (IH (total - s)) as (p & Hlen & Hsum & Hall).
    { unfold s. nia. }
    exists (s :: p). split; [simpl; lia|]. split; [simpl; lia|].
    by constructor.
Qed.

(** X28: with a length of at least 1, [enumerate_patterns] yields at least
    one pattern exactly when [length <= total <= length * max_part]. *)
Theorem enumerate_patterns_nonempty_iff (length total max_part : Z) :
  1 ≤ length →
  Windows.enumerate_patterns length total max_part ≠ []
  ↔ length ≤ total ≤ length * max_part.
Proof.
  intros Hlen. split.
  - intros Hne.
    destruct (Windows.enumerate_patterns length total max_part)
      as [|p l] eqn:Hl; [done|].
    assert (p ∈ Windows.enumerate_patterns length total max_part) as Hp
      by (rewrite Hl; apply elem_of_cons; by left).
    apply elem_of_enumerate_patterns in Hp as (Hplen & Hsum & Hall); [|done].
    pose proof (bounded_parts_sum max_part p Hall). lia.
  - intros Htotal.
    destruct (composition_exists max_part (Z.to_nat length - 1) total)
      as (p & Hplen & Hsum & Hall).
    { replace (Z.of_nat (S (Z.to_nat length - 1))) with length by lia. done. }
    assert (p ∈ Windows.enumerate_patterns length total max_part) as Hp.
    { apply elem_of_enumerate_patterns; [done|].
      split; [rewrite Hplen; lia|done]. }
    intros Hnil. rewrite Hnil in Hp. by apply elem_of_nil in Hp.
Qed.

Lemma enumerate_patterns_nonempty_iff_witness :
  Windows.enumerate_patterns 3 5 2 ≠ [] ↔ 3 ≤ 5 ≤ 3 * 2.
Proof. apply (enumerate_patterns_nonempty_iff 3 5 2). lia. Defined.

(** ** The table and the search box *)





(** ** The funnel table along a step *)

(** X30: the funnel table is consistent along the accelerated step: when
    [funnel_lengths] records a positive length for a residue, it records
    one less for the residue that one accelerated step leads to. *)
Theorem funnel_lengths_along_step (config : Config.CertificateConfig)
    (W : gset Z) (funnels : list (Z * Z)) (histogram : gmap Z Z)
    (residue len : Z) :
  Funnels.funnel_lengths config W = Ok (funnels, histogram) →
  (residue, len) ∈ funnels →
  1 ≤ len →
  (Funnels.accelerated_step residue (2 ^ Config.modulus_power config),
   len - 1) ∈ funnels.
Proof.
  intros Hgen Hin Hlen.
  apply funnel_lengths_inv in Hgen as (Hm & Hfst & Hall).
  apply py_shl_inv in Hm as [Hmp _].
  set (modulus := 2 ^ Config.modulus_power config) in *.
  assert (residue ∈ funnels.*1) as Hres
    by (apply list_elem_of_fmap; by exists (residue, len)).
  rewrite Hfst in Hres. apply elem_of_odd_range in Hres as [Hrange _].
  assert (1 ≤ Config.modulus_power config) as Hmp1.
  { destruct (decide (Config.modulus_power config = 0)) as [E|]; [|lia].
    unfold modulus in Hrange. rewrite E in Hrange. simpl in Hrange. lia. }
  assert (0 < modulus) as Hpos by (apply pow2_pos; lia).
  assert ((2 | modulus)) as Hdiv.
  { apply (pow2_divide 1 (Config.modulus_power config)). lia. }
  set (y := Funnels.accelerated_step residue modulus).
  pose proof (accelerated_step_bounds residue modulus Hpos) as Hy.
  pose proof (accelerated_step_is_odd residue modulus Hpos Hdiv) as Hodd.
  fold y in Hy, Hodd.
  assert (y ∈ funnels.*1) as Hyin.
  { rewrite Hfst. apply elem_of_odd_range. split; [|done].
    assert (y ≠ 0) by (intros E; rewrite E in Hodd; done). lia. }
  apply list_elem_of_fmap in Hyin as ([y' len'] & Hy' & Hyin).
  simpl in Hy'. subst y'.
  destruct (Hall y len' Hyin) as [Hlen' Hhit'].
  destruct (Hall residue len Hin) as [_ [Hhit Hfirst]].
  assert (first_hit modulus W y (Z.to_nat (len - 1))) as Hhit1.
  { replace (Z.to_nat len) with (S (Z.to_nat (len - 1))) in Hhit, Hfirst by lia.
    split.
    - unfold y. by rewrite <- steps_succ_r.
    - intros d Hd. unfold y. rewrite <- steps_succ_r. apply Hfirst. lia. }
  pose proof (first_hit_unique _ _ _ _ _ Hhit' Hhit1) as Heq.
  replace (len - 1) with len' by lia. done.
Qed.

Lemma funnel_lengths_along_step_witness :
  (Funnels.accelerated_step 7 (2 ^ Config.modulus_power config8), 3 - 1)
  ∈ [(1, 0); (3, 2); (5, 1); (7, 3)].
Proof.
  apply (funnel_lengths_along_step config8 {[1]} _
           (<[3:=1]> (<[1:=1]> (<[2:=1]> (<[0:=1]> ∅)))) 7 3).
  - vm_compute. reflexivity.
  - apply (bool_decide_unpack _). vm_compute. reflexivity.
  - lia.
Defined.
